(** * TaskFlow: the task lifecycle, recurrence, view and import/export core

    A shallow embedding of the task engine of the TaskFlow page
    ([TaskFlowPage], [TaskItem], [AddTaskDialog]) and the properties the
    specification states about it.

    Conventions of the embedding.
    - A TypeScript optional field [f?: T] is an [option T]; [None] is
      [undefined] (a key that is absent and a key holding [undefined] read the
      same).
    - A [number] field is a [Z]: the model covers the integral counts the
      form produces, not fractions, [NaN] or infinities. Arithmetic on them
      is that of doubles: the exact result, rounded to the nearest double
      ([round_double]), which is the exact result up to [2 ^ 53].
    - [uuidv4()] is an external generator. Its successive results are the
      values [uuidv4 0], [uuidv4 1], ... of a section variable, and code that
      calls it runs in a small state monad counting the calls made so far.
    - [new Date().toISOString()] is the argument [now] of the handlers that
      call it; [new Date(s).getTime()] is a section variable [getTime], with
      [None] for an invalid date ([NaN]).
    - [JSON.stringify] and [JSON.parse] are the functions of the module
      [JSON], written after the language standard; the functions of the page
      that call them take them as arguments. *)

From stdpp Require Import base option list strings numbers pretty sorting.
From Stdlib Require Import ZArith Lia Permutation.

Set Warnings "-register-all".

Local Open Scope Z_scope.

(** ** Data model (lib/types) *)

Inductive TaskType := daily | scheduled.
Inductive IntervalUnit := minutes | hours | days.

Module Subtask.
Record t := mk {
  id : string;
  title : string;
  completed : bool;
}.

(** [{...sub, completed}] *)
Definition with_completed (sub : t) (c : bool) : t :=
  {| id := id sub; title := title sub; completed := c |}.
End Subtask.

Module Task.
Record t := mk {
  id : string;
  title : string;
  description : option string;
  type : TaskType;
  dueDate : option string;
  startTime : option string;
  imageUrl : option string;
  completed : bool;
  completedAt : option string;
  subtasks : list Subtask.t;
  isRecurring : option bool;
  recurringInterval : option Z;
  recurringIntervalUnit : option IntervalUnit;
  repetitions : option Z;
}.
End Task.

(** [Omit<Task, 'id' | 'completed' | 'completedAt'>], the argument of
    [addTask]. *)
Module Draft.
Record t := mk {
  title : string;
  description : option string;
  type : TaskType;
  dueDate : option string;
  startTime : option string;
  imageUrl : option string;
  subtasks : list Subtask.t;
  isRecurring : option bool;
  recurringInterval : option Z;
  recurringIntervalUnit : option IntervalUnit;
  repetitions : option Z;
}.
End Draft.

(** [Partial<Task>], the argument of [updateTask]. A key of the object
    literal may be absent ([None]) or present. For an optional field of
    [Task] a present key may hold [undefined] ([Some None]), as
    [completedAt] does when [handleTaskComplete false] builds its update. *)
Module Partial.
Record t := mk {
  id : option string;
  title : option string;
  description : option (option string);
  type : option TaskType;
  dueDate : option (option string);
  startTime : option (option string);
  imageUrl : option (option string);
  completed : option bool;
  completedAt : option (option string);
  subtasks : option (list Subtask.t);
  isRecurring : option (option bool);
  recurringInterval : option (option Z);
  recurringIntervalUnit : option (option IntervalUnit);
  repetitions : option (option Z);
}.

(** [{}] *)
Definition empty : t :=
  mk None None None None None None None None None None None None None None.
End Partial.

(** [x ?? d] *)
Definition nullish {A} (x : option A) (d : A) : A := default d x.

(** Truthiness of an optional boolean: [undefined] and [false] are falsy. *)
Definition truthy (b : option bool) : bool := default false b.

(** Truthiness of an optional string: [undefined] and the empty string are
    falsy. *)
Definition truthy_str (s : option string) : bool :=
  match s with
  | Some s => negb (String.eqb s EmptyString)
  | None => false
  end.

(** [{ ...originalTask, ...updates }]: every key present in [updates]
    overwrites the field of [originalTask]. *)
Definition spread (originalTask : Task.t) (updates : Partial.t) : Task.t :=
  {| Task.id := default (Task.id originalTask) (Partial.id updates);
     Task.title := default (Task.title originalTask) (Partial.title updates);
     Task.description :=
       default (Task.description originalTask) (Partial.description updates);
     Task.type := default (Task.type originalTask) (Partial.type updates);
     Task.dueDate := default (Task.dueDate originalTask) (Partial.dueDate updates);
     Task.startTime :=
       default (Task.startTime originalTask) (Partial.startTime updates);
     Task.imageUrl := default (Task.imageUrl originalTask) (Partial.imageUrl updates);
     Task.completed :=
       default (Task.completed originalTask) (Partial.completed updates);
     Task.completedAt :=
       default (Task.completedAt originalTask) (Partial.completedAt updates);
     Task.subtasks := default (Task.subtasks originalTask) (Partial.subtasks updates);
     Task.isRecurring :=
       default (Task.isRecurring originalTask) (Partial.isRecurring updates);
     Task.recurringInterval :=
       default (Task.recurringInterval originalTask)
               (Partial.recurringInterval updates);
     Task.recurringIntervalUnit :=
       default (Task.recurringIntervalUnit originalTask)
               (Partial.recurringIntervalUnit updates);
     Task.repetitions :=
       default (Task.repetitions originalTask) (Partial.repetitions updates) |}.

(** The successor built by [updateTask]:
    [{ ...originalTask, id: uuidv4(), completed: false,
       completedAt: undefined, repetitions: newRepetitions,
       subtasks: originalTask.subtasks.map(sub => ({...sub, completed: false})) }] *)
Definition successor (originalTask : Task.t) (uuid : string)
    (newRepetitions : Z) : Task.t :=
  {| Task.id := uuid;
     Task.title := Task.title originalTask;
     Task.description := Task.description originalTask;
     Task.type := Task.type originalTask;
     Task.dueDate := Task.dueDate originalTask;
     Task.startTime := Task.startTime originalTask;
     Task.imageUrl := Task.imageUrl originalTask;
     Task.completed := false;
     Task.completedAt := None;
     Task.subtasks :=
       map (fun sub => Subtask.with_completed sub false)
           (Task.subtasks originalTask);
     Task.isRecurring := Task.isRecurring originalTask;
     Task.recurringInterval := Task.recurringInterval originalTask;
     Task.recurringIntervalUnit := Task.recurringIntervalUnit originalTask;
     Task.repetitions := Some newRepetitions |}.

(** [{ ...task, id: uuidv4(), completed: false }] of [addTask]; the draft has
    no [completedAt] key, so the new task has none. *)
Definition newTask_of_draft (task : Draft.t) (uuid : string) : Task.t :=
  {| Task.id := uuid;
     Task.title := Draft.title task;
     Task.description := Draft.description task;
     Task.type := Draft.type task;
     Task.dueDate := Draft.dueDate task;
     Task.startTime := Draft.startTime task;
     Task.imageUrl := Draft.imageUrl task;
     Task.completed := false;
     Task.completedAt := None;
     Task.subtasks := Draft.subtasks task;
     Task.isRecurring := Draft.isRecurring task;
     Task.recurringInterval := Draft.recurringInterval task;
     Task.recurringIntervalUnit := Draft.recurringIntervalUnit task;
     Task.repetitions := Draft.repetitions task |}.

(** [Array.prototype.findIndex]; [None] is the result [-1]. *)
Fixpoint findIndex {A} (p : A -> bool) (l : list A) : option nat :=
  match l with
  | [] => None
  | x :: l' => if p x then Some 0%nat else S <$> findIndex p l'
  end.

(** ** Numbers *)

(** The double nearest to the integer [z], ties to the even significand
    (IEEE 754 round to nearest; [z] below [2 ^ 1024] in absolute value). Up
    to [2 ^ 53] every integer is a double. *)
Definition round_double (z : Z) : Z :=
  let a := Z.abs z in
  if a <? 2 ^ 53 then z
  else
    let e := Z.log2 a - 52 in
    let q := a / 2 ^ e in
    let r := a mod 2 ^ e in
    let half := 2 ^ (e - 1) in
    let q' :=
      if r <? half then q
      else if half <? r then q + 1
      else if Z.even q then q else q + 1 in
    Z.sgn z * (q' * 2 ^ e).

(** [x - y] on numbers that hold integers. *)
Definition js_sub (x y : Z) : Z := round_double (x - y).

(** ** The id generator *)

(** A computation that may call [uuidv4()]: from the number of calls made so
    far to a result and the number of calls made afterwards. *)
Definition Gen (A : Type) : Type := nat -> A * nat.

Definition gret {A} (a : A) : Gen A := fun n => (a, n).
Definition gbind {A B} (m : Gen A) (k : A -> Gen B) : Gen B :=
  fun n => let '(a, n') := m n in k a n'.

Notation "'let*' x ':=' m 'in' k" := (gbind m (fun x => k))
  (at level 10, x name, m at level 100, k at level 200, only parsing).

Section Engine.

(** [uuidv4 k] is the value the generator returns at its [k]-th call. *)
Variable uuidv4 : nat -> string.

Definition uuid : Gen string := fun n => (uuidv4 n, S n).

(** *** Lifecycle engine ([TaskFlowPage]) *)

(** [addTask]: the state updater [prevTasks => [...prevTasks, newTask]]. *)
Definition addTask (task : Draft.t) (prevTasks : list Task.t)
    : Gen (list Task.t) :=
  let* u := uuid in
  gret (prevTasks ++ [newTask_of_draft task u]).

(** [updateTask]: the state updater passed to [setTasks]. *)
Definition updateTask (id : string) (updates : Partial.t)
    (prevTasks : list Task.t) : Gen (list Task.t) :=
  match findIndex (fun task => String.eqb (Task.id task) id) prevTasks with
  | None => gret prevTasks
  | Some taskIndex =>
      match prevTasks !! taskIndex with
      | None => gret prevTasks (* not reached: the index is in range *)
      | Some originalTask =>
          let updatedTask := spread originalTask updates in
          let newTasks := <[taskIndex := updatedTask]> prevTasks in
          if truthy (Partial.completed updates)
             && truthy (Task.isRecurring originalTask)
             && (0 <? nullish (Task.repetitions originalTask) 0)
          then
            let newRepetitions :=
              js_sub (nullish (Task.repetitions originalTask) 1) 1 in
            if 0 <? newRepetitions then
              let* u := uuid in
              gret (newTasks ++ [successor originalTask u newRepetitions])
            else gret newTasks
          else gret newTasks
      end
  end.

(** [deleteTask]: [prevTasks.filter(task => task.id !== id)]. *)
Definition deleteTask (id : string) (prevTasks : list Task.t) : list Task.t :=
  filter (fun task => Task.id task ≠ id) prevTasks.

(** *** Completion handlers ([TaskItem]) *)

(** [now] is the value of [new Date().toISOString()]. *)
Definition handleTaskComplete (now : string) (task : Task.t)
    (completed : bool) : list Task.t -> Gen (list Task.t) :=
  updateTask (Task.id task)
    {| Partial.id := None; Partial.title := None;
       Partial.description := None; Partial.type := None;
       Partial.dueDate := None; Partial.startTime := None;
       Partial.imageUrl := None;
       Partial.completed := Some completed;
       Partial.completedAt := Some (if completed then Some now else None);
       Partial.subtasks := None; Partial.isRecurring := None;
       Partial.recurringInterval := None;
       Partial.recurringIntervalUnit := None;
       Partial.repetitions := None |}.

Definition handleSubtaskComplete (now : string) (task : Task.t)
    (subtaskId : string) (completed : bool)
    : list Task.t -> Gen (list Task.t) :=
  let updatedSubtasks :=
    map (fun sub =>
           if String.eqb (Subtask.id sub) subtaskId
           then Subtask.with_completed sub completed else sub)
        (Task.subtasks task) in
  let allSubtasksCompleted := forallb Subtask.completed updatedSubtasks in
  updateTask (Task.id task)
    {| Partial.id := None; Partial.title := None;
       Partial.description := None; Partial.type := None;
       Partial.dueDate := None; Partial.startTime := None;
       Partial.imageUrl := None;
       Partial.completed := Some allSubtasksCompleted;
       Partial.completedAt :=
         Some (if allSubtasksCompleted then Some now else None);
       Partial.subtasks := Some updatedSubtasks;
       Partial.isRecurring := None;
       Partial.recurringInterval := None;
       Partial.recurringIntervalUnit := None;
       Partial.repetitions := None |}.

(** *** Task creation ([AddTaskDialog]) *)

(** [subtasks.map(title => ({ id: uuidv4(), title, completed: false }))]:
    one generator call per subtask, in order. *)
Fixpoint finalSubtasks (subtasks : list string) : Gen (list Subtask.t) :=
  match subtasks with
  | [] => gret []
  | title :: rest =>
      let* u := uuid in
      let* subs := finalSubtasks rest in
      gret (Subtask.mk u title false :: subs)
  end.

(** The tail of [onSubmit], after validation and the computation of
    [finalDueDate]:
    [addTask({ ...values, dueDate: finalDueDate, subtasks: finalSubtasks })].
    [values] are the form values (their [dueDate] and [subtasks] keys are
    overwritten by the spread). *)
Definition onSubmit (values : Draft.t) (finalDueDate : option string)
    (subtasks : list string) (prevTasks : list Task.t)
    : Gen (list Task.t) :=
  let* subs := finalSubtasks subtasks in
  addTask
    {| Draft.title := Draft.title values;
       Draft.description := Draft.description values;
       Draft.type := Draft.type values;
       Draft.dueDate := finalDueDate;
       Draft.startTime := Draft.startTime values;
       Draft.imageUrl := Draft.imageUrl values;
       Draft.subtasks := subs;
       Draft.isRecurring := Draft.isRecurring values;
       Draft.recurringInterval := Draft.recurringInterval values;
       Draft.recurringIntervalUnit := Draft.recurringIntervalUnit values;
       Draft.repetitions := Draft.repetitions values |}
    prevTasks.

(** A sequence of submissions, each with its form values, due date and
    subtask titles. *)
Fixpoint creates (inputs : list (Draft.t * option string * list string))
    (prevTasks : list Task.t) : Gen (list Task.t) :=
  match inputs with
  | [] => gret prevTasks
  | (values, finalDueDate, subtasks) :: rest =>
      let* tasks := onSubmit values finalDueDate subtasks prevTasks in
      creates rest tasks
  end.

End Engine.

(** Every task id and subtask id of a collection, in order. *)
Definition all_ids (tasks : list Task.t) : list string :=
  flat_map (fun task => Task.id task :: map Subtask.id (Task.subtasks task))
           tasks.

(** ** View projection ([filteredTasks]) *)

Inductive StatusFilter := all | active | overdue | completed.

(** [Array.prototype.sort(comparefn)]. The language requires the sort to be
    stable and leaves the algorithm open; it is modelled by a stable
    insertion sort. [comparefn] returns [None] for [NaN], which the sort
    reads as [0]. Where the comparator is a total preorder on the elements (for
    tasks: where the due dates are valid) the result is the same for every
    stable algorithm; see [sort_tasks_determined]. *)
Section Sort.
Context {A : Type} (comparefn : A -> A -> option Z).

Definition SortCompare (x y : A) : Z := default 0 (comparefn x y).

Fixpoint sort_insert (x : A) (l : list A) : list A :=
  match l with
  | [] => [x]
  | y :: l' =>
      if SortCompare x y <=? 0 then x :: y :: l' else y :: sort_insert x l'
  end.

Fixpoint sort (l : list A) : list A :=
  match l with
  | [] => []
  | x :: l' => sort_insert x (sort l')
  end.
End Sort.

Section View.

(** [getTime s] is [new Date(s).getTime()], in milliseconds since the
    epoch; [None] is [NaN] (an invalid date). *)
Variable getTime : string -> option Z.

(** [nowMs] is [Date.now()]. *)
Variable nowMs : Z.

(** [isPast(new Date(s))]: [+date < Date.now()]. *)
Definition isPast (s : string) : bool :=
  match getTime s with
  | Some ms => ms <? nowMs
  | None => false
  end.

(** The callback of [tasks.filter]. *)
Definition statusPredicate (statusFilter : StatusFilter) (task : Task.t)
    : bool :=
  match statusFilter with
  | completed => Task.completed task
  | active => negb (Task.completed task)
  | overdue =>
      negb (Task.completed task)
      && match Task.dueDate task with
         | Some d => negb (String.eqb d EmptyString) && isPast d
         | None => false
         end
  | all => true
  end.

(** [new Date(task.dueDate || 0).getTime()]: an absent or empty due date
    is the epoch. *)
Definition dueTime (task : Task.t) : option Z :=
  match Task.dueDate task with
  | Some d => if String.eqb d EmptyString then Some 0 else getTime d
  | None => Some 0
  end.

(** [a.completed ? 1 : -1] *)
Definition rank (task : Task.t) : Z :=
  if Task.completed task then 1 else -1.

(** The comparator of [.sort]:
    [rank(a) - rank(b) || (dueTime(b) - dueTime(a))]. *)
Definition compareTasks (a b : Task.t) : option Z :=
  let d := rank a - rank b in
  if d =? 0 then
    match dueTime b, dueTime a with
    | Some tb, Some ta => Some (tb - ta)
    | _, _ => None
    end
  else Some d.

Definition filteredTasks (tasks : list Task.t) (statusFilter : StatusFilter)
    : list Task.t :=
  sort compareTasks (filter (fun task => statusPredicate statusFilter task) tasks).

End View.

(** ** Persistence: export and import ([exportTasks], [importTasks]) *)

(** The values [JSON.parse] returns and [JSON.stringify] serialises. An
    object is the list of its keys and values. *)
Inductive JSValue :=
  | JNull
  | JBool (b : bool)
  | JNumber (n : Z)
  | JString (s : string)
  | JArray (elements : list JSValue)
  | JObject (fields : list (string * JSValue)).

(** [key in v], for the keys ["id"] and ["title"]: a [TypeError] ([None]) when
    [v] is not an object; an array has neither key. *)
Definition in_op (key : string) (v : JSValue) : option bool :=
  match v with
  | JObject fields => Some (bool_decide (key ∈ fields.*1))
  | JArray _ => Some false
  | JNull | JBool _ | JNumber _ | JString _ => None
  end.

(** [tasksToImport.every(task => 'id' in task && 'title' in task)]; [None]
    when the callback throws. *)
Fixpoint every_id_title (tasksToImport : list JSValue) : option bool :=
  match tasksToImport with
  | [] => Some true
  | task :: rest =>
      match in_op "id" task with
      | None => None
      | Some false => Some false
      | Some true =>
          match in_op "title" task with
          | None => None
          | Some false => Some false
          | Some true => every_id_title rest
          end
      end
  end.

(** The toast shown by an operation. *)
Inductive Toast :=
  | ToastSuccess (description : string)
  | ToastError (description : string).

(** The runtime object of a task as [JSON.stringify] sees it: a key whose
    value is [undefined] is left out. *)
Definition field {A} (key : string) (enc : A -> JSValue) (x : option A)
    : list (string * JSValue) :=
  match x with
  | Some a => [(key, enc a)]
  | None => []
  end.

Definition js_of_type (ty : TaskType) : JSValue :=
  JString match ty with daily => "daily" | scheduled => "scheduled" end.

Definition js_of_unit (u : IntervalUnit) : JSValue :=
  JString match u with
          | minutes => "minutes" | hours => "hours" | days => "days"
          end.

Definition js_of_subtask (sub : Subtask.t) : JSValue :=
  JObject [("id", JString (Subtask.id sub));
           ("title", JString (Subtask.title sub));
           ("completed", JBool (Subtask.completed sub))].

Definition js_of_task (task : Task.t) : JSValue :=
  JObject
    ([("id", JString (Task.id task)); ("title", JString (Task.title task))]
     ++ field "description" JString (Task.description task)
     ++ [("type", js_of_type (Task.type task))]
     ++ field "dueDate" JString (Task.dueDate task)
     ++ field "startTime" JString (Task.startTime task)
     ++ field "imageUrl" JString (Task.imageUrl task)
     ++ [("completed", JBool (Task.completed task))]
     ++ field "completedAt" JString (Task.completedAt task)
     ++ [("subtasks", JArray (map js_of_subtask (Task.subtasks task)))]
     ++ field "isRecurring" JBool (Task.isRecurring task)
     ++ field "recurringInterval" JNumber (Task.recurringInterval task)
     ++ field "recurringIntervalUnit" js_of_unit
          (Task.recurringIntervalUnit task)
     ++ field "repetitions" JNumber (Task.repetitions task)).

(** Reading a runtime object as a [Task]. The code has no decoder (the
    parsed array is stored as it is, its type asserted); a typed record is
    what the reads [task.id], [task.title], ... return, [None] when a
    required field is missing or not of its declared type. *)
Fixpoint get (key : string) (fields : list (string * JSValue))
    : option JSValue :=
  match fields with
  | [] => None
  | (k, v) :: rest => if String.eqb k key then Some v else get key rest
  end.

Definition as_string (v : JSValue) : option string :=
  match v with JString s => Some s | _ => None end.
Definition as_bool (v : JSValue) : option bool :=
  match v with JBool b => Some b | _ => None end.
Definition as_number (v : JSValue) : option Z :=
  match v with JNumber n => Some n | _ => None end.
Definition as_array (v : JSValue) : option (list JSValue) :=
  match v with JArray l => Some l | _ => None end.
Definition as_type (v : JSValue) : option TaskType :=
  match v with
  | JString s =>
      if String.eqb s "daily" then Some daily
      else if String.eqb s "scheduled" then Some scheduled else None
  | _ => None
  end.
Definition as_unit (v : JSValue) : option IntervalUnit :=
  match v with
  | JString s =>
      if String.eqb s "minutes" then Some minutes
      else if String.eqb s "hours" then Some hours
      else if String.eqb s "days" then Some days else None
  | _ => None
  end.

Definition subtask_of_js (v : JSValue) : option Subtask.t :=
  match v with
  | JObject f =>
      id ← get "id" f ≫= as_string;
      title ← get "title" f ≫= as_string;
      completed ← get "completed" f ≫= as_bool;
      Some (Subtask.mk id title completed)
  | _ => None
  end.

Definition task_of_js (v : JSValue) : option Task.t :=
  match v with
  | JObject f =>
      id ← get "id" f ≫= as_string;
      title ← get "title" f ≫= as_string;
      type ← get "type" f ≫= as_type;
      completed ← get "completed" f ≫= as_bool;
      subs ← get "subtasks" f ≫= as_array;
      subtasks ← mapM subtask_of_js subs;
      Some {| Task.id := id; Task.title := title;
              Task.description := get "description" f ≫= as_string;
              Task.type := type;
              Task.dueDate := get "dueDate" f ≫= as_string;
              Task.startTime := get "startTime" f ≫= as_string;
              Task.imageUrl := get "imageUrl" f ≫= as_string;
              Task.completed := completed;
              Task.completedAt := get "completedAt" f ≫= as_string;
              Task.subtasks := subtasks;
              Task.isRecurring := get "isRecurring" f ≫= as_bool;
              Task.recurringInterval := get "recurringInterval" f ≫= as_number;
              Task.recurringIntervalUnit :=
                get "recurringIntervalUnit" f ≫= as_unit;
              Task.repetitions := get "repetitions" f ≫= as_number |}
  | _ => None
  end.

(** *** The JSON text ([JSON.stringify], [JSON.parse])

    The two built-in functions the page calls, after ECMA-262
    ([SerializeJSONProperty], [QuoteJSONString], [Number::toString]) and the
    grammar of ECMA-404. A string of the model is a string of code units
    below 256, and a number an integer: a [\u] escape above [00ff] and a
    number literal that does not denote an integer have no value in
    [JSValue], and [parse] has no result for a text that holds one. An
    object is read as its members in the order of the text; the language
    lists keys that are array indices first, and a task has none. *)
Module JSON.
Import Stdlib.Strings.Ascii.

(** **** Writing *)

Definition quote : ascii := "034"%char.
Definition backslash : ascii := "092"%char.
Definition newline : ascii := "010"%char.

Definition code (c : ascii) : Z := Z.of_nat (nat_of_ascii c).
Definition char_of_code (n : Z) : ascii := ascii_of_nat (Z.to_nat n).

Definition hex_char (d : Z) : ascii :=
  if d <? 10 then char_of_code (48 + d) else char_of_code (87 + d).

Definition escape_char (c : ascii) : string :=
  let n := code c in
  if n =? 8 then String backslash "b"
  else if n =? 9 then String backslash "t"
  else if n =? 10 then String backslash "n"
  else if n =? 12 then String backslash "f"
  else if n =? 13 then String backslash "r"
  else if n =? 34 then String backslash (String quote EmptyString)
  else if n =? 92 then String backslash (String backslash EmptyString)
  else if n <? 32 then
    String backslash
      (String "u" (String "0" (String "0"
         (String (hex_char (n / 16)) (String (hex_char (n mod 16)) EmptyString)))))
  else String c EmptyString.

Fixpoint escape (s : string) : string :=
  match s with
  | EmptyString => EmptyString
  | String c s' => (escape_char c ++ escape s')%string
  end.

Definition QuoteJSONString (s : string) : string :=
  String quote (escape s ++ String quote EmptyString)%string.

Definition is_empty (s : string) : bool :=
  match s with EmptyString => true | _ => false end.

(** The decimal digits of a natural number. *)
Fixpoint digits (fuel : nat) (n : Z) : string :=
  match fuel with
  | O => EmptyString
  | S fuel' =>
      let d := String (char_of_code (48 + n mod 10)) EmptyString in
      if n / 10 =? 0 then d else (digits fuel' (n / 10) ++ d)%string
  end.

Definition decimal (n : Z) : string := digits (S (Z.to_nat (Z.log2 n))) n.

(** [Number::toString] of a double above [2 ^ 53]: the fewest digits [s]
    (there are [k] of them) such that [s * 10 ^ (n - k)] reads back as [x],
    and the nearest to [x] when two numbers of [k] digits do. *)
Definition candidate (x p : Z) : option Z :=
  let lo := x / p in
  let hi := lo + 1 in
  match round_double (lo * p) =? x, round_double (hi * p) =? x with
  | true, true =>
      if x - lo * p <? hi * p - x then Some lo
      else if hi * p - x <? x - lo * p then Some hi
      else if Z.even lo then Some lo else Some hi
  | true, false => Some lo
  | false, true => Some hi
  | false, false => None
  end.

Fixpoint shortest (fuel : nat) (x n k : Z) : Z * Z :=
  match fuel with
  | O => (x, n)
  | S fuel' =>
      match candidate x (10 ^ (n - k)) with
      | Some s => (s, k)
      | None => shortest fuel' x n (k + 1)
      end
  end.

Fixpoint zeros (count : nat) : string :=
  match count with
  | O => EmptyString
  | S count' => String "0" (zeros count')
  end.

(** The digits [s], [k] of them, of a number with [n] integer digits:
    followed by zeros up to 21 digits, in exponent form beyond. *)
Definition print_digits (s k n : Z) : string :=
  if n <=? 21 then (decimal s ++ zeros (Z.to_nat (n - k)))%string
  else
    match decimal s with
    | String d fraction =>
        String d ((if is_empty fraction then EmptyString
                   else String "." fraction)
                  ++ "e+" ++ decimal (n - 1))%string
    | EmptyString => EmptyString
    end.

Definition large_to_string (x : Z) : string :=
  let n := Z.of_nat (String.length (decimal x)) in
  let '(s, k) := shortest (Z.to_nat n) x n 1 in
  if s =? 10 ^ k then print_digits 1 1 (n + 1) else print_digits s k n.

(** [Number::toString] of an integer: up to [2 ^ 53] its decimal digits,
    above that the shortest digits that read back as the same double. *)
Definition NumberToString (n : Z) : string :=
  let x := round_double (Z.abs n) in
  let text := if x <=? 2 ^ 53 then decimal x else large_to_string x in
  if n <? 0 then String "-" text else text.

Fixpoint join (sep : string) (parts : list string) : string :=
  match parts with
  | [] => EmptyString
  | [p] => p
  | p :: rest => (p ++ sep ++ join sep rest)%string
  end.

(** The line break before an element and before the closing bracket: none
    when the gap is empty. *)
Definition line_break (gap indent : string) : string :=
  if is_empty gap then EmptyString else String newline indent.

Definition colon (gap : string) : string :=
  if is_empty gap then ":" else ": ".

(** [SerializeJSONProperty], with [SerializeJSONArray] and
    [SerializeJSONObject]; [gap] is the indentation unit and [indent] the
    current indentation. *)
Fixpoint serialize (gap indent : string) (v : JSValue) : string :=
  match v with
  | JNull => "null"
  | JBool true => "true"
  | JBool false => "false"
  | JNumber n => NumberToString n
  | JString s => QuoteJSONString s
  | JArray elements =>
      let stepback := indent in
      let indent := (indent ++ gap)%string in
      match elements with
      | [] => "[]"
      | _ =>
          let partial := map (serialize gap indent) elements in
          String "["
            (line_break gap indent
             ++ join (String "," (line_break gap indent)) partial
             ++ line_break gap stepback ++ "]")%string
      end
  | JObject fields =>
      let stepback := indent in
      let indent := (indent ++ gap)%string in
      match fields with
      | [] => "{}"
      | _ =>
          let partial :=
            map (fun kv =>
                   (QuoteJSONString (fst kv) ++ colon gap
                    ++ serialize gap indent (snd kv))%string)
                fields in
          String "{"
            (line_break gap indent
             ++ join (String "," (line_break gap indent)) partial
             ++ line_break gap stepback ++ "}")%string
      end
  end.

(** [JSON.stringify(v, null, 2)] is [stringify "  " v]; [JSON.stringify(v)]
    is [stringify EmptyString v]. *)
Definition stringify (gap : string) (v : JSValue) : string :=
  serialize gap EmptyString v.


(** **** Reading

    The grammar, read by recursive descent; each function returns the value
    read and the rest of the text. *)

Definition is_ws (c : ascii) : bool :=
  let n := code c in
  (n =? 32) || (n =? 9) || (n =? 10) || (n =? 13).

Fixpoint skip_ws (s : string) : string :=
  match s with
  | EmptyString => EmptyString
  | String c s' => if is_ws c then skip_ws s' else s
  end.

Fixpoint strip_prefix (p s : string) : option string :=
  match p with
  | EmptyString => Some s
  | String c p' =>
      match s with
      | String d s' => if Ascii.eqb c d then strip_prefix p' s' else None
      | EmptyString => None
      end
  end.

Definition hex_value (c : ascii) : option Z :=
  let n := code c in
  if (48 <=? n) && (n <=? 57) then Some (n - 48)
  else if (97 <=? n) && (n <=? 102) then Some (n - 87)
  else if (65 <=? n) && (n <=? 70) then Some (n - 55)
  else None.

Definition unescape (e : ascii) : option ascii :=
  let n := code e in
  if n =? 34 then Some quote
  else if n =? 92 then Some backslash
  else if n =? 47 then Some "/"%char
  else if n =? 98 then Some "008"%char
  else if n =? 102 then Some "012"%char
  else if n =? 110 then Some "010"%char
  else if n =? 114 then Some "013"%char
  else if n =? 116 then Some "009"%char
  else None.

Definition cons_char (c : ascii) (r : option (string * string)) :
  option (string * string) :=
  match r with
  | Some (str, rest) => Some (String c str, rest)
  | None => None
  end.

(** The characters of a string literal after its opening quote, up to the
    closing one. *)
Fixpoint parse_chars (s : string) : option (string * string) :=
  match s with
  | EmptyString => None
  | String c s1 =>
      if code c =? 34 then Some (EmptyString, s1)
      else if code c =? 92 then
        match s1 with
        | EmptyString => None
        | String e s2 =>
            if code e =? 117 then
              match s2 with
              | String h1 (String h2 (String h3 (String h4 s3))) =>
                  match hex_value h1, hex_value h2, hex_value h3, hex_value h4 with
                  | Some a, Some b, Some c', Some d =>
                      let n := ((a * 16 + b) * 16 + c') * 16 + d in
                      if n <? 256 then cons_char (char_of_code n) (parse_chars s3)
                      else None
                  | _, _, _, _ => None
                  end
              | _ => None
              end
            else
              match unescape e with
              | Some c' => cons_char c' (parse_chars s2)
              | None => None
              end
        end
      else if code c <? 32 then None
      else cons_char c (parse_chars s1)
  end.

Definition is_digit (c : ascii) : bool := (48 <=? code c) && (code c <=? 57).

Fixpoint span_digits (s : string) : string * string :=
  match s with
  | EmptyString => (EmptyString, EmptyString)
  | String c s' =>
      if is_digit c then
        let '(d, r) := span_digits s' in (String c d, r)
      else (EmptyString, s)
  end.

Fixpoint digits_value (acc : Z) (s : string) : Z :=
  match s with
  | EmptyString => acc
  | String c s' => digits_value (acc * 10 + (code c - 48)) s'
  end.

Definition parse_sign (s : string) : bool * string :=
  match s with
  | String c s' => if code c =? 45 then (true, s') else (false, s)
  | EmptyString => (false, s)
  end.

(** [int]: a single [0], or a digit from 1 to 9 followed by digits. *)
Definition parse_int (s : string) : option (string * string) :=
  match s with
  | String c s' =>
      if code c =? 48 then Some (String c EmptyString, s')
      else if is_digit c then Some (span_digits s)
      else None
  | EmptyString => None
  end.

Definition parse_frac (s : string) : option (string * string) :=
  match s with
  | String c s' =>
      if code c =? 46 then
        let '(d, r) := span_digits s' in
        if is_empty d then None else Some (d, r)
      else Some (EmptyString, s)
  | EmptyString => Some (EmptyString, s)
  end.

Definition parse_exp (s : string) : option (Z * string) :=
  match s with
  | String c s' =>
      if (code c =? 101) || (code c =? 69) then
        let '(negative, s1) :=
          match s' with
          | String c1 s1 =>
              if code c1 =? 45 then (true, s1)
              else if code c1 =? 43 then (false, s1)
              else (false, s')
          | EmptyString => (false, s')
          end in
        let '(d, r) := span_digits s1 in
        if is_empty d then None
        else Some (if negative then - digits_value 0 d else digits_value 0 d, r)
      else Some (0, s)
  | EmptyString => Some (0, s)
  end.

(** The value of a number literal, the nearest double; none when the
    literal does not denote an integer or the double is [Infinity]. *)
Definition number_value (negative : bool) (int frac : string) (e : Z) : option Z :=
  let m := digits_value 0 (int ++ frac)%string in
  let scale := e - Z.of_nat (String.length frac) in
  let v :=
    if 0 <=? scale then Some (m * 10 ^ scale)
    else if m mod 10 ^ (- scale) =? 0 then Some (m / 10 ^ (- scale))
    else None in
  match v with
  | Some v =>
      let r := round_double v in
      if r <? 2 ^ 1024 then Some (if negative then - r else r) else None
  | None => None
  end.

(** A number after its sign: [int], [frac] and [exp]. *)
Definition parse_unsigned (negative : bool) (s1 : string)
    : option (Z * string) :=
  match parse_int s1 with
  | Some (int, s2) =>
      match parse_frac s2 with
      | Some (frac, s3) =>
          match parse_exp s3 with
          | Some (e, s4) =>
              match number_value negative int frac e with
              | Some v => Some (v, s4)
              | None => None
              end
          | None => None
          end
      | None => None
      end
  | None => None
  end.

Definition parse_number (s : string) : option (Z * string) :=
  let '(negative, s1) := parse_sign s in
  parse_unsigned negative s1.

(** A later member with the same key replaces the value of the earlier one
    and keeps its place. *)
Fixpoint set_field (k : string) (v : JSValue) (fields : list (string * JSValue)) :
  list (string * JSValue) :=
  match fields with
  | [] => [(k, v)]
  | (k', v') :: rest =>
      if String.eqb k k' then (k', v) :: rest else (k', v') :: set_field k v rest
  end.

Section Descent.
Variable parse_value : string -> option (JSValue * string).

Fixpoint parse_elements (fuel : nat) (s : string) (acc : list JSValue) :
  option (JSValue * string) :=
  match fuel with
  | O => None
  | S fuel' =>
      match parse_value s with
      | Some (v, r) =>
          match skip_ws r with
          | String c r' =>
              if code c =? 44 then parse_elements fuel' r' (acc ++ [v])
              else if code c =? 93 then Some (JArray (acc ++ [v]), r')
              else None
          | EmptyString => None
          end
      | None => None
      end
  end.

Fixpoint parse_members (fuel : nat) (s : string) (acc : list (string * JSValue)) :
  option (JSValue * string) :=
  match fuel with
  | O => None
  | S fuel' =>
      match skip_ws s with
      | String q s1 =>
          if code q =? 34 then
            match parse_chars s1 with
            | Some (k, r1) =>
                match skip_ws r1 with
                | String colon r2 =>
                    if code colon =? 58 then
                      match parse_value r2 with
                      | Some (v, r3) =>
                          let acc' := set_field k v acc in
                          match skip_ws r3 with
                          | String c r4 =>
                              if code c =? 44 then parse_members fuel' r4 acc'
                              else if code c =? 125 then Some (JObject acc', r4)
                              else None
                          | EmptyString => None
                          end
                      | None => None
                      end
                    else None
                | EmptyString => None
                end
            | None => None
            end
          else None
      | EmptyString => None
      end
  end.

End Descent.

Definition literal (word : string) (v : JSValue) (s : string) :
  option (JSValue * string) :=
  match strip_prefix word s with
  | Some r => Some (v, r)
  | None => None
  end.

Fixpoint parse_value (fuel : nat) (s : string) : option (JSValue * string) :=
  match fuel with
  | O => None
  | S fuel' =>
      match skip_ws s with
      | EmptyString => None
      | String c s' =>
          let n := code c in
          if n =? 110 then literal "ull" JNull s'
          else if n =? 116 then literal "rue" (JBool true) s'
          else if n =? 102 then literal "alse" (JBool false) s'
          else if n =? 34 then
            match parse_chars s' with
            | Some (str, r) => Some (JString str, r)
            | None => None
            end
          else if n =? 91 then
            match skip_ws s' with
            | String c1 r =>
                if code c1 =? 93 then Some (JArray [], r)
                else parse_elements (parse_value fuel') fuel' s' []
            | EmptyString => None
            end
          else if n =? 123 then
            match skip_ws s' with
            | String c1 r =>
                if code c1 =? 125 then Some (JObject [], r)
                else parse_members (parse_value fuel') fuel' s' []
            | EmptyString => None
            end
          else
            match parse_number (String c s') with
            | Some (z, r) => Some (JNumber z, r)
            | None => None
            end
      end
  end.

(** [JSON.parse(text)]; [None] is a [SyntaxError]. *)
Definition parse (text : string) : option JSValue :=
  match parse_value (S (String.length text)) text with
  | Some (v, rest) => if is_empty (skip_ws rest) then Some v else None
  | None => None
  end.

(** **** The round trip

    What its lemmas speak of: texts of digits and of white space, the text
    that may follow a value, and a value that is read back from its own
    text. *)
Fixpoint all_digits (s : string) : bool :=
  match s with
  | EmptyString => true
  | String c s' => is_digit c && all_digits s'
  end.

Fixpoint all_ws (s : string) : bool :=
  match s with
  | EmptyString => true
  | String c s' => is_ws c && all_ws s'
  end.

(** The text after a value: the end, white space, a comma or a closing
    bracket. *)
Definition delimited (rest : string) : bool :=
  match rest with
  | EmptyString => true
  | String c _ =>
      is_ws c || (code c =? 44) || (code c =? 93) || (code c =? 125)
  end.

(** The text after a number: not a digit, a point or an exponent. *)
Definition numeric_end (rest : string) : Prop :=
  match rest with
  | EmptyString => True
  | String c _ =>
      is_digit c = false /\ code c <> 46 /\ code c <> 101 /\ code c <> 69
  end.

(** The integers that are numbers of the language: finite doubles. *)
Definition is_double (n : Z) : bool :=
  (round_double n =? n) && (Z.abs n <? 2 ^ 1024).

Definition roundtrips (gap : string) (v : JSValue) : Prop :=
  forall (indent rest : string) (fuel : nat),
    all_ws indent = true -> delimited rest = true ->
    (String.length (serialize gap indent v) < fuel)%nat ->
    parse_value fuel (serialize gap indent v ++ rest)%string = Some (v, rest).

(** The values of the language among those of [JSValue]: every number is
    a double, and no object lists a key twice. *)
Fixpoint wellformed (v : JSValue) : bool :=
  match v with
  | JNull | JBool _ | JString _ => true
  | JNumber n => is_double n
  | JArray elements => forallb wellformed elements
  | JObject fields =>
      bool_decide (NoDup fields.*1)
      && forallb (fun kv => wellformed (snd kv)) fields
  end.

End JSON.

(** *** [exportTasks] and [importTasks] *)

Section Persistence.

(** [JSON.stringify(v, null, 2)] and [JSON.parse(text)]; [None] is a
    [SyntaxError]. The page passes [JSON.stringify "  "] and [JSON.parse]. *)
Variable JSON_stringify : JSValue -> string.
Variable JSON_parse : string -> option JSValue.

(** [exportTasks]: the text of the document offered for download as
    [task-progress.json] (the link carries it as a [data:] URI, encoded by
    [encodeURIComponent]; the file holds the text). [tasks] is the stored
    collection as runtime values. *)
Definition exportTasks (tasks : list JSValue) : string :=
  JSON_stringify (JArray tasks).

(** The [onload] callback of [importTasks], for the text the reader
    delivers: the stored collection afterwards and the toast shown.
    [tasks] is the stored collection as runtime values. *)
Definition importTasks (text : string) (tasks : list JSValue)
    : list JSValue * Toast :=
  let failure :=
    (tasks, ToastError "Could not import tasks. Invalid JSON file.") in
  match JSON_parse text with
  | None => failure
  | Some (JArray tasksToImport) =>
      match every_id_title tasksToImport with
      | Some true =>
          (tasksToImport, ToastSuccess "Your tasks have been imported.")
      | Some false | None => failure
      end
  | Some _ => failure
  end.

End Persistence.

(** ** The rest of the page and of its components *)

(** *** The task card ([TaskItem]) *)

Section TaskCard.
Variable getTime : string -> option Z.
Variable nowMs : Z.

(** [task.dueDate && !task.completed && isPast(new Date(task.dueDate))], as
    the truth value the Overdue badge tests. *)
Definition isOverdue (task : Task.t) : bool :=
  match Task.dueDate task with
  | Some d =>
      negb (String.eqb d EmptyString) && negb (Task.completed task)
      && isPast getTime nowMs d
  | None => false
  end.

End TaskCard.

(** *** The earlier page ([TaskFlowPage] before recurrence) *)

Module Earlier.

(** [prevTasks.map(task => task.id === id ? { ...task, ...updates } : task)] *)
Definition updateTask (id : string) (updates : Partial.t)
    (prevTasks : list Task.t) : list Task.t :=
  map (fun task =>
         if String.eqb (Task.id task) id then spread task updates else task)
      prevTasks.

End Earlier.

(** *** The analytics dashboard ([AnalyticsDashboard]) *)

Section Analytics.
Variable getTime : string -> option Z.

(** [startOfDay] of date-fns, on time values: the first instant of the local
    calendar day. *)
Variable startOfDay : Z -> Z.

(** [isSameDay(new Date(s), day)]: [+startOfDay(left) === +startOfDay(right)];
    an invalid date is the same day as nothing. *)
Definition isSameDay (left : option Z) (day : Z) : bool :=
  match left with
  | Some ms => startOfDay ms =? startOfDay day
  | None => false
  end.

(** The callback of [tasks.filter] for one day:
    [task.completed && task.completedAt
     && isSameDay(new Date(task.completedAt), day)]. *)
Definition completedOn (day : Z) (task : Task.t) : bool :=
  Task.completed task
  && match Task.completedAt task with
     | Some s => negb (String.eqb s EmptyString) && isSameDay (getTime s) day
     | None => false
     end.

(** [chartData]: for each day of [last7Days] (the result of
    [eachDayOfInterval]) the day and the number of tasks completed on it.
    The two labels of an entry are formats of the day. *)
Definition chartData (last7Days : list Z) (tasks : list Task.t)
    : list (Z * nat) :=
  map (fun day =>
         (day, length (filter (fun task => completedOn day task) tasks)))
      last7Days.

(** [tasks.filter(t => t.completed).length] *)
Definition totalCompleted (tasks : list Task.t) : nat :=
  length (filter (fun t => Task.completed t) tasks).

(** [tasks.length] *)
Definition totalTasks (tasks : list Task.t) : nat := length tasks.

End Analytics.

(** *** The stored collection ([useLocalStorage]) *)

Section Storage.

(** [JSON.stringify(v)] and [JSON.parse(text)]: the hook passes
    [JSON.stringify EmptyString] and [JSON.parse]. *)
Variable JSON_stringify : JSValue -> string.
Variable JSON_parse : string -> option JSValue.

(** The value the loading effect stores:
    [item ? JSON.parse(item) : stableInitialValue], and the initial value
    when [JSON.parse] throws. [item] is the result of [getItem]: [None] is
    [null]. *)
Definition loadStored (item : option string) (initialValue : JSValue)
    : JSValue :=
  match item with
  | Some text =>
      if String.eqb text EmptyString then initialValue
      else match JSON_parse text with
           | Some v => v
           | None => initialValue
           end
  | None => initialValue
  end.

(** The text the saving effect writes: [JSON.stringify(storedValue)]. *)
Definition saveStored (storedValue : JSValue) : string :=
  JSON_stringify storedValue.

End Storage.

(** *** The subtask suggestions ([getAISubtaskSuggestions]) *)

(** [{ subtasks?: string[]; error?: string }] *)
Record Suggestions := mkSuggestions {
  sug_subtasks : option (list string);
  sug_error : option string;
}.

Section Suggest.

(** The flow [suggestSubtasks]; [None] when it rejects. *)
Variable suggestSubtasks : string -> option (list string).

Definition getAISubtaskSuggestions (taskDescription : string) : Suggestions :=
  if String.eqb taskDescription EmptyString then
    mkSuggestions None (Some "Task description cannot be empty.")
  else
    match suggestSubtasks taskDescription with
    | Some subtasks => mkSuggestions (Some subtasks) None
    | None =>
        mkSuggestions None
          (Some "Failed to generate subtasks. Please try again.")
    end.

(** [handleSuggestSubtasks] of the dialog: the subtask titles afterwards and
    the toast shown, if any. [description] is the description field of the
    form. *)
Definition handleSuggestSubtasks (description : option string)
    (subtasks : list string) : list string * option Toast :=
  if negb (truthy_str description) then
    (subtasks,
     Some (ToastError "Please enter a description to get AI suggestions."))
  else
    let result := getAISubtaskSuggestions (default EmptyString description) in
    match sug_subtasks result with
    | Some suggested => (subtasks ++ suggested, None)
    | None => (subtasks, Some (ToastError (default EmptyString (sug_error result))))
    end.

End Suggest.

(** *** The dialog ([AddTaskDialog]) *)

(** [Array.prototype.filter] with the index: [l.filter((x, i) => p x i)],
    the first index being [i]. *)
Fixpoint filter_index {A} (p : A -> nat -> bool) (i : nat) (l : list A)
    : list A :=
  match l with
  | [] => []
  | x :: l' =>
      if p x i then x :: filter_index p (S i) l' else filter_index p (S i) l'
  end.

(** [handleRemoveSubtask]: [subtasks.filter((_, i) => i !== index)]. *)
Definition handleRemoveSubtask (index : nat) (subtasks : list string)
    : list string :=
  filter_index (fun _ i => negb (Nat.eqb i index)) 0 subtasks.

(** [handleAddSubtask], on the pair of the subtask titles and the text of the
    input; [trim] is [String.prototype.trim]. *)
Definition handleAddSubtask (trim : string -> string)
    (state : list string * string) : list string * string :=
  let '(subtasks, newSubtask) := state in
  if negb (String.eqb (trim newSubtask) EmptyString)
  then (subtasks ++ [trim newSubtask], EmptyString)
  else (subtasks, newSubtask).

(** [AddTaskFormValues]: the values of the form. [dueDate] is a [Date], given
    by its time value. *)
Module Form.
Record t := mk {
  title : string;
  description : option string;
  type : TaskType;
  dueDate : option Z;
  startTime : option string;
  isRecurring : bool;
  recurringInterval : option Z;
  recurringIntervalUnit : option IntervalUnit;
  repetitions : option Z;
  imageUrl : option string;
}.
End Form.

(** How a submission ends. *)
Inductive Submitted :=
  | Added
  | FieldError (field : string) (message : string)
  | Thrown.

(** [!n] for an optional number: [undefined] and [0] are falsy. *)
Definition falsy_number (n : option Z) : bool :=
  match n with
  | Some n => n =? 0
  | None => true
  end.

(** The keys of [...values] on which [addTask] is called (its [dueDate] and
    [subtasks] are overwritten). *)
Definition draft_of_form (values : Form.t) : Draft.t :=
  {| Draft.title := Form.title values;
     Draft.description := Form.description values;
     Draft.type := Form.type values;
     Draft.dueDate := None;
     Draft.startTime := Form.startTime values;
     Draft.imageUrl := Form.imageUrl values;
     Draft.subtasks := [];
     Draft.isRecurring := Some (Form.isRecurring values);
     Draft.recurringInterval := Form.recurringInterval values;
     Draft.recurringIntervalUnit := Form.recurringIntervalUnit values;
     Draft.repetitions := Form.repetitions values |}.

Section Dialog.
Variable uuidv4 : nat -> string.

(** [setMinutes(setHours(date, parseInt(hours)), parseInt(minutes))] for
    [[hours, minutes] = startTime.split(':')]; [None] is an invalid date. *)
Variable withStartTime : Z -> string -> option Z.

(** [date.toISOString()] of a valid date. *)
Variable toISOString : Z -> string.

(** The whole of [onSubmit]: the three checks, the due date, and the call of
    [addTask] ([onSubmit] above). [toISOString] of an invalid date throws. *)
Definition submit (values : Form.t) (subtasks : list string)
    (prevTasks : list Task.t) : Gen (list Task.t * Submitted) :=
  match Form.type values, Form.dueDate values with
  | scheduled, None =>
      gret (prevTasks,
            FieldError "dueDate" "Due date is required for scheduled tasks.")
  | _, _ =>
      if Form.isRecurring values
         && falsy_number (Form.recurringInterval values)
      then gret (prevTasks, FieldError "recurringInterval" "Required")
      else if Form.isRecurring values
              && negb (bool_decide
                         (is_Some (Form.recurringIntervalUnit values)))
      then gret (prevTasks, FieldError "recurringIntervalUnit" "Required")
      else if Form.isRecurring values
              && falsy_number (Form.repetitions values)
      then gret (prevTasks, FieldError "repetitions" "Required")
      else
        let finalDueDate : option (option string) :=
          match Form.type values, Form.dueDate values with
          | scheduled, Some date =>
              if truthy_str (Form.startTime values) then
                match withStartTime date
                        (default EmptyString (Form.startTime values)) with
                | Some date' => Some (Some (toISOString date'))
                | None => None
                end
              else Some (Some (toISOString date))
          | _, _ => Some None
          end in
        match finalDueDate with
        | None => gret (prevTasks, Thrown)
        | Some finalDueDate =>
            let* tasks :=
              onSubmit uuidv4 (draft_of_form values) finalDueDate subtasks
                       prevTasks in
            gret (tasks, Added)
        end
  end.

End Dialog.

(** *** A recurrence run *)

Section Run.
Variable uuidv4 : nat -> string.

(** Ticking, [count] times in a row, the checkbox of the newest task of the
    collection (its last task); [now] is the time of the clicks. *)
Fixpoint completeNewest (now : string) (count : nat) (tasks : list Task.t)
    : Gen (list Task.t) :=
  match count with
  | O => gret tasks
  | S count' =>
      match last tasks with
      | None => gret tasks
      | Some task =>
          let* tasks' := handleTaskComplete uuidv4 now task true tasks in
          completeNewest now count' tasks'
      end
  end.

End Run.

(** ** Consistency of a task (the invariants the specification names) *)

(** [completed = true] exactly when [completedAt] is set. *)
Definition completedAt_consistent (task : Task.t) : Prop :=
  Task.completed task = true <-> is_Some (Task.completedAt task).

(** A task with at least one subtask is completed exactly when all of its
    subtasks are. *)
Definition cascade_consistent (task : Task.t) : Prop :=
  Task.subtasks task <> [] ->
  (Task.completed task = true
   <-> Forall (fun sub => Subtask.completed sub = true) (Task.subtasks task)).

(** ** The states the engine reaches *)

(** The collection and the number of generator calls after any sequence of
    submissions, checkbox clicks on tasks shown and deletions, from the
    empty collection. *)
Inductive reachable (uuidv4 : nat -> string) : list Task.t * nat -> Prop :=
  | reach_empty (n : nat) : reachable uuidv4 ([], n)
  | reach_submit tasks n values finalDueDate subtasks :
      reachable uuidv4 (tasks, n) ->
      reachable uuidv4 (onSubmit uuidv4 values finalDueDate subtasks tasks n)
  | reach_task tasks n now task c :
      reachable uuidv4 (tasks, n) -> task ∈ tasks ->
      reachable uuidv4 (handleTaskComplete uuidv4 now task c tasks n)
  | reach_subtask tasks n now task subtaskId c :
      reachable uuidv4 (tasks, n) -> task ∈ tasks ->
      reachable uuidv4
        (handleSubtaskComplete uuidv4 now task subtaskId c tasks n)
  | reach_delete tasks n id :
      reachable uuidv4 (tasks, n) ->
      reachable uuidv4 (deleteTask id tasks, n).

(** ** The view as the specification words it *)

(** The tasks a status filter selects, in the words of the specification:
    every task for [all]; [completed = false] for [active];
    [completed = true] for [completed]; [completed = false], a due date
    present and earlier than now for [overdue]. *)
Definition selected_by (getTime : string -> option Z) (nowMs : Z)
    (statusFilter : StatusFilter) (task : Task.t) : Prop :=
  match statusFilter with
  | all => True
  | active => Task.completed task = false
  | completed => Task.completed task = true
  | overdue =>
      Task.completed task = false
      /\ exists (d : string) (ms : Z),
           Task.dueDate task = Some d /\ getTime d = Some ms /\ ms < nowMs
  end.

(** The sort key of a task: its completion flag and its due time. *)
Definition sort_key (getTime : string -> option Z) (task : Task.t)
    : bool * option Z :=
  (Task.completed task, dueTime getTime task).

(** The ids of the list all come from calls of the generator made before
    the [n]-th. *)
Definition generated_before (uuidv4 : nat -> string) (n : nat)
    (ids : list string) : Prop :=
  forall x, x ∈ ids -> exists k, (k < n)%nat /\ x = uuidv4 k.

(** ** Import as the specification words it *)

(** An element with at least an ["id"] and a ["title"] field. *)
Definition has_id_and_title (v : JSValue) : Prop :=
  exists fields, v = JObject fields /\ "id" ∈ fields.*1 /\ "title" ∈ fields.*1.

(** The document parses as JSON to an array in which every element has at
    least an ["id"] and a ["title"] field. *)
Definition valid_document (JSON_parse : string -> option JSValue)
    (text : string) : Prop :=
  exists l, JSON_parse text = Some (JArray l) /\ Forall has_id_and_title l.

(** ** Sample data *)

(** A generator that never repeats a value. *)
Definition sample_uuid (k : nat) : string := "uuid-" +:+ pretty k.

Definition no_updates : Partial.t := Partial.empty.

(** [{ completed: true }] *)
Definition set_completed : Partial.t :=
  {| Partial.id := None; Partial.title := None;
     Partial.description := None; Partial.type := None;
     Partial.dueDate := None; Partial.startTime := None;
     Partial.imageUrl := None;
     Partial.completed := Some true;
     Partial.completedAt := None;
     Partial.subtasks := None; Partial.isRecurring := None;
     Partial.recurringInterval := None;
     Partial.recurringIntervalUnit := None;
     Partial.repetitions := None |}.

(** A recurring daily task with one finished subtask. *)
Definition recurring (id : string) (completed : bool)
    (completedAt : option string) (repetitions : Z) : Task.t :=
  {| Task.id := id; Task.title := "Water the plants";
     Task.description := None; Task.type := daily;
     Task.dueDate := None; Task.startTime := None; Task.imageUrl := None;
     Task.completed := completed; Task.completedAt := completedAt;
     Task.subtasks := [Subtask.mk "s1" "Fill the can" true];
     Task.isRecurring := Some true;
     Task.recurringInterval := Some 1;
     Task.recurringIntervalUnit := Some days;
     Task.repetitions := Some repetitions |}.

(** A plain task, not recurring. *)
Definition simple (id : string) (completed : bool)
    (completedAt dueDate : option string) (subtasks : list Subtask.t)
    : Task.t :=
  {| Task.id := id; Task.title := "Write report";
     Task.description := Some "quarterly";
     Task.type := match dueDate with Some _ => scheduled | None => daily end;
     Task.dueDate := dueDate; Task.startTime := None; Task.imageUrl := None;
     Task.completed := completed; Task.completedAt := completedAt;
     Task.subtasks := subtasks;
     Task.isRecurring := None; Task.recurringInterval := None;
     Task.recurringIntervalUnit := None; Task.repetitions := None |}.

(** The dates of the examples, as [Date] reads them. *)
Definition sample_getTime (s : string) : option Z :=
  if String.eqb s "2024-04-30T09:00:00.000Z" then Some 1714467600000
  else if String.eqb s "2024-04-30T12:00:00.000Z" then Some 1714478400000
  else if String.eqb s "2024-05-02T09:00:00.000Z" then Some 1714640400000
  else if String.eqb s "1969-12-31T00:00:00.000Z" then Some (-86400000)
  else None.

(** 2024-05-01T10:00:00.000Z *)
Definition sample_now : Z := 1714557600000.

(** The three tasks of the filter example: [A] due yesterday, [B] due
    tomorrow, [C] completed. *)
Definition taskA : Task.t :=
  simple "A" false None (Some "2024-04-30T09:00:00.000Z") [].
Definition taskB : Task.t :=
  simple "B" false None (Some "2024-05-02T09:00:00.000Z") [].
Definition taskC : Task.t :=
  simple "C" true (Some "2024-04-30T12:00:00.000Z") None [].

Definition sample_draft : Draft.t :=
  {| Draft.title := "Water the plants"; Draft.description := None;
     Draft.type := daily; Draft.dueDate := None; Draft.startTime := None;
     Draft.imageUrl := None; Draft.subtasks := [];
     Draft.isRecurring := Some false; Draft.recurringInterval := None;
     Draft.recurringIntervalUnit := None; Draft.repetitions := None |}.

(** The first instant of the day in UTC, and the seven days that end on
    2024-05-01. *)
Definition sample_startOfDay (ms : Z) : Z := ms / 86400000 * 86400000.
Definition sample_last7Days : list Z :=
  map (fun k => 1714521600000 - k * 86400000) [6; 5; 4; 3; 2; 1; 0].

(** A task completed on 2024-04-30. *)
Definition taskD : Task.t :=
  simple "D" true (Some "2024-04-30T09:00:00.000Z") None [].

(** Form values of a recurring scheduled task. *)
Definition sample_form : Form.t :=
  {| Form.title := "Water the plants"; Form.description := None;
     Form.type := scheduled; Form.dueDate := Some 1714640400000;
     Form.startTime := None; Form.isRecurring := true;
     Form.recurringInterval := Some 2;
     Form.recurringIntervalUnit := Some days;
     Form.repetitions := Some 3; Form.imageUrl := None |}.

(** ** Properties of the model *)

(** *** Rounding *)

Lemma round_double_exact (z : Z) :
  - 2 ^ 53 <= z <= 2 ^ 53 -> round_double z = z.
Proof.
  intros Hz. unfold round_double.
  destruct (Z.abs z <? 2 ^ 53) eqn:Ha; [done|].
  apply Z.ltb_ge in Ha.
  assert (z = 2 ^ 53 \/ z = - 2 ^ 53) as [-> | ->] by lia; reflexivity.
Qed.

(** Rounding keeps the sign: the double nearest to an integer at or beyond
    [2 ^ 53] is at least [2 ^ 52] in absolute value. *)
Lemma round_double_pos (z : Z) : 0 < round_double z <-> 0 < z.
Proof.
  unfold round_double.
  destruct (Z.abs z <? 2 ^ 53) eqn:Ha; [done|].
  apply Z.ltb_ge in Ha.
  set (a := Z.abs z) in *. set (e := Z.log2 a - 52).
  assert (0 < a) as Hapos by lia.
  pose proof (Z.log2_spec a Hapos) as [Hlo Hhi].
  assert (53 <= Z.log2 a) as Hlog.
  { apply Z.log2_le_pow2; lia. }
  assert (0 < 2 ^ e) as Hpow by (apply Z.pow_pos_nonneg; lia).
  assert (2 ^ e <= a) as Hle.
  { etrans; [|exact Hlo]. apply Z.pow_le_mono_r; lia. }
  assert (1 <= a / 2 ^ e) as Hq.
  { apply Z.div_le_lower_bound; lia. }
  assert (0 < (if a mod 2 ^ e <? 2 ^ (e - 1) then a / 2 ^ e
               else if 2 ^ (e - 1) <? a mod 2 ^ e then a / 2 ^ e + 1
                    else if Z.even (a / 2 ^ e) then a / 2 ^ e
                         else a / 2 ^ e + 1) * 2 ^ e) as Hmag.
  { apply Z.mul_pos_pos; [|done]. repeat case_match; lia. }
  destruct (Z.sgn_spec z) as [[Hz ->]|[[Hz ->]|[Hz ->]]]; lia.
Qed.

Lemma js_sub_pos (x : Z) : (0 <? js_sub x 1) = (1 <? x).
Proof.
  unfold js_sub. destruct (1 <? x) eqn:Hx.
  - apply Z.ltb_lt in Hx. apply Z.ltb_lt, round_double_pos. lia.
  - apply Z.ltb_ge in Hx. apply Z.ltb_ge.
    destruct (Z.lt_ge_cases 0 (round_double (x - 1))) as [H|H]; [|exact H].
    apply (proj1 (round_double_pos _)) in H. lia.
Qed.

Lemma js_sub_exact (x : Z) : 1 <= x <= 2 ^ 53 -> js_sub x 1 = x - 1.
Proof. intros Hx. unfold js_sub. apply round_double_exact. lia. Qed.

(** The subtraction rounds where the integers are no longer doubles. *)
Example js_sub_rounds :
  js_sub 9007199254740994 1 = 9007199254740992
  /\ js_sub 9007199254740992 1 = 9007199254740991
  /\ js_sub 3 1 = 2.
Proof. vm_compute. repeat split. Qed.

(** *** [findIndex] *)

Lemma findIndex_None {A} (p : A -> bool) (l : list A) :
  Forall (fun x => p x = false) l -> findIndex p l = None.
Proof.
  induction 1 as [|x l Hx _ IH]; simpl; [done|].
  by rewrite Hx, IH.
Qed.

Lemma findIndex_first {A} (p : A -> bool) (l1 : list A) (x : A) (l2 : list A) :
  Forall (fun y => p y = false) l1 -> p x = true ->
  findIndex p (l1 ++ x :: l2) = Some (length l1).
Proof.
  induction 1 as [|y l1 Hy _ IH]; simpl; intros Hx.
  - by rewrite Hx.
  - by rewrite Hy, IH.
Qed.

(** Either no element satisfies [p] or the list splits at the first one that
    does. *)
Lemma first_split {A} (p : A -> bool) (l : list A) :
  Forall (fun x => p x = false) l
  \/ exists l1 x l2,
       l = l1 ++ x :: l2 /\ Forall (fun y => p y = false) l1 /\ p x = true.
Proof.
  induction l as [|x l IH]; [by left|].
  destruct (p x) eqn:Hx.
  - right. exists [], x, l. by repeat split.
  - destruct IH as [IH | (l1 & y & l2 & -> & Hl1 & Hy)].
    + left. by constructor.
    + right. exists (x :: l1), y, l2. repeat split; [|done]. by constructor.
Qed.

Lemma id_eqb_false (id : string) (l : list Task.t) :
  Forall (fun x => Task.id x <> id) l ->
  Forall (fun x => String.eqb (Task.id x) id = false) l.
Proof.
  intros H. eapply Forall_impl; [exact H|].
  intros x Hx. by apply String.eqb_neq.
Qed.

(** *** [updateTask], case by case *)

Section EngineFacts.
Variable uuidv4 : nat -> string.

Lemma updateTask_absent id updates prev n :
  Forall (fun x => Task.id x <> id) prev ->
  updateTask uuidv4 id updates prev n = (prev, n).
Proof.
  intros H. unfold updateTask.
  by rewrite (findIndex_None _ _ (id_eqb_false _ _ H)).
Qed.

(** The recurrence test of [updateTask], both conditions together. *)
Lemma updateTask_at id updates l1 t l2 n :
  Forall (fun x => Task.id x <> id) l1 -> Task.id t = id ->
  updateTask uuidv4 id updates (l1 ++ t :: l2) n =
    if truthy (Partial.completed updates)
       && truthy (Task.isRecurring t)
       && (0 <? nullish (Task.repetitions t) 0)
       && (0 <? js_sub (nullish (Task.repetitions t) 1) 1)
    then (l1 ++ spread t updates :: l2
             ++ [successor t (uuidv4 n)
                   (js_sub (nullish (Task.repetitions t) 1) 1)],
          S n)
    else (l1 ++ spread t updates :: l2, n).
Proof.
  intros Hl1 Ht. unfold updateTask.
  rewrite (findIndex_first _ l1 t l2 (id_eqb_false _ _ Hl1))
    by (by apply String.eqb_eq).
  rewrite list_lookup_middle by done.
  rewrite insert_app_r_alt by lia.
  rewrite Nat.sub_diag. simpl.
  destruct (truthy (Partial.completed updates)
            && truthy (Task.isRecurring t)
            && (0 <? nullish (Task.repetitions t) 0)); simpl; [|done].
  destruct (0 <? js_sub (nullish (Task.repetitions t) 1) 1); [|done].
  unfold gbind, uuid, gret. by rewrite <- app_assoc.
Qed.

Lemma deleteTask_absent id prev :
  Forall (fun x => Task.id x <> id) prev -> deleteTask id prev = prev.
Proof.
  unfold deleteTask. induction 1 as [|x l Hx _ IH]; [done|].
  rewrite filter_cons_True by done. by rewrite IH.
Qed.

End EngineFacts.

Lemma not_elem_ids (id : string) (prev : list Task.t) :
  id ∉ map Task.id prev -> Forall (fun x => Task.id x <> id) prev.
Proof.
  intros H. apply Forall_forall. intros x Hx Heq. apply H.
  rewrite <- Heq. apply list_elem_of_fmap. by exists x.
Qed.

Lemma lookup_middle_ne {A} (l1 l2 : list A) (x y : A) (i : nat) :
  i <> length l1 -> (l1 ++ y :: l2) !! i = (l1 ++ x :: l2) !! i.
Proof.
  intros Hi.
  assert (l1 ++ y :: l2 = <[length l1 := y]> (l1 ++ x :: l2)) as ->.
  { rewrite insert_app_r_alt by lia. by rewrite Nat.sub_diag. }
  by rewrite list_lookup_insert_ne.
Qed.

(** *** C7: unknown ids *)

(** C7. For every collection and every id that no task of the collection
    carries, [updateTask] returns the collection unchanged, whatever the
    changes are (and calls the id generator not at all), and [deleteTask]
    returns the collection unchanged. Neither reports an error: both are
    total functions returning a collection. *)
Theorem unknown_id_is_noop (uuidv4 : nat -> string) (id : string)
    (updates : Partial.t) (prev : list Task.t) (n : nat) :
  id ∉ map Task.id prev ->
  updateTask uuidv4 id updates prev n = (prev, n)
  /\ deleteTask id prev = prev.
Proof.
  intros H%not_elem_ids. split.
  - by apply updateTask_absent.
  - by apply deleteTask_absent.
Qed.

Lemma unknown_id_is_noop_witness :
  ("zz" ∉ map Task.id [recurring "a" false None 3])
  /\ updateTask sample_uuid "zz" set_completed
       [recurring "a" false None 3] 0%nat
     = ([recurring "a" false None 3], 0%nat)
  /\ deleteTask "zz" [recurring "a" false None 3]
     = [recurring "a" false None 3].
Proof.
  assert ("zz" ∉ map Task.id [recurring "a" false None 3]) as H.
  { simpl. intros Hin. apply list_elem_of_singleton in Hin. discriminate. }
  split; [exact H|].
  exact (unknown_id_is_noop sample_uuid "zz" set_completed _ 0%nat H).
Defined.

(** *** C10: the frame of [updateTask] *)

(** C10. For every collection, id and change set, the result of
    [updateTask] is [updated ++ extra] where [updated] has the length of the
    collection and holds, at its original position, every task whose id
    differs from the target id, and [extra], the tasks added at the very
    end, is empty or is the one successor of the first task with the target
    id (built from that task as it was before the update). *)
Theorem updateTask_frame (uuidv4 : nat -> string) (id : string)
    (updates : Partial.t) (prev : list Task.t) (n : nat) :
  exists updated extra : list Task.t,
    fst (updateTask uuidv4 id updates prev n) = updated ++ extra
    /\ length updated = length prev
    /\ (length extra <= 1)%nat
    /\ (forall (i : nat) (t : Task.t),
          prev !! i = Some t -> Task.id t <> id -> updated !! i = Some t)
    /\ (extra = []
        \/ exists (l1 : list Task.t) (originalTask : Task.t)
                  (l2 : list Task.t) (reps : Z),
             prev = l1 ++ originalTask :: l2
             /\ Forall (fun x => Task.id x <> id) l1
             /\ Task.id originalTask = id
             /\ Task.repetitions originalTask = Some reps
             /\ extra = [successor originalTask (uuidv4 n) (js_sub reps 1)]).
Proof.
  destruct (first_split (fun task => String.eqb (Task.id task) id) prev)
    as [Habs | (l1 & x & l2 & -> & Hl1 & Hx)].
  - exists prev, []. rewrite updateTask_absent.
    + simpl. rewrite app_nil_r. repeat split; auto.
    + eapply Forall_impl; [exact Habs|]. intros y. apply String.eqb_neq.
  - apply String.eqb_eq in Hx.
    assert (Forall (fun y => Task.id y <> id) l1) as Hl1'.
    { eapply Forall_impl; [exact Hl1|]. intros y. apply String.eqb_neq. }
    rewrite (updateTask_at uuidv4 id updates l1 x l2 n Hl1' Hx).
    assert (forall (i : nat) (t : Task.t),
               (l1 ++ x :: l2) !! i = Some t -> Task.id t <> id ->
               (l1 ++ spread x updates :: l2) !! i = Some t) as Hframe.
    { intros i t Hi Hne. destruct (decide (i = length l1)) as [->|Hil].
      - rewrite list_lookup_middle in Hi by done. congruence.
      - by rewrite (lookup_middle_ne l1 l2 x). }
    assert (length (l1 ++ spread x updates :: l2) = length (l1 ++ x :: l2))
      as Hlen by (by rewrite !length_app).
    destruct (truthy (Partial.completed updates)
              && truthy (Task.isRecurring x)
              && (0 <? nullish (Task.repetitions x) 0)
              && (0 <? js_sub (nullish (Task.repetitions x) 1) 1)) eqn:Hc;
      simpl.
    + exists (l1 ++ spread x updates :: l2),
             [successor x (uuidv4 n) (js_sub (nullish (Task.repetitions x) 1) 1)].
      split; [by rewrite <- app_assoc|].
      split; [done|]. split; [simpl; lia|]. split; [done|].
      right.
      apply andb_true_iff in Hc as [Hc _].
      apply andb_true_iff in Hc as [_ H3].
      destruct (Task.repetitions x) as [reps|] eqn:Hreps; [|done].
      by exists l1, x, l2, reps.
    + exists (l1 ++ spread x updates :: l2), [].
      rewrite app_nil_r. repeat split; [done|simpl; lia|done|by left].
Qed.

(** *** C1: completing a recurring task *)

Lemma spread_set_completed (t : Task.t) :
  Task.completed t = true -> spread t set_completed = t.
Proof. destruct t; simpl; intros ->; reflexivity. Qed.

Lemma updateTask_spawn (uuidv4 : nat -> string) (updates : Partial.t)
    (l1 : list Task.t) (t : Task.t) (l2 : list Task.t) (reps : Z) (n : nat) :
  Forall (fun x => Task.id x <> Task.id t) l1 ->
  Task.isRecurring t = Some true ->
  Task.repetitions t = Some reps ->
  1 < reps ->
  Partial.completed updates = Some true ->
  updateTask uuidv4 (Task.id t) updates (l1 ++ t :: l2) n
    = (l1 ++ spread t updates :: l2
          ++ [successor t (uuidv4 n) (js_sub reps 1)],
       S n).
Proof.
  intros Hl1 Hrec Hreps Hgt Hupd.
  rewrite (updateTask_at uuidv4 (Task.id t) updates l1 t l2 n Hl1 eq_refl).
  rewrite Hupd, Hrec, Hreps. unfold truthy, nullish. simpl.
  rewrite js_sub_pos.
  replace (0 <? reps) with true by (symmetry; apply Z.ltb_lt; lia).
  replace (1 <? reps) with true by (symmetry; apply Z.ltb_lt; lia).
  reflexivity.
Qed.

(** C1, as the code has it. Let [t] be the first task of the collection with
    its id, recurring with [reps > 1] repetitions left, and let the changes
    set [completed = true]. Then [updateTask] replaces [t] in place by the
    merge of the changes onto [t] and appends exactly one successor at the
    end, using one call of the id generator. The task's own [repetitions]
    field is not decremented: it is still [reps] unless the changes set that
    field. The successor has a fresh id (the value of a new call of the
    generator, which neither a task nor a subtask of the collection carries
    when the generator never repeats a value and the ids of the collection
    came from earlier calls), [repetitions = reps - 1] as the subtraction of
    doubles gives it (exactly [reps - 1] up to [2 ^ 53]),
    [completed = false], no [completedAt], every subtask reset to not
    completed (ids and titles of the subtasks kept), and every other field
    copied from [t] as it was before the update. *)
Theorem completing_recurring_spawns (uuidv4 : nat -> string)
    (updates : Partial.t) (l1 : list Task.t) (t : Task.t) (l2 : list Task.t)
    (reps : Z) (n : nat) :
  Forall (fun x => Task.id x <> Task.id t) l1 ->
  Task.isRecurring t = Some true ->
  Task.repetitions t = Some reps ->
  1 < reps ->
  Partial.completed updates = Some true ->
  let succ := successor t (uuidv4 n) (js_sub reps 1) in
  updateTask uuidv4 (Task.id t) updates (l1 ++ t :: l2) n
    = (l1 ++ spread t updates :: l2 ++ [succ], S n)
  /\ (Partial.repetitions updates = None ->
      Task.repetitions (spread t updates) = Some reps)
  /\ Task.id succ = uuidv4 n
  /\ ((forall i j : nat, uuidv4 i = uuidv4 j -> i = j) ->
      generated_before uuidv4 n (all_ids (l1 ++ t :: l2)) ->
      Task.id succ ∉ all_ids (l1 ++ t :: l2))
  /\ Task.repetitions succ = Some (js_sub reps 1)
  /\ (reps <= 2 ^ 53 -> Task.repetitions succ = Some (reps - 1))
  /\ Task.completed succ = false
  /\ Task.completedAt succ = None
  /\ Forall (fun sub => Subtask.completed sub = false) (Task.subtasks succ)
  /\ map Subtask.id (Task.subtasks succ) = map Subtask.id (Task.subtasks t)
  /\ map Subtask.title (Task.subtasks succ)
     = map Subtask.title (Task.subtasks t)
  /\ Task.title succ = Task.title t
  /\ Task.description succ = Task.description t
  /\ Task.type succ = Task.type t
  /\ Task.dueDate succ = Task.dueDate t
  /\ Task.startTime succ = Task.startTime t
  /\ Task.imageUrl succ = Task.imageUrl t
  /\ Task.isRecurring succ = Task.isRecurring t
  /\ Task.recurringInterval succ = Task.recurringInterval t
  /\ Task.recurringIntervalUnit succ = Task.recurringIntervalUnit t.
Proof.
  intros Hl1 Hrec Hreps Hgt Hupd succ.
  split; [by apply updateTask_spawn|].
  split; [intros Hnone; simpl; by rewrite Hnone|].
  split; [reflexivity|].
  split.
  { intros Hinj Hgen Hin. destruct (Hgen _ Hin) as (k & Hk & Heq).
    simpl in Heq. apply Hinj in Heq. lia. }
  split; [reflexivity|].
  split.
  { intros Hbound. subst succ. simpl. by rewrite js_sub_exact by lia. }
  subst succ. simpl. repeat split.
  - apply Forall_forall. intros sub [s [-> _]]%list_elem_of_fmap. done.
  - rewrite <- list_fmap_compose. by apply list_fmap_ext.
  - rewrite <- list_fmap_compose. by apply list_fmap_ext.
Qed.

Lemma completing_recurring_spawns_witness :
  let t := recurring "a" false None 3 in
  updateTask sample_uuid "a" set_completed [simple "b" false None None []; t] 0%nat
  = ([simple "b" false None None []; spread t set_completed;
      successor t (sample_uuid 0) 2], 1%nat).
Proof.
  refine (proj1 (completing_recurring_spawns sample_uuid set_completed
                   [simple "b" false None None []] (recurring "a" false None 3)
                   [] 3 0%nat _ eq_refl eq_refl _ eq_refl)).
  - constructor; [discriminate|constructor].
  - lia.
Defined.

(** The claim C1 says that the task's own [repetitions] field is decremented
    to [n - 1]; it is not: after completing a task with three repetitions
    left, the task still records three. *)
Lemma completing_keeps_own_repetitions :
  let t := recurring "a" false None 3 in
  exists t' : Task.t,
    fst (updateTask sample_uuid "a" set_completed [t] 0%nat) !! 0%nat = Some t'
    /\ Task.id t' = "a"
    /\ Task.completed t' = true
    /\ Task.repetitions t' = Some 3
    /\ Task.repetitions t' <> Some (3 - 1).
Proof.
  simpl. eexists. split; [reflexivity|]. simpl. repeat split. discriminate.
Qed.

(** Completing a task with one repetition left appends no successor. *)
Example completing_last_repetition :
  updateTask sample_uuid "a" set_completed [recurring "a" false None 1] 0%nat
  = ([spread (recurring "a" false None 1) set_completed], 0%nat).
Proof. reflexivity. Qed.

(** *** C2: completing a task that is already completed *)

(** C2, as the code has it. Let [t] be the first task of the collection with
    its id, already completed, recurring with [reps > 1] repetitions left.
    [updateTask] with [{ completed: true }] appends a successor all the
    same: the test looks at the value the update sets, not at the value the
    task had. Two such calls in a row append two successors. *)
Theorem recompleting_spawns_again (uuidv4 : nat -> string)
    (l1 : list Task.t) (t : Task.t) (l2 : list Task.t) (reps : Z) (n : nat) :
  Forall (fun x => Task.id x <> Task.id t) l1 ->
  Task.completed t = true ->
  Task.isRecurring t = Some true ->
  Task.repetitions t = Some reps ->
  1 < reps ->
  let once := updateTask uuidv4 (Task.id t) set_completed (l1 ++ t :: l2) n in
  let twice :=
    updateTask uuidv4 (Task.id t) set_completed (fst once) (snd once) in
  once = (l1 ++ t :: l2 ++ [successor t (uuidv4 n) (js_sub reps 1)], S n)
  /\ twice = (l1 ++ t :: l2 ++ [successor t (uuidv4 n) (js_sub reps 1);
                                successor t (uuidv4 (S n)) (js_sub reps 1)],
              S (S n)).
Proof.
  intros Hl1 Hdone Hrec Hreps Hgt once twice.
  assert (once
          = (l1 ++ t :: l2 ++ [successor t (uuidv4 n) (js_sub reps 1)], S n))
    as Honce.
  { subst once.
    rewrite (updateTask_spawn uuidv4 set_completed l1 t l2 reps n
               Hl1 Hrec Hreps Hgt eq_refl).
    by rewrite spread_set_completed. }
  split; [exact Honce|].
  subst twice. rewrite Honce. simpl.
  rewrite (updateTask_spawn uuidv4 set_completed l1 t
             (l2 ++ [successor t (uuidv4 n) (js_sub reps 1)]) reps (S n)
             Hl1 Hrec Hreps Hgt eq_refl).
  rewrite spread_set_completed by done.
  by rewrite <- app_assoc.
Qed.

Lemma recompleting_spawns_again_witness :
  let t := recurring "a" true (Some "2024-05-01T10:00:00.000Z") 3 in
  let once := updateTask sample_uuid "a" set_completed [t] 0%nat in
  let twice := updateTask sample_uuid "a" set_completed (fst once) (snd once) in
  once = ([t; successor t (sample_uuid 0) 2], 1%nat)
  /\ twice = ([t; successor t (sample_uuid 0) 2; successor t (sample_uuid 1) 2],
              2%nat).
Proof.
  refine (recompleting_spawns_again sample_uuid []
            (recurring "a" true (Some "2024-05-01T10:00:00.000Z") 3) [] 3 0%nat
            _ eq_refl eq_refl eq_refl _).
  - constructor.
  - lia.
Defined.

(** The claim C2 says that [{ completed: true }] on an already completed
    recurring task spawns nothing, and that two such calls spawn at most one
    successor. On a completed task with three repetitions left the first
    call appends a successor and the second call appends another one. *)
Lemma recompleting_appends_two_successors :
  let t := recurring "a" true (Some "2024-05-01T10:00:00.000Z") 3 in
  let once := updateTask sample_uuid "a" set_completed [t] 0%nat in
  let twice := updateTask sample_uuid "a" set_completed (fst once) (snd once) in
  Task.completed t = true
  /\ length (fst once) = 2%nat
  /\ length (fst twice) = 3%nat
  /\ map Task.id (fst twice) = ["a"; "uuid-0"; "uuid-1"]
  /\ map Task.completed (fst twice) = [true; false; false].
Proof. vm_compute. repeat split. Qed.

(** The same through the checkboxes: a recurring task with an open subtask
    is completed by its own checkbox (first successor), then its subtask is
    checked, which sends [completed: true] again (second successor). *)
Example checkboxes_spawn_twice :
  let t :=
    {| Task.id := "a"; Task.title := "Water the plants";
       Task.description := None; Task.type := daily;
       Task.dueDate := None; Task.startTime := None; Task.imageUrl := None;
       Task.completed := false; Task.completedAt := None;
       Task.subtasks := [Subtask.mk "s1" "Fill the can" false];
       Task.isRecurring := Some true; Task.recurringInterval := Some 1;
       Task.recurringIntervalUnit := Some days;
       Task.repetitions := Some 3 |} in
  let now := "2024-05-01T10:00:00.000Z" in
  let once := handleTaskComplete sample_uuid now t true [t] 0%nat in
  let twice :=
    handleSubtaskComplete sample_uuid now t "s1" true (fst once) (snd once) in
  map Task.id (fst once) = ["a"; "uuid-0"]
  /\ map Task.id (fst twice) = ["a"; "uuid-0"; "uuid-1"]
  /\ map Task.repetitions (fst twice) = [Some 3; Some 2; Some 2].
Proof. vm_compute. repeat split. Qed.

(** *** C3: what the completion handlers keep consistent *)

Lemma forallb_Forall_true {A} (f : A -> bool) (l : list A) :
  forallb f l = true <-> Forall (fun x => f x = true) l.
Proof.
  induction l as [|x l IH]; simpl.
  - split; [constructor|done].
  - rewrite andb_true_iff, IH, Forall_cons. done.
Qed.

(** A property that every merged task and every successor has is kept by
    [updateTask]. *)
Lemma updateTask_Forall (P : Task.t -> Prop) (uuidv4 : nat -> string)
    (id : string) (updates : Partial.t) (prev : list Task.t) (n : nat) :
  Forall P prev ->
  (forall t, P (spread t updates)) ->
  (forall t u r, P (successor t u r)) ->
  Forall P (fst (updateTask uuidv4 id updates prev n)).
Proof.
  intros Hprev Hspread Hsucc.
  destruct (first_split (fun task => String.eqb (Task.id task) id) prev)
    as [Habs | (l1 & x & l2 & -> & Hl1 & Hx)].
  - rewrite updateTask_absent; [done|].
    eapply Forall_impl; [exact Habs|]. intros y. apply String.eqb_neq.
  - apply String.eqb_eq in Hx.
    assert (Forall (fun y => Task.id y <> id) l1) as Hl1'.
    { eapply Forall_impl; [exact Hl1|]. intros y. apply String.eqb_neq. }
    rewrite (updateTask_at uuidv4 id updates l1 x l2 n Hl1' Hx).
    apply Forall_app in Hprev as [H1 H2].
    apply Forall_cons in H2 as [_ H2].
    match goal with |- context [if ?c then _ else _] => destruct c end; simpl.
    + apply Forall_app. split; [done|]. constructor; [done|].
      apply Forall_app. split; [done|]. by constructor.
    + apply Forall_app. split; [done|]. by constructor.
Qed.

Lemma successor_completedAt_consistent t u r :
  completedAt_consistent (successor t u r).
Proof.
  unfold completedAt_consistent. simpl. split; [done|].
  intros [x Hx]. discriminate.
Qed.

Lemma successor_cascade_consistent t u r :
  cascade_consistent (successor t u r).
Proof.
  unfold cascade_consistent. simpl. intros Hne. split; [done|].
  destruct (Task.subtasks t) as [|sub subs]; [done|].
  simpl. intros H. apply Forall_cons in H as [H _]. done.
Qed.

(** C3, as the code has it. After an update issued by the task checkbox
    ([handleTaskComplete]) or a subtask checkbox ([handleSubtaskComplete]),
    every task has [completed = true] exactly when [completedAt] is set,
    provided that held before. After an update issued by a subtask
    checkbox, every task with at least one subtask is completed exactly
    when all its subtasks are, provided that held before (nothing else is
    asked of the collection). (The task checkbox sets [completed] without
    looking at the subtasks; nothing is stated for it.) *)
Theorem handlers_keep_consistency (uuidv4 : nat -> string) (now : string)
    (task : Task.t) (prev : list Task.t) (n : nat) :
  (Forall completedAt_consistent prev ->
   (forall c : bool,
      Forall completedAt_consistent
             (fst (handleTaskComplete uuidv4 now task c prev n)))
   /\ (forall (subtaskId : string) (c : bool),
         Forall completedAt_consistent
                (fst (handleSubtaskComplete uuidv4 now task subtaskId c
                        prev n))))
  /\ (Forall cascade_consistent prev ->
      forall (subtaskId : string) (c : bool),
        Forall cascade_consistent
               (fst (handleSubtaskComplete uuidv4 now task subtaskId c
                       prev n))).
Proof.
  split.
  - intros Hprev. split.
    + intros c. apply updateTask_Forall; [done| |].
      * intros t. unfold completedAt_consistent. simpl.
        destruct c; split; try done; intros [x Hx]; discriminate.
      * apply successor_completedAt_consistent.
    + intros subtaskId c. apply updateTask_Forall; [done| |].
      * intros t. unfold completedAt_consistent. simpl.
        destruct (forallb _ _); split; try done; intros [x Hx]; discriminate.
      * apply successor_completedAt_consistent.
  - intros Hcas subtaskId c. apply updateTask_Forall; [done| |].
    + intros t. unfold cascade_consistent. simpl. intros _.
      apply forallb_Forall_true.
    + apply successor_cascade_consistent.
Qed.

(** A collection that is cascade consistent and not [completedAt]
    consistent (its task is completed with no time recorded): the subtask
    checkbox keeps the first property, the second not being asked for. *)
Lemma handlers_keep_consistency_witness :
  let t :=
    simple "a" true None None [Subtask.mk "s1" "Fill the can" true] in
  let t' := simple "b" false None None [Subtask.mk "s2" "Pack" false] in
  ~ completedAt_consistent t
  /\ Forall cascade_consistent
            (fst (handleSubtaskComplete sample_uuid "2024-05-01T10:00:00.000Z"
                    t' "s2" true [t; t'] 0%nat))
  /\ Forall completedAt_consistent
            (fst (handleTaskComplete sample_uuid "2024-05-01T10:00:00.000Z"
                    t' true [t'] 0%nat)).
Proof.
  set (t := simple "a" true None None [Subtask.mk "s1" "Fill the can" true]).
  set (t' := simple "b" false None None [Subtask.mk "s2" "Pack" false]).
  assert (~ completedAt_consistent t) as Hnot.
  { intros [H _]. destruct (H eq_refl) as [x Hx]. discriminate. }
  assert (Forall cascade_consistent [t; t']) as H2.
  { repeat apply Forall_cons_2; [| |constructor].
    - intros _. split; [|done]. intros _. by repeat constructor.
    - intros _. split; [done|]. simpl.
      intros Hall. apply Forall_cons in Hall as [Hall _]. done. }
  assert (Forall completedAt_consistent [t']) as H1.
  { apply Forall_singleton. split; [done|]. intros [x Hx]. discriminate. }
  split; [exact Hnot|]. split.
  - exact (proj2 (handlers_keep_consistency sample_uuid
                    "2024-05-01T10:00:00.000Z" t' [t; t'] 0%nat) H2 "s2" true).
  - exact (proj1 (proj1 (handlers_keep_consistency sample_uuid
                           "2024-05-01T10:00:00.000Z" t' [t'] 0%nat) H1)
             true).
Defined.

(** The claim C3 says that the cascade property holds after an update issued
    by the task checkbox too. A task with one open subtask, consistent in
    both senses, becomes completed with its subtask still open. *)
Lemma task_checkbox_breaks_cascade :
  let t := simple "a" false None None [Subtask.mk "s1" "Fill the can" false] in
  let after :=
    fst (handleTaskComplete sample_uuid "2024-05-01T10:00:00.000Z" t true [t]
           0%nat) in
  Forall completedAt_consistent [t]
  /\ Forall cascade_consistent [t]
  /\ map Task.completed after = [true]
  /\ map (fun x => map Subtask.completed (Task.subtasks x)) after = [[false]]
  /\ ~ Forall cascade_consistent after.
Proof.
  simpl. split; [|split; [|split; [|split]]].
  - apply Forall_singleton. split; [done|]. intros [x Hx]. discriminate.
  - apply Forall_singleton. intros _. split; [done|]. simpl.
    intros Hall. apply Forall_cons in Hall as [Hall _]. done.
  - reflexivity.
  - reflexivity.
  - intros H. apply Forall_cons in H as [H _].
    unfold cascade_consistent in H. simpl in H.
    assert (Forall (fun sub => Subtask.completed sub = true)
                   [Subtask.mk "s1" "Fill the can" false]) as Hall.
    { apply H; done. }
    apply Forall_cons in Hall as [Hall _]. done.
Qed.

(** X16. Every collection the engine builds from the empty one has
    [completed = true] exactly when [completedAt] is set, for each of its
    tasks. *)
Lemma reachable_completedAt_consistent (uuidv4 : nat -> string)
    (state : list Task.t * nat) :
  reachable uuidv4 state -> Forall completedAt_consistent (fst state).
Proof.
  induction 1 as [n|tasks n values due titles _ IH|tasks n now task c _ IH _
                   |tasks n now task sid c _ IH _|tasks n id _ IH]; simpl in *.
  - constructor.
  - unfold onSubmit, gbind. destruct (finalSubtasks uuidv4 titles n) as [subs n'].
    simpl. apply Forall_app. split; [done|].
    apply Forall_singleton. split; [done|]. intros [x Hx]. discriminate.
  - apply updateTask_Forall; [done| |apply successor_completedAt_consistent].
    intros t. unfold completedAt_consistent. simpl.
    destruct c; split; try done; intros [x Hx]; discriminate.
  - apply updateTask_Forall; [done| |apply successor_completedAt_consistent].
    intros t. unfold completedAt_consistent. simpl.
    destruct (forallb _ _); split; try done; intros [x Hx]; discriminate.
  - unfold deleteTask. apply Forall_forall.
    intros t [_ Ht]%list_elem_of_filter.
    by apply (proj1 (Forall_forall _ _) IH).
Qed.

(** *** The sort: permutation, stability, order *)

Section SortFacts.
Context {A : Type} (comparefn : A -> A -> option Z).

Lemma sort_insert_Permutation (x : A) (l : list A) :
  sort_insert comparefn x l ≡ₚ x :: l.
Proof.
  induction l as [|y l IH]; simpl; [done|].
  destruct (SortCompare comparefn x y <=? 0); [done|].
  rewrite IH. apply Permutation_swap.
Qed.

Lemma sort_Permutation (l : list A) : sort comparefn l ≡ₚ l.
Proof.
  induction l as [|x l IH]; simpl; [done|].
  by rewrite sort_insert_Permutation, IH.
Qed.

(** Stability: elements that share a key compare as equal, and the sort
    keeps the elements of each key in their original order. *)
Section Stable.
Context {K : Type} `{EqDecision K} (key : A -> K).
Hypothesis same_key_le :
  forall x y, key x = key y -> SortCompare comparefn x y <= 0.

Lemma sort_insert_stable (k : K) (x : A) (l : list A) :
  filter (fun y => key y = k) (sort_insert comparefn x l)
  = filter (fun y => key y = k) (x :: l).
Proof.
  induction l as [|y l IH]; simpl; [done|].
  destruct (SortCompare comparefn x y <=? 0) eqn:Hc; [done|].
  apply Z.leb_gt in Hc.
  assert (key x <> key y) as Hne.
  { intros Heq. specialize (same_key_le x y Heq). lia. }
  rewrite (filter_cons _ y), IH, !filter_cons.
  destruct (decide (key x = k)) as [Hx|Hx];
    destruct (decide (key y = k)) as [Hy|Hy]; try done.
  congruence.
Qed.

Lemma sort_stable (k : K) (l : list A) :
  filter (fun y => key y = k) (sort comparefn l)
  = filter (fun y => key y = k) l.
Proof.
  induction l as [|x l IH]; simpl; [done|].
  by rewrite sort_insert_stable, !filter_cons, IH.
Qed.
End Stable.

(** Order: where the comparator is a total preorder on the elements of the
    list, the result is sorted by it. *)
Section Ordered.
Variable V : A -> Prop.
Local Abbreviation le := (fun x y : A => SortCompare comparefn x y <= 0).
Hypothesis le_total : forall x y, V x -> V y -> ~ le x y -> le y x.
Hypothesis le_trans :
  forall x y z, V x -> V y -> V z -> le x y -> le y z -> le x z.

Lemma sort_insert_sorted (x : A) (l : list A) :
  V x -> Forall V l -> StronglySorted le l ->
  StronglySorted le (sort_insert comparefn x l).
Proof.
  intros Hx HV Hs. induction Hs as [|y l Hs IH Hy]; simpl.
  - by repeat constructor.
  - apply Forall_cons in HV as [HVy HV].
    destruct (SortCompare comparefn x y <=? 0) eqn:Hc.
    + apply Z.leb_le in Hc. constructor; [by constructor|].
      constructor; [exact Hc|].
      apply Forall_forall. intros z Hz.
      apply (le_trans x y z); try done.
      * by apply (proj1 (Forall_forall _ _) HV).
      * by apply (proj1 (Forall_forall _ _) Hy).
    + apply Z.leb_gt in Hc. constructor; [by apply IH|].
      rewrite sort_insert_Permutation. constructor; [|done].
      apply le_total; [done..|]. simpl. lia.
Qed.

Lemma sort_sorted (l : list A) :
  Forall V l -> StronglySorted le (sort comparefn l).
Proof.
  induction 1 as [|x l Hx HV IH]; simpl; [constructor|].
  apply sort_insert_sorted; [done| |done].
  by rewrite sort_Permutation.
Qed.
End Ordered.

End SortFacts.

Lemma StronglySorted_lookup {A} (R : A -> A -> Prop) (l : list A)
    (i j : nat) (a b : A) :
  StronglySorted R l -> (i < j)%nat ->
  l !! i = Some a -> l !! j = Some b -> R a b.
Proof.
  intros Hs. revert i j. induction Hs as [|x l Hs IH Hx]; intros i j Hij Hi Hj.
  - done.
  - destruct j as [|j]; [lia|]. simpl in Hj. destruct i as [|i]; simpl in Hi.
    + injection Hi as ->. apply (proj1 (Forall_forall _ _) Hx).
      by eapply list_elem_of_lookup_2.
    + apply (IH i j); [lia|done..].
Qed.

(** A sorted list is determined by the order of the elements of each key:
    two lists sorted by the same preorder that agree, key by key, on the
    order of their elements are equal. *)
Section Determined.
Context {A K : Type} `{EqDecision K} (key : A -> K).
Variable le : A -> A -> Prop.
Variable V : A -> Prop.
Hypothesis le_antisym :
  forall x y, V x -> V y -> le x y -> le y x -> key x = key y.

Lemma sorted_stable_unique (l1 l2 : list A) :
  Forall V l1 -> Forall V l2 ->
  StronglySorted le l1 -> StronglySorted le l2 ->
  (forall k, filter (fun x => key x = k) l1 = filter (fun x => key x = k) l2) ->
  l1 = l2.
Proof.
  revert l2. induction l1 as [|x l1 IH]; intros l2 HV1 HV2 Hs1 Hs2 Hf.
  - destruct l2 as [|y l2]; [done|]. specialize (Hf (key y)).
    rewrite filter_cons_True in Hf by done. discriminate.
  - destruct l2 as [|y l2].
    { specialize (Hf (key x)). rewrite filter_cons_True in Hf by done.
      discriminate. }
    apply Forall_cons in HV1 as [HVx HV1]. apply Forall_cons in HV2 as [HVy HV2].
    apply StronglySorted_inv in Hs1 as [Hs1 Hx].
    apply StronglySorted_inv in Hs2 as [Hs2 Hy].
    assert (key y = key x) as Hk.
    { destruct (decide (key y = key x)) as [|Hne]; [done|]. exfalso.
      assert (x ∈ l2) as Hx2.
      { assert (x ∈ filter (fun z => key z = key x) (y :: l2)) as Hin.
        { rewrite <- Hf. rewrite filter_cons_True by done. by left. }
        apply list_elem_of_filter in Hin as [_ Hin].
        apply elem_of_cons in Hin as [->|Hin]; [done|exact Hin]. }
      assert (y ∈ l1) as Hy1.
      { assert (y ∈ filter (fun z => key z = key y) (x :: l1)) as Hin.
        { rewrite Hf. rewrite filter_cons_True by done. by left. }
        apply list_elem_of_filter in Hin as [_ Hin].
        apply elem_of_cons in Hin as [->|Hin]; [done|exact Hin]. }
      apply Hne. apply le_antisym; [done..| |].
      - by apply (proj1 (Forall_forall _ _) Hy).
      - by apply (proj1 (Forall_forall _ _) Hx). }
    pose proof (Hf (key x)) as H0.
    rewrite (filter_cons_True _ x), (filter_cons_True _ y) in H0 by done.
    injection H0 as -> Htl. f_equal.
    apply IH; [done..|]. intros k.
    destruct (decide (key y = k)) as [<-|Hne]; [done|].
    specialize (Hf k). by rewrite !filter_cons_False in Hf.
Qed.
End Determined.

(** *** C4: the status filter *)

Section ViewFacts.
Variable getTime : string -> option Z.
Variable nowMs : Z.

Lemma statusPredicate_selected_by (statusFilter : StatusFilter)
    (task : Task.t) :
  getTime "" = None ->
  statusPredicate getTime nowMs statusFilter task = true
  <-> selected_by getTime nowMs statusFilter task.
Proof.
  intros Hempty. destruct statusFilter; simpl.
  - done.
  - apply negb_true_iff.
  - rewrite andb_true_iff, negb_true_iff. split.
    + intros [Hc Hd]. split; [done|].
      destruct (Task.dueDate task) as [d|]; [|done].
      apply andb_true_iff in Hd as [_ Hpast]. unfold isPast in Hpast.
      destruct (getTime d) as [ms|] eqn:Hms; [|done].
      exists d, ms. repeat split; [done|]. by apply Z.ltb_lt.
    + intros [Hc (d & ms & -> & Hms & Hlt)]. split; [done|].
      apply andb_true_iff. split.
      * apply negb_true_iff, String.eqb_neq. intros ->. congruence.
      * unfold isPast. rewrite Hms. by apply Z.ltb_lt.
  - done.
Qed.

Lemma filteredTasks_Permutation (tasks : list Task.t)
    (statusFilter : StatusFilter) :
  filteredTasks getTime nowMs tasks statusFilter
  ≡ₚ filter (fun task => statusPredicate getTime nowMs statusFilter task)
            tasks.
Proof. apply sort_Permutation. Qed.

End ViewFacts.

(** C4. For every collection and every status filter, the tasks the view
    shows are exactly the tasks of the collection that the filter selects in
    the words of the specification ([selected_by]): the callback of
    [tasks.filter] holds of a task exactly when [selected_by] does, and the
    view is a rearrangement of the tasks that pass it. An empty string is not
    a date ([new Date("")] is invalid). *)
Theorem filter_selects_exactly (getTime : string -> option Z) (nowMs : Z)
    (tasks : list Task.t) (statusFilter : StatusFilter) :
  getTime "" = None ->
  (forall task : Task.t,
     statusPredicate getTime nowMs statusFilter task = true
     <-> selected_by getTime nowMs statusFilter task)
  /\ (forall task : Task.t,
        task ∈ filteredTasks getTime nowMs tasks statusFilter
        <-> task ∈ tasks /\ selected_by getTime nowMs statusFilter task)
  /\ filteredTasks getTime nowMs tasks statusFilter
     ≡ₚ filter (fun task => statusPredicate getTime nowMs statusFilter task)
               tasks.
Proof.
  intros Hempty. split; [|split].
  - intros task. by apply statusPredicate_selected_by.
  - intros task. rewrite filteredTasks_Permutation, list_elem_of_filter.
    rewrite <- (statusPredicate_selected_by getTime nowMs statusFilter task
                  Hempty).
    rewrite Is_true_true. tauto.
  - apply filteredTasks_Permutation.
Qed.

Lemma filter_selects_exactly_witness :
  taskA ∈ filteredTasks sample_getTime sample_now [taskA; taskB; taskC] overdue
  <-> taskA ∈ [taskA; taskB; taskC]
      /\ selected_by sample_getTime sample_now overdue taskA.
Proof.
  exact (proj1 (proj2 (filter_selects_exactly sample_getTime sample_now
                         [taskA; taskB; taskC] overdue eq_refl)) taskA).
Defined.

(** The filter example of the specification, as the page shows it: the
    tasks each view selects, in the order of the sort. *)
Example filter_example :
  filteredTasks sample_getTime sample_now [taskA; taskB; taskC] overdue
    = [taskA]
  /\ filteredTasks sample_getTime sample_now [taskA; taskB; taskC] active
     = [taskB; taskA]
  /\ filteredTasks sample_getTime sample_now [taskA; taskB; taskC] completed
     = [taskC]
  /\ filteredTasks sample_getTime sample_now [taskA; taskB; taskC] all
     = [taskB; taskA; taskC].
Proof. vm_compute. repeat split. Qed.

(** *** C5: the sort order *)

Section CompareFacts.
Variable getTime : string -> option Z.

Lemma SortCompare_valid (a b : Task.t) (ta tb : Z) :
  dueTime getTime a = Some ta -> dueTime getTime b = Some tb ->
  SortCompare (compareTasks getTime) a b
  = if rank a - rank b =? 0 then tb - ta else rank a - rank b.
Proof.
  intros Ha Hb. unfold SortCompare, compareTasks. rewrite Ha, Hb.
  by destruct (rank a - rank b =? 0).
Qed.

Lemma same_key_le (a b : Task.t) :
  sort_key getTime a = sort_key getTime b ->
  SortCompare (compareTasks getTime) a b <= 0.
Proof.
  unfold sort_key. intros [= Hc Ht].
  unfold SortCompare, compareTasks, rank. rewrite Hc, Ht, Z.sub_diag. simpl.
  destruct (dueTime getTime b); simpl; lia.
Qed.

Lemma compare_total (a b : Task.t) :
  is_Some (dueTime getTime a) -> is_Some (dueTime getTime b) ->
  ~ SortCompare (compareTasks getTime) a b <= 0 ->
  SortCompare (compareTasks getTime) b a <= 0.
Proof.
  intros [ta Ha] [tb Hb].
  rewrite (SortCompare_valid a b ta tb Ha Hb),
          (SortCompare_valid b a tb ta Hb Ha).
  unfold rank. destruct (Task.completed a), (Task.completed b); simpl; lia.
Qed.

Lemma compare_trans (a b c : Task.t) :
  is_Some (dueTime getTime a) -> is_Some (dueTime getTime b) ->
  is_Some (dueTime getTime c) ->
  SortCompare (compareTasks getTime) a b <= 0 ->
  SortCompare (compareTasks getTime) b c <= 0 ->
  SortCompare (compareTasks getTime) a c <= 0.
Proof.
  intros [ta Ha] [tb Hb] [tc Hc].
  rewrite (SortCompare_valid a b ta tb Ha Hb),
          (SortCompare_valid b c tb tc Hb Hc),
          (SortCompare_valid a c ta tc Ha Hc).
  unfold rank.
  destruct (Task.completed a), (Task.completed b), (Task.completed c);
    simpl; lia.
Qed.

(** What [compare <= 0] says of two tasks with valid due times. *)
Lemma compare_le_inv (a b : Task.t) :
  is_Some (dueTime getTime a) -> is_Some (dueTime getTime b) ->
  SortCompare (compareTasks getTime) a b <= 0 ->
  (Task.completed a = true -> Task.completed b = true)
  /\ (Task.completed a = Task.completed b ->
      exists ta tb : Z,
        dueTime getTime a = Some ta /\ dueTime getTime b = Some tb
        /\ tb <= ta).
Proof.
  intros [ta Ha] [tb Hb].
  rewrite (SortCompare_valid a b ta tb Ha Hb). unfold rank.
  destruct (Task.completed a), (Task.completed b); simpl; intros Hle;
    (split; [first [done | lia]|]); intros Heq; try discriminate;
    exists ta, tb; (split; [exact Ha|split; [exact Hb|lia]]).
Qed.

Lemma compare_antisym (a b : Task.t) :
  is_Some (dueTime getTime a) -> is_Some (dueTime getTime b) ->
  SortCompare (compareTasks getTime) a b <= 0 ->
  SortCompare (compareTasks getTime) b a <= 0 ->
  sort_key getTime a = sort_key getTime b.
Proof.
  intros [ta Ha] [tb Hb].
  rewrite (SortCompare_valid a b ta tb Ha Hb),
          (SortCompare_valid b a tb ta Hb Ha).
  unfold sort_key, rank. rewrite Ha, Hb.
  destruct (Task.completed a), (Task.completed b); simpl; intros H1 H2;
    try lia; repeat f_equal; lia.
Qed.

(** X15. The result of [.sort] does not depend on the algorithm: on tasks
    with valid due dates, every list that is sorted by the comparator and
    keeps, for each key, the tasks of that key in the order of the input is
    the list [sort] returns. *)
Lemma sort_tasks_determined (l l' : list Task.t) :
  Forall (fun task => is_Some (dueTime getTime task)) l ->
  l' ≡ₚ l ->
  StronglySorted (fun a b => SortCompare (compareTasks getTime) a b <= 0) l' ->
  (forall k, filter (fun task => sort_key getTime task = k) l'
             = filter (fun task => sort_key getTime task = k) l) ->
  l' = sort (compareTasks getTime) l.
Proof.
  intros HV Hperm Hsorted Hstable.
  apply (sorted_stable_unique (sort_key getTime)
           (fun a b => SortCompare (compareTasks getTime) a b <= 0)
           (fun task => is_Some (dueTime getTime task)) compare_antisym).
  - by rewrite Hperm.
  - by rewrite sort_Permutation.
  - exact Hsorted.
  - apply (sort_sorted (compareTasks getTime) _ compare_total compare_trans).
    exact HV.
  - intros k. rewrite Hstable. symmetry.
    apply sort_stable. apply same_key_le.
Qed.

End CompareFacts.

(** C5, as the code has it. For every collection whose due dates are valid
    dates, and every status filter, the view is a rearrangement of the tasks
    that pass the filter in which: no completed task comes before a task
    that is not completed; of two tasks with the same completion flag the
    earlier in the view has the later (or the same) due time, where a
    missing due date counts as the epoch, time zero, so that a task without
    a due date comes after every task of its group that is due after the
    epoch and before every task of its group that is due before the epoch;
    and the tasks with the same completion flag and the same due time keep
    the order they had in the collection. *)
Theorem sort_orders_tasks (getTime : string -> option Z) (nowMs : Z)
    (tasks : list Task.t) (statusFilter : StatusFilter) :
  Forall (fun task => is_Some (dueTime getTime task)) tasks ->
  let visible :=
    filter (fun task => statusPredicate getTime nowMs statusFilter task)
           tasks in
  let sorted := filteredTasks getTime nowMs tasks statusFilter in
  sorted ≡ₚ visible
  /\ (forall (i j : nat) (a b : Task.t),
        (i < j)%nat -> sorted !! i = Some a -> sorted !! j = Some b ->
        (Task.completed a = true -> Task.completed b = true)
        /\ (Task.completed a = Task.completed b ->
            exists ta tb : Z,
              dueTime getTime a = Some ta /\ dueTime getTime b = Some tb
              /\ tb <= ta)
        /\ (Task.completed a = Task.completed b ->
            Task.dueDate a = None ->
            exists tb : Z, dueTime getTime b = Some tb /\ tb <= 0)
        /\ (Task.completed a = Task.completed b ->
            Task.dueDate b = None ->
            exists ta : Z, dueTime getTime a = Some ta /\ 0 <= ta))
  /\ (forall task : Task.t,
        Task.dueDate task = None -> dueTime getTime task = Some 0)
  /\ (forall k : bool * option Z,
        filter (fun task => sort_key getTime task = k) sorted
        = filter (fun task => sort_key getTime task = k) visible).
Proof.
  intros Hvalid visible sorted.
  assert (forall task : Task.t,
             Task.dueDate task = None -> dueTime getTime task = Some 0)
    as Hundated.
  { intros task Hd. unfold dueTime. by rewrite Hd. }
  assert (Forall (fun task => is_Some (dueTime getTime task)) visible)
    as Hvis.
  { apply Forall_forall. intros t [_ Ht]%list_elem_of_filter.
    by apply (proj1 (Forall_forall _ _) Hvalid). }
  split; [apply sort_Permutation|]. split; [|split; [exact Hundated|]].
  - intros i j a b Hij Hi Hj.
    assert (is_Some (dueTime getTime a)) as Ha.
    { apply (proj1 (Forall_forall _ _) Hvis).
      rewrite <- (sort_Permutation (compareTasks getTime) visible).
      by eapply list_elem_of_lookup_2. }
    assert (is_Some (dueTime getTime b)) as Hb.
    { apply (proj1 (Forall_forall _ _) Hvis).
      rewrite <- (sort_Permutation (compareTasks getTime) visible).
      by eapply list_elem_of_lookup_2. }
    pose proof (sort_sorted (compareTasks getTime) _
                  (compare_total getTime) (compare_trans getTime)
                  visible Hvis) as Hsorted.
    pose proof (StronglySorted_lookup _ _ i j a b Hsorted Hij Hi Hj) as Hle.
    destruct (compare_le_inv getTime a b Ha Hb Hle) as [Hflag Htime].
    split; [exact Hflag|]. split; [exact Htime|]. split.
    + intros Hc Hd. destruct (Htime Hc) as (ta & tb & Hta & Htb & Hle').
      rewrite (Hundated a Hd) in Hta. injection Hta as <-. by exists tb.
    + intros Hc Hd. destruct (Htime Hc) as (ta & tb & Hta & Htb & Hle').
      rewrite (Hundated b Hd) in Htb. injection Htb as <-. by exists ta.
  - intros k. apply sort_stable. apply same_key_le.
Qed.

Lemma sort_orders_tasks_witness :
  filteredTasks sample_getTime sample_now [taskA; taskB; taskC] all
  ≡ₚ filter (fun task => statusPredicate sample_getTime sample_now all task)
            [taskA; taskB; taskC].
Proof.
  refine (proj1 (sort_orders_tasks sample_getTime sample_now
                   [taskA; taskB; taskC] all _)).
  repeat constructor; eexists; reflexivity.
Defined.

(** The claim C5 says that a task without a due date comes last in its
    group. A task due before the epoch sorts after it. *)
Lemma undated_task_not_last :
  let undated := simple "u" false None None [] in
  let old := simple "o" false None (Some "1969-12-31T00:00:00.000Z") [] in
  filteredTasks sample_getTime sample_now [old; undated] all = [undated; old]
  /\ Task.completed undated = Task.completed old
  /\ Task.dueDate undated = None
  /\ dueTime sample_getTime old = Some (-86400000).
Proof. vm_compute. repeat split. Qed.

(** The sort examples of the specification: two open tasks with the same due
    date keep their order, whichever comes first. *)
Example sort_stability_example :
  let first := simple "1" false None (Some "2024-05-02T09:00:00.000Z") [] in
  let second := simple "2" false None (Some "2024-05-02T09:00:00.000Z") [] in
  filteredTasks sample_getTime sample_now [first; second; taskC; taskA] all
    = [first; second; taskA; taskC]
  /\ filteredTasks sample_getTime sample_now [taskC; second; taskA; first] all
     = [second; first; taskA; taskC].
Proof. vm_compute. repeat split. Qed.

(** *** C6: creation *)

Section CreateFacts.
Variable uuidv4 : nat -> string.

Lemma finalSubtasks_run (titles : list string) (n : nat) :
  finalSubtasks uuidv4 titles n
  = (zip_with (fun k title => Subtask.mk (uuidv4 k) title false)
              (seq n (length titles)) titles,
     (n + length titles)%nat).
Proof.
  revert n. induction titles as [|title titles IH]; intros n; simpl.
  - unfold gret. by rewrite Nat.add_0_r.
  - unfold gbind, uuid. rewrite IH. unfold gret. f_equal. lia.
Qed.

Lemma finalSubtasks_ids (titles : list string) (n : nat) :
  map Subtask.id (fst (finalSubtasks uuidv4 titles n))
  = map uuidv4 (seq n (length titles)).
Proof.
  rewrite finalSubtasks_run. simpl. revert n.
  induction titles as [|title titles IH]; intros n; simpl; [done|].
  by rewrite IH.
Qed.

Lemma addTask_run (task : Draft.t) (prev : list Task.t) (n : nat) :
  addTask uuidv4 task prev n
  = (prev ++ [newTask_of_draft task (uuidv4 n)], S n).
Proof. reflexivity. Qed.

Lemma all_ids_snoc (prev : list Task.t) (task : Task.t) :
  all_ids (prev ++ [task])
  = all_ids prev ++ Task.id task :: map Subtask.id (Task.subtasks task).
Proof.
  unfold all_ids. rewrite flat_map_app. simpl. by rewrite app_nil_r.
Qed.

(** The ids of the collection after a submission: those it had, then the id
    of the new task (the last call) and the ids of its subtasks (the calls
    before it). *)
Lemma onSubmit_ids (values : Draft.t) (finalDueDate : option string)
    (titles : list string) (prev : list Task.t) (n : nat) :
  all_ids (fst (onSubmit uuidv4 values finalDueDate titles prev n))
  = all_ids prev
    ++ map uuidv4 ((n + length titles)%nat :: seq n (length titles))
  /\ snd (onSubmit uuidv4 values finalDueDate titles prev n)
     = S (n + length titles).
Proof.
  unfold onSubmit, gbind.
  pose proof (finalSubtasks_ids titles n) as Hids.
  rewrite finalSubtasks_run in *. simpl in Hids.
  rewrite addTask_run. simpl. split; [|done].
  rewrite all_ids_snoc. simpl. by rewrite Hids.
Qed.

Hypothesis uuidv4_inj : forall i j, uuidv4 i = uuidv4 j -> i = j.

Lemma onSubmit_NoDup (values : Draft.t) (finalDueDate : option string)
    (titles : list string) (prev : list Task.t) (n : nat) :
  NoDup (all_ids prev) -> generated_before uuidv4 n (all_ids prev) ->
  NoDup (all_ids (fst (onSubmit uuidv4 values finalDueDate titles prev n)))
  /\ generated_before uuidv4
       (snd (onSubmit uuidv4 values finalDueDate titles prev n))
       (all_ids (fst (onSubmit uuidv4 values finalDueDate titles prev n))).
Proof.
  intros Hnd Hgen.
  destruct (onSubmit_ids values finalDueDate titles prev n) as [-> ->].
  assert (forall x,
             x ∈ map uuidv4 ((n + length titles)%nat :: seq n (length titles))
             -> exists k,
                 (n <= k < S (n + length titles))%nat /\ x = uuidv4 k)
    as Hnew.
  { intros x [k [-> Hk]]%list_elem_of_fmap. exists k. split; [|done].
    apply elem_of_cons in Hk as [->|Hk]; [lia|].
    apply elem_of_seq in Hk. lia. }
  split.
  - apply NoDup_app. split; [done|]. split.
    + intros x Hx Hx'. destruct (Hgen x Hx) as (k & Hk & ->).
      destruct (Hnew _ Hx') as (k' & Hk' & Heq).
      apply uuidv4_inj in Heq. lia.
    + apply NoDup_fmap_2; [exact uuidv4_inj|].
      apply NoDup_cons. split; [|apply NoDup_seq].
      intros Hin%elem_of_seq. lia.
  - intros x [Hx|Hx]%elem_of_app.
    + destruct (Hgen x Hx) as (k & Hk & ->). exists k. split; [lia|done].
    + destruct (Hnew x Hx) as (k & Hk & ->). exists k. split; [lia|done].
Qed.

Lemma creates_NoDup
    (inputs : list (Draft.t * option string * list string))
    (prev : list Task.t) (n : nat) :
  NoDup (all_ids prev) -> generated_before uuidv4 n (all_ids prev) ->
  NoDup (all_ids (fst (creates uuidv4 inputs prev n))).
Proof.
  revert prev n.
  induction inputs as [|[[values finalDueDate] titles] inputs IH];
    intros prev n Hnd Hgen; simpl; [done|].
  unfold gbind.
  destruct (onSubmit_NoDup values finalDueDate titles prev n Hnd Hgen)
    as [Hnd' Hgen'].
  destruct (onSubmit uuidv4 values finalDueDate titles prev n) as [tasks n'].
  by apply IH.
Qed.

End CreateFacts.

Lemma sample_uuid_inj (i j : nat) : sample_uuid i = sample_uuid j -> i = j.
Proof.
  unfold sample_uuid. intros H.
  apply (inj (String.app "uuid-")) in H. by apply (inj pretty) in H.
Qed.

(** C6. [addTask] appends exactly one task at the end of the collection and
    leaves the tasks before it as they were; the new task has the id the
    generator returns (an id the collection does not hold, when its ids came
    from earlier calls), [completed = false], no [completedAt], and the
    fields of the draft. It is a total function: there is no failure. Where the
    generator never returns the same value twice, the task ids and subtask
    ids of a collection built by any sequence of submissions (each
    generating the ids of its subtasks and then the id of its task) are
    pairwise distinct, from the empty collection or from any collection with
    distinct ids that came from earlier calls of the generator. *)
Theorem create_appends_fresh_task (uuidv4 : nat -> string) :
  (forall i j : nat, uuidv4 i = uuidv4 j -> i = j) ->
  (forall (task : Draft.t) (prev : list Task.t) (n : nat),
     exists newTask : Task.t,
       addTask uuidv4 task prev n = (prev ++ [newTask], S n)
       /\ Task.id newTask = uuidv4 n
       /\ (generated_before uuidv4 n (all_ids prev) ->
           Task.id newTask ∉ all_ids prev)
       /\ Task.completed newTask = false
       /\ Task.completedAt newTask = None
       /\ Task.title newTask = Draft.title task
       /\ Task.description newTask = Draft.description task
       /\ Task.type newTask = Draft.type task
       /\ Task.dueDate newTask = Draft.dueDate task
       /\ Task.startTime newTask = Draft.startTime task
       /\ Task.imageUrl newTask = Draft.imageUrl task
       /\ Task.subtasks newTask = Draft.subtasks task
       /\ Task.isRecurring newTask = Draft.isRecurring task
       /\ Task.recurringInterval newTask = Draft.recurringInterval task
       /\ Task.recurringIntervalUnit newTask
          = Draft.recurringIntervalUnit task
       /\ Task.repetitions newTask = Draft.repetitions task)
  /\ (forall (inputs : list (Draft.t * option string * list string))
             (n : nat),
        NoDup (all_ids (fst (creates uuidv4 inputs [] n))))
  /\ (forall (inputs : list (Draft.t * option string * list string))
             (prev : list Task.t) (n : nat),
        NoDup (all_ids prev) -> generated_before uuidv4 n (all_ids prev) ->
        NoDup (all_ids (fst (creates uuidv4 inputs prev n)))).
Proof.
  intros Hinj. split; [|split].
  - intros task prev n. exists (newTask_of_draft task (uuidv4 n)).
    split; [reflexivity|]. split; [reflexivity|]. split; [|repeat split].
    simpl. intros Hgen Hin. destruct (Hgen _ Hin) as (k & Hk & Heq).
    apply Hinj in Heq. lia.
  - intros inputs n. apply creates_NoDup; [done|constructor|].
    intros x Hx. by apply elem_of_nil in Hx.
  - intros inputs prev n. by apply creates_NoDup.
Qed.

Lemma create_appends_fresh_task_witness :
  NoDup (all_ids
           (fst (creates sample_uuid
                   [(sample_draft, None, ["Fill the can"; "Water"]);
                    (sample_draft, Some "2024-05-02T09:00:00.000Z", ["Pack"])]
                   [] 0%nat))).
Proof.
  exact (proj1 (proj2 (create_appends_fresh_task sample_uuid sample_uuid_inj))
           _ 0%nat).
Defined.

Example creates_example :
  all_ids
    (fst (creates sample_uuid
            [(sample_draft, None, ["Fill the can"; "Water"]);
             (sample_draft, Some "2024-05-02T09:00:00.000Z", ["Pack"])]
            [] 0%nat))
  = ["uuid-2"; "uuid-0"; "uuid-1"; "uuid-4"; "uuid-3"].
Proof. vm_compute. reflexivity. Qed.

(** *** The JSON text: what is written is read back *)

Module JSONFacts.
Import Stdlib.Strings.Ascii JSON.

#[local] Arguments String.append !_ _ / : simpl nomatch.

Lemma sapp_assoc (a b c : string) : (a +:+ b) +:+ c = a +:+ (b +:+ c).
Proof. induction a as [|x a IH]; simpl; [done|by f_equal]. Qed.

Lemma sapp_nil_r (a : string) : a +:+ EmptyString = a.
Proof. induction a as [|x a IH]; simpl; [done|by f_equal]. Qed.

Lemma slength_app (a b : string) :
  String.length (a +:+ b) = (String.length a + String.length b)%nat.
Proof. induction a as [|x a IH]; simpl; [done|by f_equal]. Qed.

Lemma code_char_of_code (n : Z) : 0 <= n < 256 -> code (char_of_code n) = n.
Proof.
  intros Hn. unfold code, char_of_code.
  rewrite nat_ascii_embedding by lia. lia.
Qed.

Lemma code_inj (c d : ascii) : code c = code d -> c = d.
Proof.
  unfold code. intros H%Nat2Z.inj.
  by rewrite <- (ascii_nat_embedding c), <- (ascii_nat_embedding d), H.
Qed.

Lemma code_range (c : ascii) : 0 <= code c < 256.
Proof. unfold code. pose proof (nat_ascii_bounded c). lia. Qed.

(** *** String literals *)

Lemma parse_chars_escape_char (c : ascii) (text : string) :
  parse_chars (escape_char c +:+ text) = cons_char c (parse_chars text).
Proof.
  destruct c as [[] [] [] [] [] [] [] []]; reflexivity.
Qed.

Lemma parse_chars_escape (s rest : string) :
  parse_chars (escape s +:+ String quote rest) = Some (s, rest).
Proof.
  induction s as [|c s IH]; [reflexivity|].
  cbn [escape]. rewrite sapp_assoc, parse_chars_escape_char, IH. reflexivity.
Qed.

(** *** Numbers *)

Lemma all_digits_app (a b : string) :
  all_digits (a +:+ b) = all_digits a && all_digits b.
Proof.
  induction a as [|c a IH]; simpl; [done|]. rewrite IH. by destruct (is_digit c).
Qed.

Lemma is_digit_char (d : Z) :
  0 <= d < 10 -> is_digit (char_of_code (48 + d)) = true.
Proof.
  intros Hd. unfold is_digit. rewrite code_char_of_code by lia.
  apply andb_true_intro. split; apply Z.leb_le; lia.
Qed.

Lemma digits_all (fuel : nat) (n : Z) :
  0 <= n -> all_digits (digits fuel n) = true.
Proof.
  revert n. induction fuel as [|fuel IH]; intros n Hn; simpl; [done|].
  assert (is_digit (char_of_code (48 + n mod 10)) = true) as Hd.
  { apply is_digit_char. apply Z.mod_pos_bound. lia. }
  destruct (n / 10 =? 0).
  - simpl. by rewrite Hd.
  - rewrite all_digits_app, IH by (apply Z.div_pos; lia). simpl. by rewrite Hd.
Qed.

Lemma digits_value_app (acc : Z) (a b : string) :
  digits_value acc (a +:+ b) = digits_value (digits_value acc a) b.
Proof. revert acc. induction a as [|c a IH]; intros acc; simpl; [done|apply IH]. Qed.

Lemma digits_value_digits (fuel : nat) (n : Z) :
  0 <= n < 2 ^ Z.of_nat fuel -> digits_value 0 (digits fuel n) = n.
Proof.
  revert n. induction fuel as [|fuel IH]; intros n Hn.
  - simpl in *. lia.
  - cbn [digits]. rewrite Nat2Z.inj_succ, Z.pow_succ_r in Hn by lia.
    pose proof (Z.mod_pos_bound n 10 ltac:(lia)) as Hmod.
    pose proof (Z.div_mod n 10 ltac:(lia)) as Hdiv.
    destruct (Z.eqb_spec (n / 10) 0) as [Hz|Hnz].
    + simpl. rewrite code_char_of_code by lia. lia.
    + rewrite digits_value_app, IH.
      * simpl. rewrite code_char_of_code by lia. lia.
      * split; [apply Z.div_pos; lia|].
        apply Z.div_lt_upper_bound; lia.
Qed.

Lemma digits_head (fuel : nat) (n : Z) :
  0 < n < 2 ^ Z.of_nat fuel ->
  exists c s, digits fuel n = String c s /\ code c <> 48 /\ is_digit c = true.
Proof.
  revert n. induction fuel as [|fuel IH]; intros n Hn.
  - simpl in *. lia.
  - cbn [digits]. rewrite Nat2Z.inj_succ, Z.pow_succ_r in Hn by lia.
    pose proof (Z.mod_pos_bound n 10 ltac:(lia)) as Hmod.
    pose proof (Z.div_mod n 10 ltac:(lia)) as Hdiv.
    destruct (Z.eqb_spec (n / 10) 0) as [Hz|Hnz].
    + eexists _, _. split; [reflexivity|]. split.
      * rewrite code_char_of_code by lia. lia.
      * by apply is_digit_char.
    + destruct (IH (n / 10)) as (c & s & Heq & Hc & Hd).
      * assert (0 <= n / 10) by (apply Z.div_pos; lia).
        split; [lia|]. apply Z.div_lt_upper_bound; lia.
      * rewrite Heq. simpl. by eexists _, _.
Qed.

Lemma decimal_fuel (n : Z) :
  0 <= n -> n < 2 ^ Z.of_nat (S (Z.to_nat (Z.log2 n))).
Proof.
  intros Hn. rewrite Nat2Z.inj_succ, Z2Nat.id by apply Z.log2_nonneg.
  destruct (Z.eq_dec n 0) as [->|Hnz]; [done|].
  apply Z.log2_spec. lia.
Qed.

Lemma decimal_head (m : Z) :
  0 <= m -> exists c s, decimal m = String c s /\ is_digit c = true.
Proof.
  intros Hm. destruct (Z.eq_dec m 0) as [->|Hnz].
  - by eexists _, _.
  - destruct (digits_head (S (Z.to_nat (Z.log2 m))) m) as (c & s & Heq & _ & Hd).
    { split; [lia|by apply decimal_fuel]. }
    by exists c, s.
Qed.

(** The digits of a positive number: they begin with a digit that is not
    [0] and read as the number. *)
Lemma decimal_shape (m : Z) :
  0 < m ->
  exists c D, decimal m = String c D /\ is_digit c = true /\ code c <> 48
              /\ all_digits D = true /\ digits_value 0 (String c D) = m.
Proof.
  intros Hm.
  destruct (digits_head (S (Z.to_nat (Z.log2 m))) m) as (c & D & Heq & Hc & Hd).
  { split; [lia|apply decimal_fuel; lia]. }
  pose proof (digits_all (S (Z.to_nat (Z.log2 m))) m ltac:(lia)) as Hall.
  pose proof (digits_value_digits (S (Z.to_nat (Z.log2 m))) m
                ltac:(split; [lia|apply decimal_fuel; lia])) as Hval.
  exists c, D. unfold decimal. rewrite Heq in *.
  simpl in Hall. rewrite Hd in Hall. done.
Qed.

Lemma digits_value_decimal (m : Z) : 0 <= m -> digits_value 0 (decimal m) = m.
Proof.
  intros Hm. apply digits_value_digits. split; [lia|by apply decimal_fuel].
Qed.

Lemma all_digits_zeros (count : nat) : all_digits (zeros count) = true.
Proof. induction count as [|count IH]; [done|exact IH]. Qed.

Lemma digits_value_zeros (acc : Z) (count : nat) :
  digits_value acc (zeros count) = acc * 10 ^ Z.of_nat count.
Proof.
  revert acc. induction count as [|count IH]; intros acc.
  - simpl. lia.
  - cbn [zeros digits_value]. rewrite IH.
    rewrite Nat2Z.inj_succ, Z.pow_succ_r by lia.
    change (code "0") with 48. lia.
Qed.

(** The number of digits of a positive number. *)
Lemma digits_length_bounds (fuel : nat) (s : Z) :
  0 < s < 2 ^ Z.of_nat fuel ->
  10 ^ (Z.of_nat (String.length (digits fuel s)) - 1) <= s
  < 10 ^ Z.of_nat (String.length (digits fuel s)).
Proof.
  revert s. induction fuel as [|fuel IH]; intros s Hs.
  - simpl in Hs. lia.
  - cbn [digits]. rewrite Nat2Z.inj_succ, Z.pow_succ_r in Hs by lia.
    pose proof (Z.mod_pos_bound s 10 ltac:(lia)) as Hmod.
    pose proof (Z.div_mod s 10 ltac:(lia)) as Hdiv.
    destruct (Z.eqb_spec (s / 10) 0) as [Hz|Hnz].
    + simpl. lia.
    + assert (0 < s / 10 < 2 ^ Z.of_nat fuel) as Hs'.
      { assert (0 <= s / 10) by (apply Z.div_pos; lia).
        split; [lia|]. apply Z.div_lt_upper_bound; lia. }
      destruct (digits_head fuel (s / 10) Hs') as (c & D & Heq & _ & _).
      specialize (IH (s / 10) Hs'). rewrite slength_app. rewrite Heq in *.
      cbn [String.length] in *. rewrite Nat2Z.inj_add, !Nat2Z.inj_succ in *.
      change (Z.of_nat 0) with 0.
      replace (Z.succ (Z.of_nat (String.length D)) + Z.succ 0 - 1)
        with (Z.succ (Z.of_nat (String.length D))) by lia.
      replace (Z.succ (Z.of_nat (String.length D)) + Z.succ 0)
        with (Z.succ (Z.succ (Z.of_nat (String.length D)))) by lia.
      replace (Z.succ (Z.of_nat (String.length D)) - 1)
        with (Z.of_nat (String.length D)) in IH by lia.
      rewrite (Z.pow_succ_r 10 (Z.succ _)) by lia.
      rewrite (Z.pow_succ_r 10 (Z.of_nat _)) in * by lia.
      lia.
Qed.

Lemma decimal_length_bounds (s : Z) :
  0 < s ->
  10 ^ (Z.of_nat (String.length (decimal s)) - 1) <= s
  < 10 ^ Z.of_nat (String.length (decimal s)).
Proof.
  intros Hs. apply digits_length_bounds. split; [lia|apply decimal_fuel; lia].
Qed.

Lemma decimal_length (s k : Z) :
  1 <= k -> 10 ^ (k - 1) <= s < 10 ^ k ->
  Z.of_nat (String.length (decimal s)) = k.
Proof.
  intros Hk Hs.
  assert (0 < s) as Hpos.
  { assert (0 < 10 ^ (k - 1)) by (apply Z.pow_pos_nonneg; lia). lia. }
  pose proof (decimal_length_bounds s Hpos) as Hlen.
  destruct (decimal_shape s Hpos) as (c & D & Heq & _).
  rewrite Heq in *. cbn [String.length] in *.
  set (len := Z.of_nat (S (String.length D))) in *.
  assert (1 <= len) by (unfold len; lia).
  destruct (Z.lt_trichotomy len k) as [Hlt|[Heq'|Hgt]]; [|done|].
  - assert (10 ^ len <= 10 ^ (k - 1)) by (apply Z.pow_le_mono_r; lia). lia.
  - assert (10 ^ k <= 10 ^ (len - 1)) by (apply Z.pow_le_mono_r; lia). lia.
Qed.

Lemma span_digits_end (rest : string) :
  numeric_end rest -> span_digits rest = (EmptyString, rest).
Proof. destruct rest as [|c r]; simpl; [done|]. by intros [-> _]. Qed.

Lemma span_digits_app (d rest : string) :
  all_digits d = true -> span_digits rest = (EmptyString, rest) ->
  span_digits (d +:+ rest) = (d, rest).
Proof.
  intros Hd Hrest. induction d as [|c d IH]; simpl in *; [done|].
  apply andb_prop in Hd as [Hc Hd]. by rewrite Hc, IH.
Qed.

Lemma parse_frac_none (rest : string) :
  numeric_end rest -> parse_frac rest = Some (EmptyString, rest).
Proof.
  destruct rest as [|c r]; simpl; [done|]. intros (_ & Hc & _).
  apply Z.eqb_neq in Hc. by rewrite Hc.
Qed.

Lemma parse_exp_none (rest : string) :
  numeric_end rest -> parse_exp rest = Some (0, rest).
Proof.
  destruct rest as [|c r]; simpl; [done|]. intros (_ & _ & He & HE).
  apply Z.eqb_neq in He, HE. by rewrite He, HE.
Qed.

(** A number written as digits only. *)
Lemma parse_unsigned_digits (negative : bool) (c : ascii) (D rest : string) :
  is_digit c = true -> code c <> 48 -> all_digits D = true ->
  numeric_end rest ->
  round_double (digits_value 0 (String c D)) < 2 ^ 1024 ->
  parse_unsigned negative (String c (D +:+ rest))
  = Some (if negative then - round_double (digits_value 0 (String c D))
          else round_double (digits_value 0 (String c D)), rest).
Proof.
  intros Hc Hnz HD Hrest Hfinite. unfold parse_unsigned.
  assert (parse_int (String c (D +:+ rest)) = Some (String c D, rest)) as ->.
  { cbn [parse_int]. apply Z.eqb_neq in Hnz. rewrite Hnz, Hc.
    change (String c (D +:+ rest)) with (String c D +:+ rest).
    rewrite span_digits_app; [done| |by apply span_digits_end].
    simpl. by rewrite Hc. }
  rewrite parse_frac_none, parse_exp_none by done.
  unfold number_value. rewrite sapp_nil_r.
  change (0 - Z.of_nat (String.length EmptyString)) with 0.
  cbv zeta. change (0 <=? 0) with true. cbv iota.
  rewrite Z.pow_0_r, Z.mul_1_r.
  apply Z.ltb_lt in Hfinite. by rewrite Hfinite.
Qed.

Lemma parse_unsigned_zero (negative : bool) (rest : string) :
  numeric_end rest ->
  parse_unsigned negative (String "0" rest) = Some (0, rest).
Proof.
  intros Hrest. unfold parse_unsigned. cbn [parse_int].
  change (code "0" =? 48) with true. cbv iota.
  rewrite parse_frac_none, parse_exp_none by done.
  by destruct negative.
Qed.

(** A number written with an exponent. *)
Lemma parse_unsigned_exponent (negative : bool) (d : ascii)
    (F : string) (E : Z) (rest : string) :
  is_digit d = true -> code d <> 48 -> all_digits F = true ->
  Z.of_nat (String.length F) <= E -> numeric_end rest ->
  round_double (digits_value 0 (String d F)
                * 10 ^ (E - Z.of_nat (String.length F))) < 2 ^ 1024 ->
  parse_unsigned negative
    (String d ((if is_empty F then EmptyString else String "." F)
               +:+ String "e" (String "+" (decimal E +:+ rest))))
  = Some (if negative
          then - round_double (digits_value 0 (String d F)
                               * 10 ^ (E - Z.of_nat (String.length F)))
          else round_double (digits_value 0 (String d F)
                             * 10 ^ (E - Z.of_nat (String.length F))), rest).
Proof.
  intros Hd Hnz HF HE Hrest Hfinite. unfold parse_unsigned.
  set (tail := String "e" (String "+" (decimal E +:+ rest))).
  assert (0 <= E) as HE0 by lia.
  assert (parse_int (String d ((if is_empty F then EmptyString
                                else String "." F) +:+ tail))
          = Some (String d EmptyString,
                  (if is_empty F then EmptyString else String "." F)
                  +:+ tail)) as ->.
  { cbn [parse_int]. apply Z.eqb_neq in Hnz. rewrite Hnz, Hd.
    cbn [span_digits]. rewrite Hd. by destruct F. }
  assert (parse_frac ((if is_empty F then EmptyString else String "." F)
                      +:+ tail) = Some (F, tail)) as ->.
  { destruct F as [|f F]; [done|].
    cbn [is_empty String.append parse_frac].
    change (code "." =? 46) with true. cbv iota.
    change (String f (F +:+ tail)) with (String f F +:+ tail).
    by rewrite span_digits_app. }
  assert (parse_exp tail = Some (E, rest)) as ->.
  { unfold tail. cbn [parse_exp].
    change (code "e" =? 101) with true. cbn [orb]. cbv iota.
    change (code "+" =? 45) with false. change (code "+" =? 43) with true.
    cbv iota.
    rewrite span_digits_app;
      [|apply digits_all; lia|by apply span_digits_end].
    destruct (decimal_head E HE0) as (c & s & Heq & _).
    assert (is_empty (decimal E) = false) as -> by (by rewrite Heq).
    by rewrite digits_value_decimal. }
  unfold number_value.
  change (String d EmptyString +:+ F) with (String d F).
  cbv zeta.
  assert ((0 <=? E - Z.of_nat (String.length F)) = true) as ->
    by (apply Z.leb_le; lia).
  apply Z.ltb_lt in Hfinite. by rewrite Hfinite.
Qed.

(** The digits [Number::toString] chooses read back as the number. *)
Lemma candidate_spec (x p s : Z) :
  candidate x p = Some s ->
  round_double (s * p) = x /\ (s = x / p \/ s = x / p + 1).
Proof.
  unfold candidate.
  destruct (Z.eqb_spec (round_double (x / p * p)) x) as [Hlo|Hlo];
    destruct (Z.eqb_spec (round_double ((x / p + 1) * p)) x) as [Hhi|Hhi];
    repeat case_match; intros [= <-]; auto.
Qed.

Lemma shortest_spec (fuel : nat) (x n k s k' : Z) :
  round_double x = x -> 1 <= n -> 1 <= k -> k + Z.of_nat fuel = n + 1 ->
  shortest fuel x n k = (s, k') ->
  round_double (s * 10 ^ (n - k')) = x /\ 1 <= k' <= n
  /\ (s = x / 10 ^ (n - k') \/ s = x / 10 ^ (n - k') + 1).
Proof.
  intros Hx Hn. revert k.
  induction fuel as [|fuel IH]; intros k Hk Hfuel; simpl.
  - intros [= <- <-]. rewrite Z.sub_diag, Z.pow_0_r, Z.mul_1_r, Z.div_1_r.
    split; [done|]. split; [lia|by left].
  - destruct (candidate x (10 ^ (n - k))) as [c|] eqn:Hc.
    + intros [= <- <-]. apply candidate_spec in Hc as [Hc Hs].
      split; [done|]. split; [lia|done].
    + apply IH; lia.
Qed.

Lemma print_digits_parse (negative : bool) (s k n x : Z) (rest : string) :
  1 <= k <= n -> 10 ^ (k - 1) <= s < 10 ^ k ->
  round_double (s * 10 ^ (n - k)) = x -> x < 2 ^ 1024 -> numeric_end rest ->
  parse_unsigned negative (print_digits s k n +:+ rest)
  = Some (if negative then - x else x, rest).
Proof.
  intros Hk Hs Hround Hfinite Hrest.
  assert (0 < s) as Hpos.
  { assert (0 < 10 ^ (k - 1)) by (apply Z.pow_pos_nonneg; lia). lia. }
  pose proof (decimal_length s k ltac:(lia) Hs) as Hlen.
  destruct (decimal_shape s Hpos) as (c & D & Heq & Hc & Hnz & HD & Hval).
  unfold print_digits. rewrite Heq in *. cbn [String.length] in Hlen.
  destruct (n <=? 21).
  - cbn [String.append]. rewrite sapp_assoc.
    assert (digits_value 0 (String c (D +:+ zeros (Z.to_nat (n - k))))
            = s * 10 ^ (n - k)) as Hvalue.
    { change (String c (D +:+ zeros (Z.to_nat (n - k))))
        with (String c D +:+ zeros (Z.to_nat (n - k))).
      rewrite digits_value_app, Hval, digits_value_zeros.
      by rewrite Z2Nat.id by lia. }
    rewrite <- sapp_assoc.
    rewrite parse_unsigned_digits; try done.
    + by rewrite Hvalue, Hround.
    + by rewrite all_digits_app, HD, all_digits_zeros.
    + by rewrite Hvalue, Hround.
  - cbn [String.append]. rewrite sapp_assoc.
    change (String "e" (String "+" (decimal (n - 1))) +:+ rest)
      with (String "e" (String "+" (decimal (n - 1) +:+ rest))).
    assert (n - 1 - Z.of_nat (String.length D) = n - k) as Hscale by lia.
    rewrite parse_unsigned_exponent; try done.
    + by rewrite Hscale, Hval, Hround.
    + lia.
    + by rewrite Hscale, Hval, Hround.
Qed.

Lemma large_to_string_parse (negative : bool) (x : Z) (rest : string) :
  0 < x -> round_double x = x -> x < 2 ^ 1024 -> numeric_end rest ->
  parse_unsigned negative (large_to_string x +:+ rest)
  = Some (if negative then - x else x, rest).
Proof.
  intros Hpos Hx Hfinite Hrest. unfold large_to_string.
  set (n := Z.of_nat (String.length (decimal x))).
  pose proof (decimal_length_bounds x Hpos) as Hn. fold n in Hn.
  assert (1 <= n) as Hn1.
  { destruct (decimal_shape x Hpos) as (c & D & Heq & _).
    unfold n. rewrite Heq. simpl. lia. }
  destruct (shortest (Z.to_nat n) x n 1) as [s k] eqn:Hshortest.
  apply (shortest_spec _ _ _ _ _ _ Hx Hn1) in Hshortest
    as (Hround & Hk & Hs); [|lia..].
  set (p := 10 ^ (n - k)) in *.
  assert (0 < p) as Hp by (apply Z.pow_pos_nonneg; lia).
  assert (10 ^ (k - 1) * p = 10 ^ (n - 1)) as Hlow.
  { unfold p. rewrite <- Z.pow_add_r by lia. f_equal. lia. }
  assert (10 ^ k * p = 10 ^ n) as Hhigh.
  { unfold p. rewrite <- Z.pow_add_r by lia. f_equal. lia. }
  assert (10 ^ (k - 1) <= x / p < 10 ^ k) as Hquot.
  { split.
    - apply Z.div_le_lower_bound; lia.
    - apply Z.div_lt_upper_bound; lia. }
  destruct (Z.eqb_spec s (10 ^ k)) as [Hcarry|Hnocarry].
  - apply (print_digits_parse negative 1 1 (n + 1) x); try done.
    + lia.
    + rewrite Z.mul_1_l. replace (n + 1 - 1) with n by lia.
      rewrite <- Hhigh, <- Hcarry. exact Hround.
  - apply (print_digits_parse negative s k n x); try done. lia.
Qed.

Lemma NumberToString_parse (negative : bool) (x : Z) (rest : string) :
  0 <= x -> round_double x = x -> x < 2 ^ 1024 -> numeric_end rest ->
  parse_unsigned negative
    ((if x <=? 2 ^ 53 then decimal x else large_to_string x) +:+ rest)
  = Some (if negative then - x else x, rest).
Proof.
  intros Hpos Hx Hfinite Hrest.
  destruct (Z.leb_spec x (2 ^ 53)) as [Hsmall|Hlarge].
  - destruct (Z.eq_dec x 0) as [->|Hnz].
    + change (decimal 0 +:+ rest) with (String "0" rest).
      rewrite (parse_unsigned_zero negative rest Hrest). by destruct negative.
    + destruct (decimal_shape x ltac:(lia)) as (c & D & Heq & Hc & Hc0 & HD & Hval).
      rewrite Heq. cbn [String.append].
      rewrite parse_unsigned_digits; try done; by rewrite Hval, Hx.
  - apply large_to_string_parse; try done.
    assert (0 < 2 ^ 53) by done. lia.
Qed.

Lemma round_double_abs (n : Z) :
  round_double n = n -> round_double (Z.abs n) = Z.abs n.
Proof.
  intros Hn. destruct (Z.abs_spec n) as [[_ ->]|[Hneg ->]]; [done|].
  revert Hn. unfold round_double. rewrite Z.abs_opp.
  destruct (Z.abs n <? 2 ^ 53); [done|].
  rewrite Z.sgn_opp. lia.
Qed.

Lemma parse_number_roundtrip (n : Z) (rest : string) :
  is_double n = true -> numeric_end rest ->
  parse_number (NumberToString n +:+ rest) = Some (n, rest).
Proof.
  intros [Hround%Z.eqb_eq Hfinite%Z.ltb_lt]%andb_prop Hrest.
  unfold NumberToString. rewrite (round_double_abs n Hround).
  pose proof (NumberToString_parse (n <? 0) (Z.abs n) rest
                ltac:(lia) (round_double_abs n Hround) Hfinite Hrest) as Hparse.
  unfold parse_number. destruct (Z.ltb_spec n 0) as [Hneg|Hpos].
  - cbn [String.append parse_sign]. change (code "-" =? 45) with true.
    cbv iota. rewrite Hparse. f_equal. f_equal. lia.
  - assert (parse_sign ((if Z.abs n <=? 2 ^ 53 then decimal (Z.abs n)
                         else large_to_string (Z.abs n)) +:+ rest)
            = (false, (if Z.abs n <=? 2 ^ 53 then decimal (Z.abs n)
                       else large_to_string (Z.abs n)) +:+ rest)) as ->.
    { unfold parse_unsigned in Hparse.
      destruct ((if Z.abs n <=? 2 ^ 53 then decimal (Z.abs n)
                 else large_to_string (Z.abs n)) +:+ rest) as [|c s];
        [done|].
      cbn [parse_sign]. destruct (Z.eqb_spec (code c) 45) as [Hc|]; [|done].
      assert (c = "-"%char) as -> by by apply code_inj. discriminate Hparse. }
    rewrite Hparse. f_equal. f_equal. lia.
Qed.

(** *** White space and what follows a value *)

Lemma skip_ws_app (ws s : string) :
  all_ws ws = true -> skip_ws (ws +:+ s) = skip_ws s.
Proof.
  induction ws as [|c ws IH]; simpl; [done|].
  intros [Hc Hws]%andb_prop. rewrite Hc. by apply IH.
Qed.

Lemma all_ws_app (a b : string) :
  all_ws (a +:+ b) = all_ws a && all_ws b.
Proof.
  induction a as [|c a IH]; simpl; [done|]. rewrite IH. by destruct (is_ws c).
Qed.

Lemma delimited_numeric_end (rest : string) :
  delimited rest = true -> numeric_end rest.
Proof.
  destruct rest as [|c r]; simpl; [done|].
  unfold is_ws, is_digit. intros H.
  repeat apply orb_prop in H as [H|H]; apply Z.eqb_eq in H; rewrite H;
    repeat split; done.
Qed.

Lemma delimited_closing (closing : string) (c : ascii) (rest : string) :
  all_ws closing = true -> delimited (String c rest) = true ->
  delimited (closing +:+ String c rest) = true.
Proof.
  destruct closing as [|w closing]; [done|].
  intros [Hw _]%andb_prop _. simpl. by rewrite Hw.
Qed.

Lemma all_ws_line_break (gap indent : string) :
  all_ws indent = true -> all_ws (line_break gap indent) = true.
Proof. intros H. unfold line_break. by destruct (is_empty gap). Qed.

Lemma colon_shape (gap : string) :
  exists sp, colon gap = String ":" sp /\ all_ws sp = true.
Proof. unfold colon. destruct (is_empty gap); by eexists. Qed.

(** *** One value *)

Lemma parse_value_ws (fuel : nat) (ws s : string) :
  all_ws ws = true -> parse_value fuel (ws +:+ s) = parse_value fuel s.
Proof. intros H. destruct fuel; [done|]. simpl. by rewrite skip_ws_app. Qed.

(** A value does not begin with a closing bracket. *)
Lemma parse_value_head (fuel : nat) (s : string) (r : JSValue * string) :
  parse_value fuel s = Some r ->
  exists c s', skip_ws s = String c s' /\ code c <> 93 /\ code c <> 125.
Proof.
  destruct fuel; [done|]. cbn [parse_value].
  destruct (skip_ws s) as [|c s']; [done|].
  intros H. exists c, s'. split; [done|].
  split; intros Hc.
  - assert (c = "]"%char) as -> by by apply code_inj. discriminate H.
  - assert (c = "}"%char) as -> by by apply code_inj. discriminate H.
Qed.

Lemma parse_number_head (c : ascii) (s : string) (r : Z * string) :
  parse_number (String c s) = Some r -> is_digit c = true \/ code c = 45.
Proof.
  unfold parse_number. cbn [parse_sign].
  destruct (Z.eqb_spec (code c) 45) as [|_]; [by right|].
  unfold parse_unsigned. cbn [parse_int].
  destruct (Z.eqb_spec (code c) 48) as [Hzero|_].
  - intros _. left. unfold is_digit. by rewrite Hzero.
  - destruct (is_digit c); [by left|done].
Qed.

Lemma parse_value_number (fuel : nat) (c : ascii) (s : string) :
  is_digit c = true \/ code c = 45 ->
  parse_value (S fuel) (String c s)
  = match parse_number (String c s) with
    | Some (z, r) => Some (JNumber z, r)
    | None => None
    end.
Proof.
  intros Hc.
  assert (code c = 45 \/ 48 <= code c <= 57) as Hcode.
  { destruct Hc as [Hd|Hc]; [right|by left].
    unfold is_digit in Hd. apply andb_prop in Hd as [H1%Z.leb_le H2%Z.leb_le].
    done. }
  assert (is_ws c = false) as Hws.
  { unfold is_ws.
    repeat match goal with
           | |- context [code c =? ?k] =>
               replace (code c =? k) with false
                 by (symmetry; apply Z.eqb_neq; lia)
           end.
    done. }
  cbn [parse_value skip_ws]. rewrite Hws.
  repeat match goal with
         | |- context [code c =? ?k] =>
             replace (code c =? k) with false
               by (symmetry; apply Z.eqb_neq; lia)
         end.
  done.
Qed.

Section Values.
Variable gap : string.
Hypothesis gap_ws : all_ws gap = true.

Lemma roundtrips_null : roundtrips gap JNull.
Proof. intros indent rest [|fuel] _ _ Hf; [simpl in Hf; lia|]. reflexivity. Qed.

Lemma roundtrips_bool (b : bool) : roundtrips gap (JBool b).
Proof.
  intros indent rest [|fuel] _ _ Hf; [simpl in Hf; lia|]. by destruct b.
Qed.

Lemma roundtrips_string (s : string) : roundtrips gap (JString s).
Proof.
  intros indent rest [|fuel] _ _ Hf; [simpl in Hf; lia|].
  cbn [serialize]. unfold QuoteJSONString.
  cbn [String.append parse_value skip_ws]. simpl.
  rewrite sapp_assoc.
  change (String quote EmptyString +:+ rest) with (String quote rest).
  by rewrite parse_chars_escape.
Qed.

Lemma roundtrips_number (n : Z) :
  is_double n = true -> roundtrips gap (JNumber n).
Proof.
  intros Hn indent rest [|fuel] _ Hrest Hf; [simpl in Hf; lia|].
  cbn [serialize].
  pose proof (parse_number_roundtrip n rest Hn
                (delimited_numeric_end rest Hrest)) as Hparse.
  destruct (NumberToString n +:+ rest) as [|c s]; [done|].
  by rewrite (parse_value_number fuel c s (parse_number_head c s _ Hparse)),
       Hparse.
Qed.

(** *** Arrays *)

Lemma join_length_elem (sep p : string) (parts : list string) :
  p ∈ parts -> (String.length p <= String.length (join sep parts))%nat.
Proof.
  induction parts as [|q [|q' parts] IH].
  - by intros ?%elem_of_nil.
  - intros Heq%list_elem_of_singleton. by subst.
  - intros [Heq|Hin]%elem_of_cons.
    + subst. change (join sep (q :: q' :: parts))
        with (q +:+ sep +:+ join sep (q' :: parts)).
      rewrite slength_app. lia.
    + change (join sep (q :: q' :: parts))
        with (q +:+ sep +:+ join sep (q' :: parts)).
      rewrite !slength_app. specialize (IH Hin). lia.
Qed.

Lemma join_length_count (sep : string) (parts : list string) :
  (1 <= String.length sep)%nat ->
  (List.length parts <= S (String.length (join sep parts)))%nat.
Proof.
  intros Hsep. induction parts as [|q [|q' parts] IH]; [simpl; lia..|].
  change (join sep (q :: q' :: parts))
    with (q +:+ sep +:+ join sep (q' :: parts)).
  rewrite !slength_app. simpl in *. lia.
Qed.

Lemma parse_elements_head (pv : string -> option (JSValue * string))
    (k : nat) (s : string) (acc : list JSValue) (x : JSValue * string) :
  parse_elements pv k s acc = Some x -> exists r, pv s = Some r.
Proof.
  destruct k; [done|]. simpl. destruct (pv s) as [r|]; [by exists r|done].
Qed.

Lemma parse_elements_roundtrip (f : nat) (indent : string)
    (es : list JSValue) :
  all_ws indent = true ->
  Forall (roundtrips gap) es -> es <> [] ->
  Forall (fun e => (String.length (serialize gap indent e) < f)%nat) es ->
  forall (k : nat) (acc : list JSValue) (closing rest : string),
    (List.length es <= k)%nat -> all_ws closing = true ->
    parse_elements (parse_value f) k
      (line_break gap indent
       +:+ join (String "," (line_break gap indent))
             (map (serialize gap indent) es)
       +:+ closing +:+ String "]" rest) acc
    = Some (JArray (acc ++ es), rest).
Proof.
  intros Hindent Hes Hne Hlen.
  pose proof (all_ws_line_break gap indent Hindent) as Hlb.
  induction es as [|e es IH]; [done|]. clear Hne.
  intros k acc closing rest Hk Hclosing.
  rewrite Forall_cons in Hes, Hlen.
  destruct Hes as [He Hes]. destruct Hlen as [Hl Hlen].
  destruct k as [|k]; [simpl in Hk; lia|].
  destruct es as [|e' es].
  - cbn [map join parse_elements].
    rewrite parse_value_ws by done.
    rewrite (He indent (closing +:+ String "]" rest) f)
      by (done || by apply delimited_closing).
    rewrite skip_ws_app by done. done.
  - change (join (String "," (line_break gap indent))
              (map (serialize gap indent) (e :: e' :: es)))
      with (serialize gap indent e
            +:+ String "," (line_break gap indent)
            +:+ join (String "," (line_break gap indent))
                  (map (serialize gap indent) (e' :: es))).
    rewrite !sapp_assoc. cbn [parse_elements].
    rewrite parse_value_ws by done.
    change (String "," (line_break gap indent)
            +:+ join (String "," (line_break gap indent))
                  (map (serialize gap indent) (e' :: es))
            +:+ closing +:+ String "]" rest)
      with (String ","
              (line_break gap indent
               +:+ join (String "," (line_break gap indent))
                     (map (serialize gap indent) (e' :: es))
               +:+ closing +:+ String "]" rest)).
    rewrite (He indent _ f) by done.
    cbn [skip_ws]. change (is_ws ",") with false. cbv iota.
    change (code "," =? 44) with true. cbv iota.
    rewrite IH by (done || simpl in *; lia).
    by rewrite <- app_assoc.
Qed.

Lemma roundtrips_array (es : list JSValue) :
  Forall (roundtrips gap) es -> roundtrips gap (JArray es).
Proof.
  intros Hes indent rest [|f] Hindent Hrest Hf; [simpl in Hf; lia|].
  destruct es as [|e es]; [reflexivity|].
  set (inner := indent +:+ gap).
  assert (all_ws inner = true) as Hinner.
  { unfold inner. by rewrite all_ws_app, Hindent, gap_ws. }
  set (sep := String "," (line_break gap inner)).
  set (parts := map (serialize gap inner) (e :: es)).
  assert (serialize gap indent (JArray (e :: es))
          = String "[" (line_break gap inner +:+ join sep parts
                        +:+ line_break gap indent +:+ "]")) as Htext by done.
  rewrite Htext in *. clear Htext.
  cbn [String.length] in Hf. rewrite !slength_app in Hf.
  assert (parse_elements (parse_value f) f
            (line_break gap inner +:+ join sep parts
             +:+ line_break gap indent +:+ String "]" rest) []
          = Some (JArray (e :: es), rest)) as Hloop.
  { apply (parse_elements_roundtrip f inner (e :: es) Hinner Hes).
    - done.
    - apply Forall_forall. intros x Hx.
      assert (serialize gap inner x ∈ parts) as Hin.
      { unfold parts. apply list_elem_of_fmap. by exists x. }
      pose proof (join_length_elem sep _ _ Hin). lia.
    - pose proof (join_length_count sep parts) as Hcount.
      unfold parts in Hcount at 1. rewrite List.length_map in Hcount.
      specialize (Hcount ltac:(simpl; lia)). lia.
    - by apply all_ws_line_break. }
  destruct (parse_elements_head _ _ _ _ _ Hloop) as [r Hr].
  destruct (parse_value_head _ _ _ Hr) as (c & s' & Hskip & Hc & _).
  cbn [String.append parse_value skip_ws].
  change (is_ws "[") with false. cbv iota.
  change (code "[" =? 110) with false. change (code "[" =? 116) with false.
  change (code "[" =? 102) with false. change (code "[" =? 34) with false.
  change (code "[" =? 91) with true. cbv iota.
  rewrite !sapp_assoc.
  change (String "]" EmptyString +:+ rest) with (String "]" rest).
  rewrite Hskip. apply Z.eqb_neq in Hc. rewrite Hc. exact Hloop.
Qed.

(** *** Objects *)

Lemma set_field_fresh (key : string) (v : JSValue)
    (acc : list (string * JSValue)) :
  key ∉ acc.*1 -> set_field key v acc = acc ++ [(key, v)].
Proof.
  induction acc as [|[k' v'] acc IH]; simpl; [done|].
  intros Hnotin. apply not_elem_of_cons in Hnotin as [Hne Hnotin].
  apply String.eqb_neq in Hne. rewrite Hne. by rewrite IH.
Qed.

Lemma parse_member_step (f k : nat) (indent ws key : string) (v : JSValue)
    (following : string) (acc : list (string * JSValue)) :
  roundtrips gap v -> all_ws indent = true -> all_ws ws = true ->
  (String.length (serialize gap indent v) < f)%nat ->
  delimited following = true -> key ∉ acc.*1 ->
  parse_members (parse_value f) (S k)
    (ws +:+ (QuoteJSONString key +:+ colon gap +:+ serialize gap indent v)
     +:+ following) acc
  = match skip_ws following with
    | String c r4 =>
        if code c =? 44
        then parse_members (parse_value f) k r4 (acc ++ [(key, v)])
        else if code c =? 125 then Some (JObject (acc ++ [(key, v)]), r4)
        else None
    | EmptyString => None
    end.
Proof.
  intros Hv Hindent Hws Hlen Hfollowing Hfresh.
  cbn [parse_members]. rewrite skip_ws_app by done.
  unfold QuoteJSONString. rewrite !sapp_assoc.
  cbn [String.append skip_ws]. change (is_ws quote) with false. cbv iota.
  change (code quote =? 34) with true. cbv iota.
  rewrite !sapp_assoc.
  change (String quote EmptyString
          +:+ colon gap +:+ serialize gap indent v +:+ following)
    with (String quote (colon gap +:+ serialize gap indent v +:+ following)).
  rewrite parse_chars_escape.
  destruct (colon_shape gap) as (sp & -> & Hsp).
  cbn [String.append skip_ws]. change (is_ws ":") with false. cbv iota.
  change (code ":" =? 58) with true. cbv iota.
  rewrite parse_value_ws by done.
  rewrite (Hv indent following f) by done.
  by rewrite set_field_fresh.
Qed.

Lemma parse_members_roundtrip (f : nat) (indent : string)
    (fields : list (string * JSValue)) :
  all_ws indent = true ->
  Forall (fun kv => roundtrips gap kv.2) fields -> fields <> [] ->
  NoDup fields.*1 ->
  Forall (fun kv => (String.length (serialize gap indent kv.2) < f)%nat)
         fields ->
  forall (k : nat) (acc : list (string * JSValue)) (closing rest : string),
    (List.length fields <= k)%nat -> all_ws closing = true ->
    (forall key, key ∈ fields.*1 -> key ∉ acc.*1) ->
    parse_members (parse_value f) k
      (line_break gap indent
       +:+ join (String "," (line_break gap indent))
             (map (fun kv => QuoteJSONString kv.1 +:+ colon gap
                             +:+ serialize gap indent kv.2) fields)
       +:+ closing +:+ String "}" rest) acc
    = Some (JObject (acc ++ fields), rest).
Proof.
  intros Hindent Hfields Hne Hnodup Hlen.
  pose proof (all_ws_line_break gap indent Hindent) as Hlb.
  induction fields as [|[key v] fields IH]; [done|]. clear Hne.
  intros k acc closing rest Hk Hclosing Hfresh.
  rewrite Forall_cons in Hfields, Hlen.
  destruct Hfields as [Hv Hfields]. destruct Hlen as [Hl Hlen].
  cbn [fmap list_fmap fst] in Hnodup. apply NoDup_cons in Hnodup as [Hkey Hnodup].
  destruct k as [|k]; [simpl in Hk; lia|].
  assert (key ∉ acc.*1) as Hkeyacc.
  { apply Hfresh. simpl. apply elem_of_cons. by left. }
  destruct fields as [|kv' fields].
  - cbn [map join fst snd].
    rewrite (parse_member_step f k indent) by (done || by apply delimited_closing).
    rewrite skip_ws_app by done. done.
  - change (join (String "," (line_break gap indent))
              (map (fun kv => QuoteJSONString kv.1 +:+ colon gap
                              +:+ serialize gap indent kv.2)
                   ((key, v) :: kv' :: fields)))
      with ((QuoteJSONString key +:+ colon gap +:+ serialize gap indent v)
            +:+ String "," (line_break gap indent)
            +:+ join (String "," (line_break gap indent))
                  (map (fun kv => QuoteJSONString kv.1 +:+ colon gap
                                  +:+ serialize gap indent kv.2)
                       (kv' :: fields))).
    rewrite (sapp_assoc (QuoteJSONString key +:+ colon gap
                         +:+ serialize gap indent v)).
    rewrite (parse_member_step f k indent) by done.
    rewrite !sapp_assoc.
    cbn [String.append skip_ws]. change (is_ws ",") with false. cbv iota.
    change (code "," =? 44) with true. cbv iota.
    rewrite IH; [by rewrite <- app_assoc|done..| |done|].
    + simpl in *. lia.
    + intros key' Hin. rewrite fmap_app. intros [Hacc|Hnew]%elem_of_app.
      * revert Hacc. apply Hfresh. simpl. apply elem_of_cons. by right.
      * simpl in Hnew. apply list_elem_of_singleton in Hnew. subst. done.
Qed.

Lemma roundtrips_object (fields : list (string * JSValue)) :
  NoDup fields.*1 -> Forall (fun kv => roundtrips gap kv.2) fields ->
  roundtrips gap (JObject fields).
Proof.
  intros Hnodup Hfields indent rest [|f] Hindent Hrest Hf; [simpl in Hf; lia|].
  destruct fields as [|kv fields]; [reflexivity|].
  set (inner := indent +:+ gap).
  assert (all_ws inner = true) as Hinner.
  { unfold inner. by rewrite all_ws_app, Hindent, gap_ws. }
  set (sep := String "," (line_break gap inner)).
  set (member := fun kv : string * JSValue =>
                   QuoteJSONString kv.1 +:+ colon gap
                   +:+ serialize gap inner kv.2).
  set (parts := map member (kv :: fields)).
  assert (serialize gap indent (JObject (kv :: fields))
          = String "{" (line_break gap inner +:+ join sep parts
                        +:+ line_break gap indent +:+ "}")) as Htext by done.
  rewrite Htext in *. clear Htext.
  cbn [String.length] in Hf. rewrite !slength_app in Hf.
  assert (parse_members (parse_value f) f
            (line_break gap inner +:+ join sep parts
             +:+ line_break gap indent +:+ String "}" rest) []
          = Some (JObject (kv :: fields), rest)) as Hloop.
  { apply (parse_members_roundtrip f inner (kv :: fields) Hinner Hfields).
    - done.
    - done.
    - apply Forall_forall. intros x Hx.
      assert (member x ∈ parts) as Hin.
      { unfold parts. apply list_elem_of_fmap. by exists x. }
      pose proof (join_length_elem sep _ _ Hin) as Hle.
      unfold member in Hle at 1. rewrite !slength_app in Hle. lia.
    - pose proof (join_length_count sep parts) as Hcount.
      unfold parts in Hcount at 1. rewrite List.length_map in Hcount.
      specialize (Hcount ltac:(simpl; lia)). lia.
    - by apply all_ws_line_break.
    - intros key _. simpl. apply not_elem_of_nil. }
  cbn [String.append parse_value skip_ws].
  change (is_ws "{") with false. cbv iota.
  change (code "{" =? 110) with false. change (code "{" =? 116) with false.
  change (code "{" =? 102) with false. change (code "{" =? 34) with false.
  change (code "{" =? 91) with false. change (code "{" =? 123) with true.
  cbv iota. rewrite !sapp_assoc.
  change (String "}" EmptyString +:+ rest) with (String "}" rest).
  assert (exists r, skip_ws (line_break gap inner +:+ join sep parts
                             +:+ line_break gap indent +:+ String "}" rest)
                    = String quote r) as [r Hskip].
  { rewrite skip_ws_app by by apply all_ws_line_break.
    unfold parts. destruct fields as [|kv' fields].
    - cbn [map join]. unfold member, QuoteJSONString. by eexists.
    - change (join sep (map member (kv :: kv' :: fields)))
        with (member kv +:+ sep +:+ join sep (map member (kv' :: fields))).
      unfold member at 1. unfold QuoteJSONString. by eexists. }
  rewrite Hskip. change (code quote =? 125) with false. cbv iota.
  exact Hloop.
Qed.

(** *** A whole text *)

Lemma parse_stringify (v : JSValue) :
  roundtrips gap v -> parse (stringify gap v) = Some v.
Proof.
  intros Hv. unfold parse, stringify.
  pose proof (Hv EmptyString EmptyString
                (S (String.length (serialize gap EmptyString v)))
                eq_refl eq_refl ltac:(lia)) as Hparse.
  rewrite sapp_nil_r in Hparse. by rewrite Hparse.
Qed.

(** *** Every value of the language *)

Lemma JSValue_nested_ind (P : JSValue -> Prop) :
  P JNull -> (forall b, P (JBool b)) -> (forall n, P (JNumber n)) ->
  (forall s, P (JString s)) ->
  (forall elements, Forall P elements -> P (JArray elements)) ->
  (forall fields, Forall (fun kv => P kv.2) fields -> P (JObject fields)) ->
  forall v, P v.
Proof.
  intros Hnull Hbool Hnumber Hstring Harray Hobject.
  fix IH 1. intros [|b|n|s|elements|fields].
  - exact Hnull.
  - apply Hbool.
  - apply Hnumber.
  - apply Hstring.
  - apply Harray. induction elements as [|e elements IHl]; constructor.
    + apply IH.
    + exact IHl.
  - apply Hobject. induction fields as [|[k e] fields IHl]; constructor.
    + apply IH.
    + exact IHl.
Qed.

Lemma wellformed_roundtrips (v : JSValue) :
  wellformed v = true -> roundtrips gap v.
Proof.
  induction v as [|b|n|s|elements IH|fields IH] using JSValue_nested_ind;
    intros Hw.
  - apply roundtrips_null.
  - apply roundtrips_bool.
  - by apply roundtrips_number.
  - apply roundtrips_string.
  - apply roundtrips_array. simpl in Hw.
    induction IH as [|e elements He _ IHl]; [constructor|].
    simpl in Hw. apply andb_prop in Hw as [Hwe Hwl].
    constructor; [by apply He|by apply IHl].
  - simpl in Hw. apply andb_prop in Hw as [Hnodup Hw].
    apply bool_decide_eq_true in Hnodup.
    apply roundtrips_object; [done|]. clear Hnodup.
    induction IH as [|kv fields He _ IHl]; [constructor|].
    simpl in Hw. apply andb_prop in Hw as [Hwe Hwl].
    constructor; [by apply He|by apply IHl].
Qed.

(** What [stringify] writes for a value of the language, [parse] reads as
    that value. *)
Lemma parse_stringify_wellformed (v : JSValue) :
  wellformed v = true -> parse (stringify gap v) = Some v.
Proof. intros Hw. by apply parse_stringify, wellformed_roundtrips. Qed.

End Values.

End JSONFacts.

(** *** C8: import *)

Lemma in_op_true (key : string) (v : JSValue) :
  in_op key v = Some true
  <-> exists fields, v = JObject fields /\ key ∈ fields.*1.
Proof.
  destruct v as [|b|n|s|l|fields]; simpl;
    try (split; [done|by intros (f & ? & ?)]).
  split.
  - intros [= H%bool_decide_eq_true]. by exists fields.
  - intros (f & [= <-] & H). f_equal. by apply bool_decide_eq_true.
Qed.

Lemma every_id_title_true (l : list JSValue) :
  every_id_title l = Some true <-> Forall has_id_and_title l.
Proof.
  induction l as [|v l IH]; simpl.
  - split; [constructor|done].
  - rewrite Forall_cons, <- IH. unfold has_id_and_title. split.
    + destruct (in_op "id" v) as [[]|] eqn:Hid; try done.
      destruct (in_op "title" v) as [[]|] eqn:Htitle; try done.
      intros Hrest. split; [|done].
      apply in_op_true in Hid as (f & -> & Hid).
      apply in_op_true in Htitle as (f' & [= <-] & Htitle).
      by exists f.
    + intros [(f & -> & Hid & Htitle) Hrest].
      rewrite (proj2 (in_op_true "id" (JObject f))) by by exists f.
      rewrite (proj2 (in_op_true "title" (JObject f))) by by exists f.
      done.
Qed.

(** C8. For every document and every stored collection, the import succeeds
    (shows the success toast) exactly when the document parses as JSON to an
    array in which every element has at least an ["id"] and a ["title"]
    field; then the parsed array replaces the stored collection as a whole.
    In every other case (a parse error, a value that is not an array, an
    element without the two fields) the error toast is shown and the stored
    collection is the one it was. *)
Theorem import_all_or_nothing (JSON_parse : string -> option JSValue)
    (text : string) (tasks : list JSValue) :
  let result := importTasks JSON_parse text tasks in
  (valid_document JSON_parse text
   <-> exists description, snd result = ToastSuccess description)
  /\ (forall l, JSON_parse text = Some (JArray l) ->
                Forall has_id_and_title l ->
                result = (l, ToastSuccess "Your tasks have been imported."))
  /\ (~ valid_document JSON_parse text ->
      result
      = (tasks, ToastError "Could not import tasks. Invalid JSON file.")).
Proof.
  unfold valid_document, importTasks.
  destruct (JSON_parse text) as [[|b|n|s|l|fields]|] eqn:Hparse; simpl;
    try (split; [split; [by intros (? & ? & ?)|by intros [? ?]]
                |split; [by intros ? ? | done]]).
  destruct (every_id_title l) as [[]|] eqn:Hevery; simpl.
  - apply every_id_title_true in Hevery. split; [|split].
    + split; [by eexists|]. intros _. by exists l.
    + by intros l' [= <-] _.
    + intros Hno. destruct Hno. by exists l.
  - assert (~ Forall has_id_and_title l) as Hno.
    { intros H%every_id_title_true. congruence. }
    split; [|split].
    + split; [|by intros [? ?]]. by intros (l' & [= <-] & H).
    + by intros l' [= <-] H.
    + done.
  - assert (~ Forall has_id_and_title l) as Hno.
    { intros H%every_id_title_true. congruence. }
    split; [|split].
    + split; [|by intros [? ?]]. by intros (l' & [= <-] & H).
    + by intros l' [= <-] H.
    + done.
Qed.

(** A syntax error, a value that is not an array, an array of a number and
    an array of an array are refused and leave the collection as it is; the
    empty array is accepted and replaces it. *)
Example import_examples :
  let stored := [js_of_task taskA] in
  let refused :=
    (stored, ToastError "Could not import tasks. Invalid JSON file.") in
  importTasks JSON.parse "[" stored = refused
  /\ importTasks JSON.parse "{}" stored = refused
  /\ importTasks JSON.parse "[5]" stored = refused
  /\ importTasks JSON.parse "[[]]" stored = refused
  /\ importTasks JSON.parse "[]" stored
     = ([], ToastSuccess "Your tasks have been imported.").
Proof. vm_compute. repeat split. Qed.

(** *** C9: export, then import *)

Lemma subtask_of_js_of_subtask (sub : Subtask.t) :
  subtask_of_js (js_of_subtask sub) = Some sub.
Proof. by destruct sub. Qed.

Lemma mapM_subtasks (subs : list Subtask.t) :
  mapM subtask_of_js (map js_of_subtask subs) = Some subs.
Proof.
  apply mapM_Some. induction subs as [|sub subs IH]; simpl; constructor.
  - apply subtask_of_js_of_subtask.
  - exact IH.
Qed.

Lemma get_field_app {A} (key k : string) (enc : A -> JSValue)
    (x : option A) (rest : list (string * JSValue)) :
  get key (field k enc x ++ rest)
  = if String.eqb k key
    then match x with Some a => Some (enc a) | None => get key rest end
    else get key rest.
Proof. destruct x; simpl; by destruct (String.eqb k key). Qed.

Lemma task_of_js_of_task (task : Task.t) :
  task_of_js (js_of_task task) = Some task.
Proof.
  destruct task as [id title description type dueDate startTime imageUrl
                    completed completedAt subtasks isRecurring
                    recurringInterval recurringIntervalUnit repetitions].
  unfold task_of_js, js_of_task. cbn [Task.id Task.title Task.description
    Task.type Task.dueDate Task.startTime Task.imageUrl Task.completed
    Task.completedAt Task.subtasks Task.isRecurring Task.recurringInterval
    Task.recurringIntervalUnit Task.repetitions].
  simpl. repeat (rewrite get_field_app; simpl).
  destruct type; simpl; rewrite mapM_subtasks; simpl;
    destruct repetitions, description, dueDate, startTime, imageUrl,
      completedAt, isRecurring, recurringInterval; simpl;
    destruct recurringIntervalUnit as [[]|]; reflexivity.
Qed.

Lemma mapM_tasks (tasks : list Task.t) :
  mapM task_of_js (map js_of_task tasks) = Some tasks.
Proof.
  apply mapM_Some. induction tasks as [|task tasks IH]; simpl; constructor.
  - apply task_of_js_of_task.
  - exact IH.
Qed.

Lemma js_of_task_has_id_and_title (task : Task.t) :
  has_id_and_title (js_of_task task).
Proof.
  eexists. split; [reflexivity|]. simpl. split.
  - apply elem_of_cons. by left.
  - apply elem_of_cons. right. apply elem_of_cons. by left.
Qed.

(** C9. For every collection of task objects (every element has an ["id"]
    and a ["title"]; the values are values of the language: numbers are
    doubles and no object lists a key twice), the document [exportTasks]
    writes with [JSON.stringify(tasks, null, 2)] is accepted by
    [importTasks], and the collection stored afterwards is the collection
    that was exported, value for value, whatever was stored before; read as
    tasks, it is the list of tasks that was exported. *)
Theorem export_import_roundtrip (tasks current : list JSValue) :
  Forall has_id_and_title tasks ->
  JSON.wellformed (JArray tasks) = true ->
  let document := exportTasks (JSON.stringify "  ") tasks in
  importTasks JSON.parse document current
  = (tasks, ToastSuccess "Your tasks have been imported.")
  /\ (forall typed : list Task.t,
        tasks = map js_of_task typed ->
        mapM task_of_js (fst (importTasks JSON.parse document current))
        = Some typed).
Proof.
  intros Hshape Hwf document.
  assert (importTasks JSON.parse document current
          = (tasks, ToastSuccess "Your tasks have been imported."))
    as Himport.
  { unfold importTasks, document, exportTasks.
    rewrite (JSONFacts.parse_stringify_wellformed "  " eq_refl _ Hwf).
    by rewrite (proj2 (every_id_title_true tasks) Hshape). }
  split; [exact Himport|].
  intros typed ->. rewrite Himport. apply mapM_tasks.
Qed.

Lemma export_import_roundtrip_witness :
  importTasks JSON.parse
    (exportTasks (JSON.stringify "  ")
       (map js_of_task [taskA; recurring "R" false None 3]))
    [js_of_task taskC]
  = (map js_of_task [taskA; recurring "R" false None 3],
     ToastSuccess "Your tasks have been imported.").
Proof.
  refine (proj1 (export_import_roundtrip
                   (map js_of_task [taskA; recurring "R" false None 3])
                   [js_of_task taskC] _ _)).
  - repeat constructor; apply js_of_task_has_id_and_title.
  - vm_compute. reflexivity.
Defined.

(** The text of an export is an array of two objects on indented lines;
    texts written and read, among them numbers above [2 ^ 53]. *)
Example export_text :
  String.length (exportTasks (JSON.stringify "  ")
                   (map js_of_task [taskA; recurring "R" false None 3]))
  = 531%nat
  /\ JSON.stringify EmptyString (JArray [JNumber (-12); JString "a\b"])
     = "[-12," +:+ String JSON.quote ("a\\b" +:+ String JSON.quote "]")
  /\ JSON.parse "[1, 2.50e1, {}, [ ], 9007199254740993]"
     = Some (JArray [JNumber 1; JNumber 25; JObject []; JArray [];
                     JNumber 9007199254740992])
  /\ JSON.parse "[1,]" = None
  /\ JSON.parse "01" = None
  /\ JSON.parse "[1] x" = None
  /\ JSON.stringify EmptyString (JNumber (2 ^ 60)) = "1152921504606847000"
  /\ JSON.parse "1152921504606847000" = Some (JNumber (2 ^ 60))
  /\ JSON.stringify EmptyString (JNumber (2 ^ 70)) = "1.1805916207174113e+21"
  /\ JSON.parse "1.1805916207174113e+21" = Some (JNumber (2 ^ 70)).
Proof. vm_compute. repeat split. Qed.

(** ** Further properties of the engine *)

Lemma ids_ne_Forall (id : string) (l : list Task.t) :
  id ∉ map Task.id l <-> Forall (fun x => Task.id x <> id) l.
Proof.
  split; [apply not_elem_ids|].
  intros H [x [-> Hx]]%list_elem_of_fmap.
  by apply (proj1 (Forall_forall _ _) H x).
Qed.

(** *** Deleting *)

(** X1. After [deleteTask] no task of the collection carries the id (every
    task with that id is removed, not only the first); the tasks with
    another id are kept, in their order; deleting again changes nothing; and
    an update for the deleted id, arriving late, is a no-op. *)
Theorem deleteTask_removes_all (uuidv4 : nat -> string) (id : string)
    (updates : Partial.t) (prev : list Task.t) (n : nat) :
  (forall t : Task.t, t ∈ deleteTask id prev <-> t ∈ prev /\ Task.id t <> id)
  /\ (id ∉ map Task.id (deleteTask id prev))
  /\ (deleteTask id prev `sublist_of` prev)
  /\ deleteTask id (deleteTask id prev) = deleteTask id prev
  /\ updateTask uuidv4 id updates (deleteTask id prev) n
     = (deleteTask id prev, n).
Proof.
  assert (Forall (fun x => Task.id x <> id) (deleteTask id prev)) as Hgone.
  { apply Forall_forall. by intros t [Ht _]%list_elem_of_filter. }
  split; [|split; [|split; [|split]]].
  - intros t. unfold deleteTask. rewrite list_elem_of_filter. tauto.
  - by apply ids_ne_Forall.
  - apply sublist_filter.
  - by apply deleteTask_absent.
  - by apply updateTask_absent.
Qed.

(** *** When [updateTask] appends *)

(** X2. [updateTask] calls the id generator and appends a task exactly when
    the collection has a task with the id, the update sets [completed] to
    [true], and the first such task is recurring with more than one
    repetition left; the collection grows by one then, and keeps its length
    otherwise (an update that unticks, a task that is not recurring, a task
    without [repetitions], one repetition left). *)
Theorem updateTask_appends_iff (uuidv4 : nat -> string) (id : string)
    (updates : Partial.t) (prev : list Task.t) (n : nat) :
  (snd (updateTask uuidv4 id updates prev n) = S n
   <-> exists l1 t l2 reps,
         prev = l1 ++ t :: l2
         /\ Forall (fun x => Task.id x <> id) l1
         /\ Task.id t = id
         /\ Partial.completed updates = Some true
         /\ Task.isRecurring t = Some true
         /\ Task.repetitions t = Some reps
         /\ 1 < reps)
  /\ (snd (updateTask uuidv4 id updates prev n) = S n
      \/ snd (updateTask uuidv4 id updates prev n) = n)
  /\ length (fst (updateTask uuidv4 id updates prev n))
     = (length prev + (snd (updateTask uuidv4 id updates prev n) - n))%nat.
Proof.
  destruct (first_split (fun task => String.eqb (Task.id task) id) prev)
    as [Habs | (l1 & x & l2 & -> & Hl1 & Hx)].
  - assert (Forall (fun y => Task.id y <> id) prev) as Habs'.
    { eapply Forall_impl; [exact Habs|]. intros y. apply String.eqb_neq. }
    rewrite updateTask_absent by done. simpl.
    split; [|split; [by right|lia]].
    split; [lia|].
    intros (l1 & t & l2 & reps & -> & _ & Ht & _). exfalso.
    apply Forall_app in Habs' as [_ H]. apply Forall_cons in H as [H _]. done.
  - apply String.eqb_eq in Hx.
    assert (Forall (fun y => Task.id y <> id) l1) as Hl1'.
    { eapply Forall_impl; [exact Hl1|]. intros y. apply String.eqb_neq. }
    rewrite (updateTask_at uuidv4 id updates l1 x l2 n Hl1' Hx).
    rewrite js_sub_pos.
    destruct (truthy (Partial.completed updates)
              && truthy (Task.isRecurring x)
              && (0 <? nullish (Task.repetitions x) 0)
              && (1 <? nullish (Task.repetitions x) 1)) eqn:Hc; simpl.
    + split; [|split; [by left|]].
      * split; [|done]. intros _.
        apply andb_true_iff in Hc as [Hc H4].
        apply andb_true_iff in Hc as [Hc H3].
        apply andb_true_iff in Hc as [H1 H2].
        destruct (Partial.completed updates) as [[]|] eqn:Hu; try done.
        destruct (Task.isRecurring x) as [[]|] eqn:Hr; try done.
        destruct (Task.repetitions x) as [reps|] eqn:Hreps; try done.
        simpl in H4. apply Z.ltb_lt in H4.
        exists l1, x, l2, reps. repeat split; done.
      * rewrite !length_app. simpl. rewrite !length_app. simpl. lia.
    + split; [|split; [by right|]].
      * split; [lia|].
        intros (l1' & t & l2' & reps & Heq & Hl1'' & Ht & Hu & Hr & Hreps & Hgt).
        exfalso.
        assert (l1' = l1 /\ t = x) as [-> ->].
        { clear Hc. revert l1' Heq Hl1''.
          induction l1 as [|a l1 IH]; intros l1' Heq Hl1''.
          - destruct l1' as [|b l1']; simpl in Heq.
            + by injection Heq as ->.
            + injection Heq as -> _. apply Forall_cons in Hl1'' as [H _].
              done.
          - apply Forall_cons in Hl1' as [Ha Hl1'].
            apply Forall_cons in Hl1 as [_ Hl1].
            destruct l1' as [|b l1']; simpl in Heq.
            + injection Heq as <- _. done.
            + injection Heq as -> Heq.
              apply Forall_cons in Hl1'' as [_ Hl1''].
              destruct (IH Hl1 Hl1' l1' Heq Hl1'') as [-> ->]. done. }
        rewrite Hu, Hr, Hreps in Hc. simpl in Hc.
        apply andb_false_iff in Hc as [Hc|Hc]; apply Z.ltb_ge in Hc; lia.
      * rewrite !length_app. simpl. lia.
Qed.

(** *** Task ids stay distinct *)

Lemma spread_id (t : Task.t) (updates : Partial.t) :
  Partial.id updates = None -> Task.id (spread t updates) = Task.id t.
Proof. intros H. simpl. by rewrite H. Qed.

(** An update that does not set the id keeps the ids of the collection in
    place; the only id added is the generated one. *)
Lemma updateTask_ids (uuidv4 : nat -> string) (id : string)
    (updates : Partial.t) (prev : list Task.t) (n : nat) :
  Partial.id updates = None ->
  (map Task.id (fst (updateTask uuidv4 id updates prev n)) = map Task.id prev
   /\ snd (updateTask uuidv4 id updates prev n) = n)
  \/ (map Task.id (fst (updateTask uuidv4 id updates prev n))
      = map Task.id prev ++ [uuidv4 n]
      /\ snd (updateTask uuidv4 id updates prev n) = S n).
Proof.
  intros Hid.
  destruct (first_split (fun task => String.eqb (Task.id task) id) prev)
    as [Habs | (l1 & x & l2 & -> & Hl1 & Hx)].
  - left. rewrite updateTask_absent; [done|].
    eapply Forall_impl; [exact Habs|]. intros y. apply String.eqb_neq.
  - apply String.eqb_eq in Hx.
    assert (Forall (fun y => Task.id y <> id) l1) as Hl1'.
    { eapply Forall_impl; [exact Hl1|]. intros y. apply String.eqb_neq. }
    rewrite (updateTask_at uuidv4 id updates l1 x l2 n Hl1' Hx).
    match goal with |- context [if ?c then _ else _] => destruct c end; simpl.
    + right. split; [|done].
      rewrite !map_app. simpl. rewrite map_app. simpl.
      rewrite Hid. simpl. by rewrite <- app_assoc.
    + left. split; [|done]. rewrite !map_app. simpl. by rewrite Hid.
Qed.

Lemma NoDup_map_filter {A B} (f : A -> B) (P : A -> Prop)
    `{!forall x, Decision (P x)} (l : list A) :
  NoDup (map f l) -> NoDup (map f (filter P l)).
Proof.
  induction l as [|x l IH]; simpl; [done|].
  intros [Hx Hl]%NoDup_cons. rewrite filter_cons.
  destruct (decide (P x)); [|by apply IH].
  simpl. apply NoDup_cons. split; [|by apply IH].
  intros [y [Hy Hin]]%list_elem_of_fmap. apply Hx.
  apply list_elem_of_fmap. exists y. split; [done|].
  by apply list_elem_of_filter in Hin as [_ Hin].
Qed.

Section ReachableFacts.
Variable uuidv4 : nat -> string.
Hypothesis uuidv4_inj : forall i j, uuidv4 i = uuidv4 j -> i = j.

Lemma reachable_ids (state : list Task.t * nat) :
  reachable uuidv4 state ->
  NoDup (map Task.id (fst state))
  /\ generated_before uuidv4 (snd state) (map Task.id (fst state)).
Proof.
  assert (forall tasks n id updates,
             Partial.id updates = None ->
             NoDup (map Task.id tasks) ->
             generated_before uuidv4 n (map Task.id tasks) ->
             NoDup (map Task.id (fst (updateTask uuidv4 id updates tasks n)))
             /\ generated_before uuidv4
                  (snd (updateTask uuidv4 id updates tasks n))
                  (map Task.id (fst (updateTask uuidv4 id updates tasks n))))
    as Hupd.
  { intros tasks n id updates Hid Hnd Hgen.
    destruct (updateTask_ids uuidv4 id updates tasks n Hid)
      as [[-> ->]|[-> ->]]; [done|].
    split.
    - apply NoDup_app. split; [done|]. split; [|apply NoDup_singleton].
      intros x Hx ->%list_elem_of_singleton.
      destruct (Hgen _ Hx) as (k & Hk & Heq). apply uuidv4_inj in Heq. lia.
    - intros x [Hx| ->%list_elem_of_singleton]%elem_of_app.
      + destruct (Hgen _ Hx) as (k & Hk & ->). exists k. split; [lia|done].
      + exists n. split; [lia|done]. }
  induction 1 as [n|tasks n values due titles _ IH|tasks n now task c _ IH _
                   |tasks n now task sid c _ IH _|tasks n id _ IH]; simpl in *.
  - split; [constructor|]. intros x Hx. by apply elem_of_nil in Hx.
  - destruct IH as [Hnd Hgen]. unfold onSubmit, gbind.
    rewrite finalSubtasks_run, addTask_run. simpl.
    rewrite map_app. simpl. split.
    + apply NoDup_app. split; [done|]. split; [|apply NoDup_singleton].
      intros x Hx ->%list_elem_of_singleton.
      destruct (Hgen _ Hx) as (k & Hk & Heq). apply uuidv4_inj in Heq. lia.
    + intros x [Hx| ->%list_elem_of_singleton]%elem_of_app.
      * destruct (Hgen _ Hx) as (k & Hk & ->). exists k. split; [lia|done].
      * eexists. split; [|done]. lia.
  - destruct IH as [Hnd Hgen]. by apply Hupd.
  - destruct IH as [Hnd Hgen]. by apply Hupd.
  - destruct IH as [Hnd Hgen]. split.
    + by apply NoDup_map_filter.
    + intros x [y [-> Hy]]%list_elem_of_fmap. apply Hgen.
      apply list_elem_of_fmap. exists y. split; [done|].
      by apply list_elem_of_filter in Hy as [_ Hy].
Qed.

End ReachableFacts.

(** X3. Where the id generator never repeats a value, the task ids of every
    collection the engine builds from the empty one (by submissions, ticks
    of task and subtask checkboxes, deletions) are pairwise distinct, so a
    checkbox always updates the task it belongs to: that task is the first
    and only one with its id. *)
Theorem reachable_task_ids_distinct (uuidv4 : nat -> string)
    (state : list Task.t * nat) :
  (forall i j : nat, uuidv4 i = uuidv4 j -> i = j) ->
  reachable uuidv4 state ->
  NoDup (map Task.id (fst state))
  /\ forall task : Task.t,
       task ∈ fst state ->
       exists l1 l2,
         fst state = l1 ++ task :: l2
         /\ Forall (fun x => Task.id x <> Task.id task) l1
         /\ Forall (fun x => Task.id x <> Task.id task) l2.
Proof.
  intros Hinj Hreach.
  destruct (reachable_ids uuidv4 Hinj _ Hreach) as [Hnd _].
  split; [exact Hnd|].
  intros task (l1 & l2 & Heq)%list_elem_of_split. exists l1, l2.
  split; [done|].
  rewrite Heq, map_app in Hnd. simpl in Hnd.
  apply NoDup_app in Hnd as (_ & Hdisj & Hnd2).
  apply NoDup_cons in Hnd2 as [Hnotin _].
  split.
  - apply ids_ne_Forall. intros Hin. apply (Hdisj _ Hin). by left.
  - by apply ids_ne_Forall.
Qed.

Lemma reachable_task_ids_distinct_witness :
  NoDup (map Task.id
           (fst (handleTaskComplete sample_uuid "2024-05-01T10:00:00.000Z"
                   (newTask_of_draft sample_draft (sample_uuid 0)) true
                   (fst (onSubmit sample_uuid sample_draft None [] [] 0%nat))
                   (snd (onSubmit sample_uuid sample_draft None [] [] 0%nat))))).
Proof.
  refine (proj1 (reachable_task_ids_distinct sample_uuid _ sample_uuid_inj _)).
  apply (reach_task sample_uuid
           (fst (onSubmit sample_uuid sample_draft None [] [] 0%nat))
           (snd (onSubmit sample_uuid sample_draft None [] [] 0%nat))).
  - exact (reach_submit sample_uuid [] 0%nat sample_draft None []
             (reach_empty sample_uuid 0%nat)).
  - apply list_elem_of_singleton. reflexivity.
Defined.

(** ** Further properties of the views *)

Section MoreViewFacts.
Variable getTime : string -> option Z.
Variable nowMs : Z.

Lemma isOverdue_statusPredicate (task : Task.t) :
  isOverdue getTime nowMs task = statusPredicate getTime nowMs overdue task.
Proof.
  unfold isOverdue, statusPredicate.
  destruct (Task.dueDate task) as [d|]; [|by rewrite andb_false_r].
  destruct (String.eqb d EmptyString), (Task.completed task); simpl; done.
Qed.

End MoreViewFacts.

(** X4. The views of one collection fit together: the [all] view shows every
    task once (it is a rearrangement of the collection); the [active] and
    [completed] views together show every task once; no task is in both;
    every task of the [overdue] view is in the [active] view; and the
    [completed] view has as many tasks as the dashboard counts as
    completed. None of this depends on the dates being valid. *)
Theorem views_partition (getTime : string -> option Z) (nowMs : Z)
    (tasks : list Task.t) :
  filteredTasks getTime nowMs tasks all ≡ₚ tasks
  /\ filteredTasks getTime nowMs tasks active
     ++ filteredTasks getTime nowMs tasks completed ≡ₚ tasks
  /\ (forall task : Task.t,
        task ∈ filteredTasks getTime nowMs tasks active ->
        task ∉ filteredTasks getTime nowMs tasks completed)
  /\ (forall task : Task.t,
        task ∈ filteredTasks getTime nowMs tasks overdue ->
        task ∈ filteredTasks getTime nowMs tasks active)
  /\ length (filteredTasks getTime nowMs tasks completed)
     = totalCompleted tasks.
Proof.
  split; [|split; [|split; [|split]]].
  - rewrite filteredTasks_Permutation. simpl.
    induction tasks as [|t tasks IH]; [done|].
    rewrite filter_cons_True by done. by rewrite IH.
  - rewrite !filteredTasks_Permutation. simpl.
    rewrite (list_filter_iff (fun task => negb (Task.completed task))
               (fun task => ~ Task.completed task)).
    + rewrite (Permutation_app_comm _ _). apply filter_app_complement.
    + intros x. destruct (Task.completed x); simpl; tauto.
  - intros task. rewrite !filteredTasks_Permutation, !list_elem_of_filter.
    simpl. intros [Ha _] [Hc _]. by destruct (Task.completed task).
  - intros task. rewrite !filteredTasks_Permutation, !list_elem_of_filter.
    simpl. intros [Ho Hin]. split; [|done].
    by destruct (Task.completed task).
  - unfold totalCompleted. by rewrite filteredTasks_Permutation.
Qed.

(** X5. The Overdue badge of a task card and the [overdue] filter agree: for
    a task of the collection, the card shows the badge exactly when the
    [overdue] view lists the task. *)
Theorem overdue_badge_iff_filter (getTime : string -> option Z) (nowMs : Z)
    (tasks : list Task.t) (task : Task.t) :
  (isOverdue getTime nowMs task = statusPredicate getTime nowMs overdue task)
  /\ (task ∈ filteredTasks getTime nowMs tasks overdue
      <-> task ∈ tasks /\ isOverdue getTime nowMs task = true).
Proof.
  split; [apply isOverdue_statusPredicate|].
  rewrite filteredTasks_Permutation, list_elem_of_filter.
  rewrite isOverdue_statusPredicate, Is_true_true. tauto.
Qed.

(** *** The dashboard *)

Section AnalyticsFacts.
Variable getTime : string -> option Z.
Variable startOfDay : Z -> Z.

Lemma length_filter_cons {A} (p : A -> bool) (x : A) (l : list A) :
  length (filter (fun y => p y) (x :: l))
  = ((if p x then 1 else 0) + length (filter (fun y => p y) l))%nat.
Proof.
  rewrite filter_cons. by destruct (p x).
Qed.

(** A task is counted on at most one of several distinct days, and on none
    when it is not completed. *)
Lemma counted_once (days : list Z) (task : Task.t) :
  NoDup (map startOfDay days) ->
  (sum_list (map (fun day => if completedOn getTime startOfDay day task
                             then 1 else 0)%nat days)
   <= if Task.completed task then 1 else 0)%nat.
Proof.
  unfold completedOn.
  destruct (Task.completed task); simpl;
    [|intros _; induction days as [|d days IH]; simpl; lia].
  destruct (Task.completedAt task) as [s|]; simpl;
    [|intros _; induction days as [|d days IH]; simpl; lia].
  destruct (String.eqb s EmptyString); simpl;
    [intros _; induction days as [|d days IH]; simpl; lia|].
  unfold isSameDay. destruct (getTime s) as [ms|];
    [|intros _; induction days as [|d days IH]; simpl; lia].
  induction days as [|d days IH]; simpl; [lia|].
  intros [Hd Hnd]%NoDup_cons.
  destruct (startOfDay ms =? startOfDay d) eqn:Heq; [|by apply IH].
  apply Z.eqb_eq in Heq.
  assert (sum_list
            (map (fun day =>
                    if (startOfDay ms =? startOfDay day)%Z then 1%nat
                    else 0%nat)
                 days) = 0%nat) as ->; [|lia].
  clear IH Hnd. induction days as [|d' days IH]; simpl; [done|].
  destruct (startOfDay ms =? startOfDay d') eqn:Heq'.
  - apply Z.eqb_eq in Heq'. exfalso. apply Hd. simpl.
    apply elem_of_cons. left. congruence.
  - apply IH. intros Hin. apply Hd. simpl. apply elem_of_cons. by right.
Qed.

Lemma chart_bars (days : list Z) (tasks : list Task.t) :
  map snd (chartData getTime startOfDay days tasks)
  = map (fun day =>
           length (filter (fun task => completedOn getTime startOfDay day task)
                          tasks))
        days.
Proof.
  unfold chartData. induction days as [|d days IH]; simpl; [done|].
  by rewrite <- IH.
Qed.

Lemma chart_sum_bound (days : list Z) (tasks : list Task.t) :
  NoDup (map startOfDay days) ->
  (sum_list (map snd (chartData getTime startOfDay days tasks))
   <= totalCompleted tasks)%nat.
Proof.
  intros Hnd. rewrite chart_bars. unfold totalCompleted.
  induction tasks as [|t tasks IH].
  - clear Hnd. induction days as [|d days IHd]; simpl; [done|].
    by rewrite IHd.
  - rewrite (length_filter_cons Task.completed).
    pose proof (counted_once days t Hnd) as Hone.
    assert (sum_list
              (map (fun day =>
                      length (filter (fun task =>
                         completedOn getTime startOfDay day task) (t :: tasks)))
                   days)
            = (sum_list (map (fun day =>
                   if completedOn getTime startOfDay day t then 1 else 0)%nat
                 days)
               + sum_list
                   (map (fun day =>
                      length (filter (fun task =>
                         completedOn getTime startOfDay day task) tasks))
                        days))%nat) as ->; [|lia].
    clear. induction days as [|d days IHd]; simpl; [done|].
    rewrite IHd.
    rewrite (length_filter_cons (completedOn getTime startOfDay d)). lia.
Qed.

End AnalyticsFacts.

(** X6. The chart of the dashboard has one bar per day of the interval, in
    the order of the days; no bar is higher than the number of completed
    tasks; and, the days being distinct calendar days, the bars together
    count no more than the completed tasks, which are no more than all
    tasks. *)
Theorem chart_counts_bounded (getTime : string -> option Z)
    (startOfDay : Z -> Z) (last7Days : list Z) (tasks : list Task.t) :
  NoDup (map startOfDay last7Days) ->
  map fst (chartData getTime startOfDay last7Days tasks) = last7Days
  /\ Forall (fun bar => (snd bar <= totalCompleted tasks)%nat)
            (chartData getTime startOfDay last7Days tasks)
  /\ (sum_list (map snd (chartData getTime startOfDay last7Days tasks))
      <= totalCompleted tasks)%nat
  /\ (totalCompleted tasks <= totalTasks tasks)%nat.
Proof.
  intros Hnd. split; [|split; [|split]].
  - unfold chartData. clear.
    induction last7Days as [|d days IH]; simpl; [done|]. by rewrite IH.
  - apply Forall_forall. intros bar [day [-> _]]%list_elem_of_fmap. simpl.
    unfold totalCompleted. clear.
    induction tasks as [|t tasks IH]; simpl; [done|].
    rewrite (length_filter_cons (completedOn getTime startOfDay day)),
            (length_filter_cons Task.completed).
    unfold completedOn at 1. destruct (Task.completed t); simpl; [|done].
    destruct (match Task.completedAt t with Some _ => _ | None => _ end); lia.
  - by apply chart_sum_bound.
  - unfold totalCompleted, totalTasks. apply length_filter.
Qed.

Lemma chart_counts_bounded_witness :
  (sum_list (map snd (chartData sample_getTime sample_startOfDay
                        sample_last7Days [taskA; taskD; taskC]))
   <= totalCompleted [taskA; taskD; taskC])%nat.
Proof.
  refine (proj1 (proj2 (proj2 (chart_counts_bounded sample_getTime
                                 sample_startOfDay sample_last7Days
                                 [taskA; taskD; taskC] _)))).
  apply (bool_decide_unpack _). vm_compute. exact I.
Defined.

(** Two of the three tasks were completed on 2024-04-30, the sixth of the
    seven days. *)
Example chart_example :
  map snd (chartData sample_getTime sample_startOfDay sample_last7Days
             [taskA; taskD; taskC])
  = [0; 0; 0; 0; 0; 2; 0]%nat.
Proof. vm_compute. reflexivity. Qed.

(** ** The stored collection *)

(** X7. What the saving effect writes for the stored value with
    [JSON.stringify(storedValue)], the loading effect reads back as that
    value with [JSON.parse], and not as the initial value: the stored
    collection survives a reload. (The stored value is a value of the
    language: its numbers are doubles and no object lists a key twice.) *)
Theorem stored_collection_reload (storedValue initialValue : JSValue) :
  JSON.wellformed storedValue = true ->
  loadStored JSON.parse
    (Some (saveStored (JSON.stringify EmptyString) storedValue))
    initialValue
  = storedValue.
Proof.
  intros Hwf. unfold loadStored, saveStored.
  pose proof (JSONFacts.parse_stringify_wellformed EmptyString eq_refl _ Hwf)
    as Hparse.
  destruct (String.eqb _ EmptyString) eqn:Heq.
  - apply String.eqb_eq in Heq. rewrite Heq in Hparse. discriminate Hparse.
  - by rewrite Hparse.
Qed.

Lemma stored_collection_reload_witness :
  loadStored JSON.parse
    (Some (saveStored (JSON.stringify EmptyString)
             (JArray (map js_of_task [taskA; taskC]))))
    (JArray [])
  = JArray (map js_of_task [taskA; taskC]).
Proof.
  apply (stored_collection_reload (JArray (map js_of_task [taskA; taskC]))).
  vm_compute. reflexivity.
Defined.

(** ** The dialog *)

(** X8. A submission of the dialog either adds one task at the end of the
    collection or changes nothing and calls the id generator not at all. The
    task added is well formed in the sense of the three checks: a scheduled
    task has a due date and a daily task has none; a recurring task has an
    interval and a repetition count, both present and not zero, and a unit;
    it has one open subtask for each title, in order. *)
Theorem submit_adds_well_formed (uuidv4 : nat -> string)
    (withStartTime : Z -> string -> option Z) (toISOString : Z -> string)
    (values : Form.t) (subtasks : list string) (prev : list Task.t)
    (n : nat) :
  match submit uuidv4 withStartTime toISOString values subtasks prev n with
  | (tasks, Added, n') =>
      exists t : Task.t,
        tasks = prev ++ [t]
        /\ n' = S (n + length subtasks)
        /\ Task.title t = Form.title values
        /\ Task.type t = Form.type values
        /\ Task.completed t = false
        /\ (Task.type t = daily -> Task.dueDate t = None)
        /\ (Task.type t = scheduled -> is_Some (Task.dueDate t))
        /\ Task.isRecurring t = Some (Form.isRecurring values)
        /\ (Task.isRecurring t = Some true ->
            exists (interval : Z) (u : IntervalUnit) (reps : Z),
              Task.recurringInterval t = Some interval /\ interval <> 0
              /\ Task.recurringIntervalUnit t = Some u
              /\ Task.repetitions t = Some reps /\ reps <> 0)
        /\ map Subtask.title (Task.subtasks t) = subtasks
        /\ Forall (fun sub => Subtask.completed sub = false)
                  (Task.subtasks t)
  | (tasks, _, n') => tasks = prev /\ n' = n
  end.
Proof.
  unfold submit.
  destruct values as [title description type dueDate startTime isRecurring
                      interval unit reps imageUrl]; simpl.
  assert (forall (finalDueDate : option string),
             (type = daily -> finalDueDate = None) ->
             (type = scheduled -> is_Some finalDueDate) ->
             (isRecurring = true ->
              exists (i : Z) (u : IntervalUnit) (r : Z),
                interval = Some i /\ i <> 0 /\ unit = Some u
                /\ reps = Some r /\ r <> 0) ->
             match
               gbind (onSubmit uuidv4
                        (draft_of_form
                           (Form.mk title description type dueDate startTime
                              isRecurring interval unit reps imageUrl))
                        finalDueDate subtasks prev)
                     (fun tasks => gret (tasks, Added)) n
             with
             | (tasks, Added, n') =>
                 exists t : Task.t,
                   tasks = prev ++ [t]
                   /\ n' = S (n + length subtasks)
                   /\ Task.title t = title
                   /\ Task.type t = type
                   /\ Task.completed t = false
                   /\ (Task.type t = daily -> Task.dueDate t = None)
                   /\ (Task.type t = scheduled -> is_Some (Task.dueDate t))
                   /\ Task.isRecurring t = Some isRecurring
                   /\ (Task.isRecurring t = Some true ->
                       exists (i : Z) (u : IntervalUnit) (r : Z),
                         Task.recurringInterval t = Some i /\ i <> 0
                         /\ Task.recurringIntervalUnit t = Some u
                         /\ Task.repetitions t = Some r /\ r <> 0)
                   /\ map Subtask.title (Task.subtasks t) = subtasks
                   /\ Forall (fun sub => Subtask.completed sub = false)
                             (Task.subtasks t)
             | (tasks, _, n') => tasks = prev /\ n' = n
             end) as Hadd.
  { intros finalDueDate Hdaily Hsched Hrec.
    unfold gbind, onSubmit, gbind. rewrite finalSubtasks_run, addTask_run.
    unfold gret. simpl. eexists. split; [reflexivity|]. simpl.
    repeat split; try done.
    - intros [= ->]. by apply Hrec.
    - clear. generalize n. induction subtasks as [|s subs IH]; intros k;
        simpl; [done|]. by rewrite IH.
    - clear. generalize n. induction subtasks as [|s subs IH]; intros k;
        simpl; constructor; [done|apply IH]. }
  assert (forall b : bool, isRecurring && b = false ->
            (isRecurring = true -> b = false)) as Hand.
  { intros b Hb ->. done. }
  destruct type, dueDate as [date|]; simpl; try done;
    (destruct (isRecurring && falsy_number interval) eqn:H1; [done|]);
    (destruct (isRecurring && negb (bool_decide (is_Some unit))) eqn:H2;
       [done|]);
    (destruct (isRecurring && falsy_number reps) eqn:H3; [done|]);
    assert (isRecurring = true ->
            exists (i : Z) (u : IntervalUnit) (r : Z),
              interval = Some i /\ i <> 0 /\ unit = Some u
              /\ reps = Some r /\ r <> 0) as Hrec
      by (intros Hr;
          pose proof (Hand _ H1 Hr) as E1; pose proof (Hand _ H2 Hr) as E2;
          pose proof (Hand _ H3 Hr) as E3;
          destruct interval as [i|]; [|done];
          destruct unit as [u|]; [|done];
          destruct reps as [r|]; [|done];
          simpl in E1, E3; apply Z.eqb_neq in E1; apply Z.eqb_neq in E3;
          by exists i, u, r).
  - by apply Hadd.
  - by apply Hadd.
  - destruct (truthy_str startTime).
    + destruct (withStartTime date (default EmptyString startTime));
        [|done]. apply Hadd; [done|by eexists|done].
    + apply Hadd; [done|by eexists|done].
Qed.

Example submit_examples :
  let run values :=
    submit sample_uuid (fun _ _ => None) (fun _ => "2024-05-02T09:00:00.000Z")
           values ["Fill the can"] [] 0%nat in
  snd (fst (run sample_form)) = Added
  /\ map Task.id (fst (fst (run sample_form))) = ["uuid-1"]
  /\ map Task.dueDate (fst (fst (run sample_form)))
     = [Some "2024-05-02T09:00:00.000Z"]
  /\ run {| Form.title := "t"; Form.description := None;
            Form.type := scheduled; Form.dueDate := None;
            Form.startTime := None; Form.isRecurring := false;
            Form.recurringInterval := None;
            Form.recurringIntervalUnit := None;
            Form.repetitions := None; Form.imageUrl := None |}
     = ([], FieldError "dueDate" "Due date is required for scheduled tasks.",
        0%nat)
  /\ run {| Form.title := "t"; Form.description := None;
            Form.type := daily; Form.dueDate := None;
            Form.startTime := None; Form.isRecurring := true;
            Form.recurringInterval := Some 2;
            Form.recurringIntervalUnit := Some days;
            Form.repetitions := Some 0; Form.imageUrl := None |}
     = ([], FieldError "repetitions" "Required", 0%nat).
Proof. vm_compute. repeat split. Qed.

Lemma filter_index_remove {A} (index k : nat) (l : list A) :
  filter_index (fun _ i => negb (Nat.eqb i index)) k l
  = if decide (k <= index)%nat
    then take (index - k) l ++ drop (S (index - k)) l
    else l.
Proof.
  revert k. induction l as [|x l IH]; intros k; simpl.
  - destruct (decide (k <= index)%nat); [|done].
    by destruct (index - k)%nat.
  - rewrite IH. destruct (Nat.eqb k index) eqn:Hk; simpl.
    + apply Nat.eqb_eq in Hk as ->.
      rewrite decide_False by lia. rewrite decide_True by lia.
      by rewrite Nat.sub_diag.
    + apply Nat.eqb_neq in Hk.
      destruct (decide (k <= index)%nat) as [Hle|Hgt].
      * rewrite decide_True by lia.
        replace (index - k)%nat with (S (index - S k)) by lia. done.
      * by rewrite decide_False by lia.
Qed.

(** X9. [handleRemoveSubtask] removes the title at the given position and
    nothing else: the titles before and after it keep their order; an index
    past the end removes nothing, also when two titles are equal (the
    removal is by position, not by text). Removing the position a title
    was just added at gives the list back. *)
Theorem handleRemoveSubtask_at (trim : string -> string) (index : nat)
    (subtasks : list string) (newSubtask : string) :
  handleRemoveSubtask index subtasks
    = take index subtasks ++ drop (S index) subtasks
  /\ ((length subtasks <= index)%nat ->
      handleRemoveSubtask index subtasks = subtasks)
  /\ ((index < length subtasks)%nat ->
      S (length (handleRemoveSubtask index subtasks)) = length subtasks)
  /\ (trim newSubtask <> EmptyString ->
      handleRemoveSubtask (length subtasks)
        (fst (handleAddSubtask trim (subtasks, newSubtask)))
      = subtasks)
  /\ (trim newSubtask = EmptyString ->
      handleAddSubtask trim (subtasks, newSubtask) = (subtasks, newSubtask)).
Proof.
  assert (handleRemoveSubtask index subtasks
          = take index subtasks ++ drop (S index) subtasks) as Heq.
  { unfold handleRemoveSubtask. rewrite filter_index_remove.
    rewrite decide_True by lia. by rewrite Nat.sub_0_r. }
  split; [exact Heq|]. split; [|split; [|split]].
  - intros Hlen. rewrite Heq.
    rewrite take_ge by lia. rewrite drop_ge by lia. apply app_nil_r.
  - intros Hlt. rewrite Heq, length_app, length_take, length_drop. lia.
  - intros Hne. unfold handleAddSubtask.
    apply String.eqb_neq in Hne. rewrite Hne. simpl.
    unfold handleRemoveSubtask. rewrite filter_index_remove.
    rewrite decide_True by lia. rewrite Nat.sub_0_r.
    rewrite take_app_length. rewrite drop_ge; [apply app_nil_r|].
    rewrite length_app. simpl. lia.
  - intros Hblank. unfold handleAddSubtask. by rewrite Hblank.
Qed.

(** *** The earlier [updateTask] *)

Lemma earlier_updateTask_absent (id : string) (updates : Partial.t)
    (l : list Task.t) :
  Forall (fun x => Task.id x <> id) l -> Earlier.updateTask id updates l = l.
Proof.
  unfold Earlier.updateTask. induction 1 as [|x l Hx _ IH]; simpl; [done|].
  apply String.eqb_neq in Hx. by rewrite Hx, IH.
Qed.

(** X10. On a collection with distinct task ids the present [updateTask]
    does what the earlier one did (the merge of the changes onto the task
    with the id, every other task as it was) and then, at most, appends one
    task: the recurrence was added without changing the update itself. *)
Theorem updateTask_extends_earlier (uuidv4 : nat -> string) (id : string)
    (updates : Partial.t) (prev : list Task.t) (n : nat) :
  NoDup (map Task.id prev) ->
  exists extra : list Task.t,
    fst (updateTask uuidv4 id updates prev n)
      = Earlier.updateTask id updates prev ++ extra
    /\ (length extra <= 1)%nat.
Proof.
  intros Hnd.
  destruct (first_split (fun task => String.eqb (Task.id task) id) prev)
    as [Habs | (l1 & x & l2 & -> & Hl1 & Hx)].
  - assert (Forall (fun y => Task.id y <> id) prev) as Habs'.
    { eapply Forall_impl; [exact Habs|]. intros y. apply String.eqb_neq. }
    exists []. rewrite updateTask_absent, earlier_updateTask_absent by done.
    simpl. split; [by rewrite app_nil_r|lia].
  - assert (Forall (fun y => Task.id y <> id) l1) as Hl1'.
    { eapply Forall_impl; [exact Hl1|]. intros y. apply String.eqb_neq. }
    pose proof Hx as Hx'. apply String.eqb_eq in Hx'.
    assert (Forall (fun y => Task.id y <> id) l2) as Hl2.
    { rewrite map_app in Hnd. simpl in Hnd.
      apply NoDup_app in Hnd as (_ & _ & Hnd).
      apply NoDup_cons in Hnd as [Hnotin _].
      apply ids_ne_Forall. by rewrite <- Hx'. }
    assert (Earlier.updateTask id updates (l1 ++ x :: l2)
            = l1 ++ spread x updates :: l2) as ->.
    { unfold Earlier.updateTask. rewrite map_app. simpl. rewrite Hx.
      fold (Earlier.updateTask id updates l1).
      fold (Earlier.updateTask id updates l2).
      by rewrite !earlier_updateTask_absent. }
    rewrite (updateTask_at uuidv4 id updates l1 x l2 n Hl1' Hx').
    match goal with |- context [if ?c then _ else _] => destruct c end; simpl.
    + eexists [_]. split; [|simpl; lia]. by rewrite <- app_assoc.
    + exists []. split; [by rewrite app_nil_r|simpl; lia].
Qed.

Lemma updateTask_extends_earlier_witness :
  exists extra : list Task.t,
    fst (updateTask sample_uuid "a" set_completed
           [simple "b" false None None []; recurring "a" false None 3] 0%nat)
      = Earlier.updateTask "a" set_completed
          [simple "b" false None None []; recurring "a" false None 3]
        ++ extra
    /\ (length extra <= 1)%nat.
Proof.
  refine (updateTask_extends_earlier sample_uuid "a" set_completed
            [simple "b" false None None []; recurring "a" false None 3]
            0%nat _).
  apply (bool_decide_unpack _). vm_compute. exact I.
Defined.

(** ** A recurrence run *)

Section RunFacts.
Variable uuidv4 : nat -> string.
Hypothesis uuidv4_inj : forall i j, uuidv4 i = uuidv4 j -> i = j.

(** One tick of the newest task. *)
Lemma tick_newest (now : string) (l : list Task.t) (t : Task.t) (r : Z)
    (n : nat) :
  Forall (fun x => Task.id x <> Task.id t) l ->
  Task.isRecurring t = Some true ->
  Task.repetitions t = Some r ->
  1 <= r ->
  exists t' : Task.t,
    Task.id t' = Task.id t
    /\ Task.isRecurring t' = Some true
    /\ Task.repetitions t' = Some r
    /\ handleTaskComplete uuidv4 now t true (l ++ [t]) n
       = if 1 <? r
         then ((l ++ [t']) ++ [successor t (uuidv4 n) (js_sub r 1)], S n)
         else (l ++ [t'], n).
Proof.
  intros Hl Hrec Hreps Hr. unfold handleTaskComplete.
  rewrite (updateTask_at uuidv4 (Task.id t) _ l t [] n Hl eq_refl).
  match goal with
  | |- context [spread t ?u] => exists (spread t u)
  end.
  split; [reflexivity|]. split; [exact Hrec|]. split; [exact Hreps|].
  rewrite Hrec, Hreps. unfold truthy, nullish. simpl.
  rewrite js_sub_pos.
  replace (0 <? r) with true by (symmetry; apply Z.ltb_lt; lia).
  simpl. destruct (1 <? r); [|done]. by rewrite <- app_assoc.
Qed.

Lemma completeNewest_repetitions (now : string) (count : nat) :
  forall (l : list Task.t) (t : Task.t) (r : Z) (n : nat),
    NoDup (map Task.id (l ++ [t])) ->
    (forall x k, x ∈ map Task.id (l ++ [t]) -> (n <= k)%nat -> uuidv4 k <> x) ->
    Task.isRecurring t = Some true ->
    Task.repetitions t = Some r ->
    1 <= r <= 2 ^ 53 ->
    map Task.repetitions (fst (completeNewest uuidv4 now count (l ++ [t]) n))
    = map Task.repetitions l
      ++ map (fun i => Some (r - Z.of_nat i))
             (seq 0 (Nat.min (S count) (Z.to_nat r))).
Proof.
  induction count as [|count IH]; intros l t r n Hnd Hfresh Hrec Hreps Hr.
  - cbn [completeNewest gret fst]. rewrite map_app.
    replace (Nat.min 1 (Z.to_nat r)) with 1%nat by lia.
    cbn [seq map]. by rewrite Hreps, Z.sub_0_r.
  - cbn [completeNewest]. rewrite last_snoc. unfold gbind.
    assert (Forall (fun x => Task.id x <> Task.id t) l) as Hl.
    { rewrite map_app in Hnd. simpl in Hnd.
      apply NoDup_app in Hnd as (_ & Hdisj & _).
      apply ids_ne_Forall. intros Hin. apply (Hdisj _ Hin).
      by apply list_elem_of_singleton. }
    destruct (tick_newest now l t r n Hl Hrec Hreps (proj1 Hr))
      as (t' & Hid' & Hrec' & Hreps' & ->).
    rewrite (js_sub_exact r Hr).
    assert (map Task.id (l ++ [t']) = map Task.id (l ++ [t])) as Hids.
    { rewrite !map_app. simpl. by rewrite Hid'. }
    destruct (1 <? r) eqn:Hmore.
    + apply Z.ltb_lt in Hmore.
      rewrite (IH (l ++ [t']) (successor t (uuidv4 n) (r - 1)) (r - 1) (S n)).
      * rewrite map_app. cbn [map]. rewrite Hreps', <- app_assoc. f_equal.
        replace (Nat.min (S (S count)) (Z.to_nat r))
          with (S (Nat.min (S count) (Z.to_nat (r - 1)))) by lia.
        rewrite <- cons_seq. rewrite <- fmap_S_seq. cbn [app map].
        rewrite Z.sub_0_r. f_equal.
        rewrite <- list_fmap_compose. apply list_fmap_ext.
        intros i x _. simpl. f_equal. lia.
      * rewrite map_app. cbn [map]. rewrite Hids. apply NoDup_app.
        split; [done|]. split; [|apply NoDup_singleton].
        intros x Hx ->%list_elem_of_singleton.
        by apply (Hfresh _ n Hx).
      * intros x k Hx Hk.
        rewrite map_app, Hids in Hx. cbn [map] in Hx.
        apply elem_of_app in Hx as [Hx| ->%list_elem_of_singleton].
        -- apply Hfresh; [done|lia].
        -- intros Heq%uuidv4_inj. lia.
      * done.
      * done.
      * lia.
    + apply Z.ltb_ge in Hmore. assert (r = 1) as -> by lia.
      rewrite (IH l t' 1 n); [|by rewrite Hids|by rewrite Hids|done..].
      f_equal.
      replace (Nat.min (S count) (Z.to_nat 1)) with 1%nat by lia.
      replace (Nat.min (S (S count)) (Z.to_nat 1)) with 1%nat by lia. done.
Qed.

End RunFacts.

(** X11. A recurrence runs out. Starting from a recurring task with [r]
    repetitions, ticking the checkbox of the newest task [count] times in a
    row leaves [min (count + 1) r] tasks, whose [repetitions] read
    [r, r - 1, ...]: each tick of a task with more than one repetition adds
    a successor with one less, the task with one repetition adds none, and
    ticks after that add nothing. (The id generator never repeats a value
    and never returns the id of the first task; [r] is at most [2 ^ 53],
    the range in which the subtraction of doubles is exact.) *)
Theorem recurrence_runs_out (uuidv4 : nat -> string) (now : string)
    (t : Task.t) (r : Z) (count n : nat) :
  (forall i j : nat, uuidv4 i = uuidv4 j -> i = j) ->
  (forall k : nat, (n <= k)%nat -> uuidv4 k <> Task.id t) ->
  Task.isRecurring t = Some true ->
  Task.repetitions t = Some r ->
  1 <= r <= 2 ^ 53 ->
  map Task.repetitions (fst (completeNewest uuidv4 now count [t] n))
    = map (fun i => Some (r - Z.of_nat i))
          (seq 0 (Nat.min (S count) (Z.to_nat r)))
  /\ length (fst (completeNewest uuidv4 now count [t] n))
     = Nat.min (S count) (Z.to_nat r).
Proof.
  intros Hinj Hfresh Hrec Hreps Hr.
  assert (map Task.repetitions (fst (completeNewest uuidv4 now count [t] n))
          = map (fun i => Some (r - Z.of_nat i))
                (seq 0 (Nat.min (S count) (Z.to_nat r)))) as Heq.
  { apply (completeNewest_repetitions uuidv4 Hinj now count [] t r n);
      try done.
    - simpl. apply NoDup_singleton.
    - intros x k ->%list_elem_of_singleton Hk. by apply Hfresh. }
  split; [exact Heq|].
  apply (f_equal length) in Heq. by rewrite !length_map, length_seq in Heq.
Qed.

Lemma sample_uuid_not_a (k : nat) : sample_uuid k <> "a".
Proof. unfold sample_uuid. simpl. discriminate. Qed.

Lemma recurrence_runs_out_witness :
  map Task.repetitions
      (fst (completeNewest sample_uuid "2024-05-01T10:00:00.000Z" 5
              [recurring "a" false None 3] 0%nat))
    = map (fun i => Some (3 - Z.of_nat i)) (seq 0 (Nat.min 6 (Z.to_nat 3)))
  /\ length (fst (completeNewest sample_uuid "2024-05-01T10:00:00.000Z" 5
                    [recurring "a" false None 3] 0%nat))
     = Nat.min 6 (Z.to_nat 3).
Proof.
  refine (recurrence_runs_out sample_uuid "2024-05-01T10:00:00.000Z"
            (recurring "a" false None 3) 3 5 0%nat sample_uuid_inj _
            eq_refl eq_refl _).
  - intros k _. apply sample_uuid_not_a.
  - lia.
Defined.

Example recurrence_run_example :
  map (fun t => (Task.id t, Task.completed t, Task.repetitions t))
      (fst (completeNewest sample_uuid "2024-05-01T10:00:00.000Z" 5
              [recurring "a" false None 3] 0%nat))
  = [("a", true, Some 3); ("uuid-0", true, Some 2); ("uuid-1", true, Some 1)].
Proof. vm_compute. reflexivity. Qed.

(** ** The checkboxes *)

(** X12. Ticking or unticking a subtask changes, in the task the card shows
    (the first task with its id), the [completed] flag of the subtasks with
    that subtask id and nothing else of the subtasks: their ids, titles,
    number and order stay, and an unknown subtask id changes none. The task
    itself becomes completed exactly when all its subtasks then are, with
    [completedAt] set or cleared accordingly. *)
Theorem subtask_checkbox_effect (uuidv4 : nat -> string) (now : string)
    (l1 : list Task.t) (task : Task.t) (l2 : list Task.t)
    (subtaskId : string) (c : bool) (n : nat) :
  Forall (fun x => Task.id x <> Task.id task) l1 ->
  exists t' : Task.t,
    fst (handleSubtaskComplete uuidv4 now task subtaskId c
           (l1 ++ task :: l2) n) !! length l1 = Some t'
    /\ map Subtask.id (Task.subtasks t') = map Subtask.id (Task.subtasks task)
    /\ map Subtask.title (Task.subtasks t')
       = map Subtask.title (Task.subtasks task)
    /\ (forall (i : nat) (sub : Subtask.t),
          Task.subtasks task !! i = Some sub ->
          Task.subtasks t' !! i
          = Some (if String.eqb (Subtask.id sub) subtaskId
                  then Subtask.with_completed sub c else sub))
    /\ (subtaskId ∉ map Subtask.id (Task.subtasks task) ->
        Task.subtasks t' = Task.subtasks task)
    /\ Task.completed t' = forallb Subtask.completed (Task.subtasks t')
    /\ Task.completedAt t' = (if Task.completed t' then Some now else None)
    /\ Task.id t' = Task.id task
    /\ Task.title t' = Task.title task
    /\ Task.repetitions t' = Task.repetitions task.
Proof.
  intros Hl1. unfold handleSubtaskComplete.
  rewrite (updateTask_at uuidv4 (Task.id task) _ l1 task l2 n Hl1 eq_refl).
  match goal with
  | |- context [spread task ?u] => exists (spread task u)
  end.
  split.
  { match goal with |- context [if ?c then _ else _] => destruct c end;
      simpl; by rewrite list_lookup_middle. }
  simpl. repeat split.
  - rewrite <- list_fmap_compose. apply list_fmap_ext.
    intros i sub _. simpl. by destruct (String.eqb _ _).
  - rewrite <- list_fmap_compose. apply list_fmap_ext.
    intros i sub _. simpl. by destruct (String.eqb _ _).
  - intros i sub Hi. rewrite list_lookup_fmap, Hi. done.
  - intros Hnotin. induction (Task.subtasks task) as [|sub subs IH];
      simpl; [done|].
    simpl in Hnotin. apply not_elem_of_cons in Hnotin as [Hne Hnotin].
    rewrite IH by done.
    assert (String.eqb (Subtask.id sub) subtaskId = false) as ->; [|done].
    apply String.eqb_neq. congruence.
Qed.

Lemma subtask_checkbox_effect_witness :
  exists t' : Task.t,
    fst (handleSubtaskComplete sample_uuid "2024-05-01T10:00:00.000Z"
           (recurring "a" false None 3) "s1" false
           ([simple "b" false None None []]
            ++ recurring "a" false None 3 :: []) 0%nat)
      !! length [simple "b" false None None []] = Some t'
    /\ map Subtask.id (Task.subtasks t')
       = map Subtask.id (Task.subtasks (recurring "a" false None 3)).
Proof.
  assert (Forall (fun x => Task.id x <> Task.id (recurring "a" false None 3))
                 [simple "b" false None None []]) as H.
  { constructor; [discriminate|constructor]. }
  destruct (subtask_checkbox_effect sample_uuid "2024-05-01T10:00:00.000Z"
              [simple "b" false None None []] (recurring "a" false None 3) []
              "s1" false 0%nat H)
    as (t' & Hlook & Hids & _).
  exists t'. split; [exact Hlook|exact Hids].
Defined.

Example subtask_checkbox_example :
  map (fun t => (Task.completed t, Task.completedAt t,
                 map Subtask.completed (Task.subtasks t)))
      (fst (handleSubtaskComplete sample_uuid "2024-05-01T10:00:00.000Z"
              (recurring "a" true (Some "2024-04-30T09:00:00.000Z") 3)
              "s1" false
              [recurring "a" true (Some "2024-04-30T09:00:00.000Z") 3] 0%nat))
  = [(false, None, [false])].
Proof. vm_compute. reflexivity. Qed.

(** X13. For a task that is not recurring, ticking its checkbox and then
    unticking it gives the collection back as it was, when the task was open
    with no [completedAt]: nothing is left behind and no id is generated. *)
Theorem tick_untick_restores (uuidv4 : nat -> string) (now now' : string)
    (l1 : list Task.t) (t : Task.t) (l2 : list Task.t) (n : nat) :
  Forall (fun x => Task.id x <> Task.id t) l1 ->
  Task.completed t = false ->
  Task.completedAt t = None ->
  Task.isRecurring t <> Some true ->
  handleTaskComplete uuidv4 now' t false
    (fst (handleTaskComplete uuidv4 now t true (l1 ++ t :: l2) n))
    (snd (handleTaskComplete uuidv4 now t true (l1 ++ t :: l2) n))
  = (l1 ++ t :: l2, n).
Proof.
  intros Hl1 Hopen Hat Hrec. unfold handleTaskComplete.
  rewrite (updateTask_at uuidv4 (Task.id t) _ l1 t l2 n Hl1 eq_refl).
  assert (truthy (Task.isRecurring t) = false) as Hfalse.
  { by destruct (Task.isRecurring t) as [[]|]. }
  rewrite Hfalse. simpl.
  match goal with
  | |- context [l1 ++ ?t1 :: l2] =>
      rewrite (updateTask_at uuidv4 (Task.id t) _ l1 t1 l2 n Hl1 eq_refl)
  end.
  simpl. do 2 f_equal.
  destruct t; simpl in *; by subst.
Qed.

Lemma tick_untick_restores_witness :
  handleTaskComplete sample_uuid "2024-05-01T11:00:00.000Z" taskA false
    (fst (handleTaskComplete sample_uuid "2024-05-01T10:00:00.000Z" taskA true
            ([taskB] ++ taskA :: [taskC]) 0%nat))
    (snd (handleTaskComplete sample_uuid "2024-05-01T10:00:00.000Z" taskA true
            ([taskB] ++ taskA :: [taskC]) 0%nat))
  = ([taskB] ++ taskA :: [taskC], 0%nat).
Proof.
  refine (tick_untick_restores sample_uuid "2024-05-01T10:00:00.000Z"
            "2024-05-01T11:00:00.000Z" [taskB] taskA [taskC] 0%nat
            _ eq_refl eq_refl _).
  - constructor; [discriminate|constructor].
  - discriminate.
Defined.

(** ** The suggestions *)

(** X14. A request for suggestions never loses or reorders the subtask
    titles already entered: the titles afterwards are those before,
    followed by what was added. Titles are added, without a toast, exactly
    when the description is not empty and the flow answers; otherwise the
    titles are unchanged and an error toast is shown. The server action
    answers with exactly one of [subtasks] and [error], and with the error
    for an empty description whatever the flow would say. *)
Theorem suggestions_extend (suggestSubtasks : string -> option (list string))
    (description : option string) (subtasks : list string) :
  let result := handleSuggestSubtasks suggestSubtasks description subtasks in
  (snd result = None
   <-> exists d added,
         description = Some d /\ d <> EmptyString
         /\ suggestSubtasks d = Some added
         /\ fst result = subtasks ++ added)
  /\ (snd result = None
      \/ fst result = subtasks /\ exists msg, snd result = Some (ToastError msg))
  /\ (forall d : string,
        is_Some (sug_subtasks (getAISubtaskSuggestions suggestSubtasks d))
        <-> sug_error (getAISubtaskSuggestions suggestSubtasks d) = None)
  /\ sug_subtasks (getAISubtaskSuggestions suggestSubtasks EmptyString) = None.
Proof.
  simpl. split; [|split; [|split; [|done]]].
  - unfold handleSuggestSubtasks, getAISubtaskSuggestions.
    destruct description as [d|]; simpl.
    + destruct (String.eqb d EmptyString) eqn:Hd; simpl.
      * split; [done|]. intros (d' & added & [= <-] & Hne & _).
        apply String.eqb_eq in Hd. done.
      * apply String.eqb_neq in Hd.
        destruct (suggestSubtasks d) as [sugg|] eqn:Hs; simpl.
        -- split; [|done]. intros _. by exists d, sugg.
        -- split; [done|]. intros (d' & added & [= <-] & _ & Hs' & _).
           congruence.
    + split; [done|]. by intros (d' & added & ? & _).
  - unfold handleSuggestSubtasks, getAISubtaskSuggestions.
    destruct description as [d|]; simpl; [|right; split; [done|by eexists]].
    destruct (String.eqb d EmptyString); simpl;
      [right; split; [done|by eexists]|].
    destruct (suggestSubtasks d); simpl;
      [by left|right; split; [done|by eexists]].
  - intros d. unfold getAISubtaskSuggestions.
    destruct (String.eqb d EmptyString); simpl.
    + split; [by intros [x Hx]|done].
    + destruct (suggestSubtasks d); simpl; split; try done;
        by intros [x Hx].
Qed.

(** ** Instances of the two supporting results above *)

Lemma sort_tasks_determined_witness :
  [taskB; taskA; taskC] = sort (compareTasks sample_getTime) [taskB; taskA; taskC].
Proof.
  refine (sort_tasks_determined sample_getTime [taskB; taskA; taskC]
            [taskB; taskA; taskC] _ _ _ _).
  - repeat constructor; eexists; reflexivity.
  - reflexivity.
  - repeat constructor; vm_compute; discriminate.
  - reflexivity.
Defined.

Lemma reachable_completedAt_consistent_witness :
  Forall completedAt_consistent
         (fst (onSubmit sample_uuid sample_draft None ["Fill the can"] []
                 0%nat)).
Proof.
  exact (reachable_completedAt_consistent sample_uuid _
           (reach_submit sample_uuid [] 0%nat sample_draft None
              ["Fill the can"] (reach_empty sample_uuid 0%nat))).
Defined.
